(** * js-callgraph: decoration, labelling, native model and extraction

    A shallow embedding of the parts of js-callgraph that its design
    document makes statements about:

    - [Js]      : the JavaScript values the analyser manipulates (ESTree
                  nodes are plain objects) and the handful of language
                  primitives the sources use on them;
    - [Astutil] : [init] (the decoration pass), [funcname], [encFuncName],
                  [basename], [ppPos] and the predicates on nodes;
    - [Store]   : [visit] and [visitWithState] over an object store,
                  where the [attr] side-table holds real back-pointers;
    - [Natives] : [addNativeFlowEdges], [isStepCall], [handleStepCall],
                  [addStepFlowEdges];
    - [Runner]  : the [static] and [nativecalls] projections, the
                  configuration checks of [build] and [setFiles], the
                  file filter and [Array.prototype.remove];
    - [Build]   : [buildProgram], [astFromSrc], [astFromFiles]. *)

From Stdlib Require Import ZArith DecimalString DecimalZ DecimalPos DecimalNat.
From stdpp Require Import gmap strings list.

Local Open Scope string_scope.
Local Open Scope list_scope.

(** ** JavaScript values *)

Module Js.

(** ESTree nodes are ordinary objects: an ordered list of own enumerable
    properties ([for (p in nd)] enumerates them in this order).  Numbers
    are the integers that occur in an AST (offsets, small literals). *)
Local Unset Elimination Schemes.
Inductive value :=
| VUndef
| VNull
| VBool (b : bool)
| VNum (n : Z)
| VStr (s : string)
| VArr (xs : list value)
| VObj (fs : list (string * value)).
Local Set Elimination Schemes.

Section value_induction.
Variable P : value → Prop.
Hypothesis Hundef : P VUndef.
Hypothesis Hnull : P VNull.
Hypothesis Hbool : ∀ b, P (VBool b).
Hypothesis Hnum : ∀ n, P (VNum n).
Hypothesis Hstr : ∀ s, P (VStr s).
Hypothesis Harr : ∀ xs, Forall P xs → P (VArr xs).
Hypothesis Hobj : ∀ fs, Forall (λ pv, P pv.2) fs → P (VObj fs).

Fixpoint value_nested_ind (v : value) : P v :=
  match v with
  | VUndef => Hundef
  | VNull => Hnull
  | VBool b => Hbool b
  | VNum n => Hnum n
  | VStr s => Hstr s
  | VArr xs =>
      Harr xs ((fix go (l : list value) : Forall P l :=
                  match l with
                  | [] => Forall_nil_2 P
                  | x :: l' => Forall_cons_2 P x l' (value_nested_ind x) (go l')
                  end) xs)
  | VObj fs =>
      Hobj fs ((fix go (l : list (string * value)) : Forall (λ pv, P pv.2) l :=
                  match l with
                  | [] => Forall_nil_2 _
                  | pv :: l' =>
                      Forall_cons_2 (λ pv, P pv.2) pv l' (value_nested_ind pv.2) (go l')
                  end) fs)
  end.
End value_induction.

(** Decimal rendering of numbers, as template literals and [for-in] keys
    produce it. *)
Definition string_of_nat (n : nat) : string :=
  NilZero.string_of_uint (Nat.to_uint n).

Definition string_of_Z (n : Z) : string :=
  NilZero.string_of_int (Z.to_int n).

(** [ToBoolean]. *)
Definition truthy (v : value) : bool :=
  match v with
  | VUndef | VNull => false
  | VBool b => b
  | VNum n => negb (n =? 0)%Z
  | VStr s => negb (String.eqb s "")
  | VArr _ | VObj _ => true
  end.

(** Own-property lookup [fs[p]]. *)
Fixpoint lookup_prop (p : string) (fs : list (string * value)) : value :=
  match fs with
  | [] => VUndef
  | (q, v) :: r => if String.eqb q p then v else lookup_prop p r
  end.

(** [v?.p] for the property names the analyser reads (type, id, key,
    left, name, ...): an object answers with its own property; arrays
    and primitives have no property of such a name; [undefined] and
    [null] short-circuit to [undefined]. *)
Definition get (v : value) (p : string) : value :=
  match v with
  | VObj fs => lookup_prop p fs
  | _ => VUndef
  end.

(** [v.p]: as [get], but reading a property of [undefined] or [null]
    throws a TypeError, rendered as [None]. *)
Definition getx (v : value) (p : string) : option value :=
  match v with
  | VUndef | VNull => None
  | _ => Some (get v p)
  end.

(** [fs[p] = v] on an object's property list: an existing property keeps
    its place in the enumeration order, a new one goes last. *)
Fixpoint assign_prop (p : string) (v : value) (fs : list (string * value))
  : list (string * value) :=
  match fs with
  | [] => [(p, v)]
  | (q, w) :: r => if String.eqb q p then (q, v) :: r else (q, w) :: assign_prop p v r
  end.

Definition has_prop (p : string) (fs : list (string * value)) : bool :=
  existsb (λ qv, String.eqb qv.1 p) fs.

(** [ToString], as used by template literals and by [==] between an
    object and a string. *)
Fixpoint toString (v : value) : string :=
  match v with
  | VUndef => "undefined"
  | VNull => "null"
  | VBool true => "true"
  | VBool false => "false"
  | VNum n => string_of_Z n
  | VStr s => s
  | VArr xs =>
      (fix join (first : bool) (l : list value) : string :=
         match l with
         | [] => ""
         | x :: l' =>
             (if first then "" else ",") +:+
             match x with VUndef | VNull => "" | _ => toString x end +:+
             join false l'
         end) true xs
  | VObj _ => "[object Object]"
  end.

(** [v === 'lit']. *)
Definition strictEqStr (v : value) (lit : string) : bool :=
  match v with
  | VStr s => String.eqb s lit
  | _ => false
  end.

(** [v == 'lit'] for a literal that is not the rendering of a number
    (the sources compare with node type names only): a string compares
    by content, an object is converted with [ToString] first, anything
    else differs. *)
Definition looseEqStr (v : value) (lit : string) : bool :=
  match v with
  | VStr s => String.eqb s lit
  | VArr _ | VObj _ => String.eqb (toString v) lit
  | _ => false
  end.

Definition isNull (v : value) : bool :=
  match v with VNull => true | _ => false end.

(** Values compare structurally. *)
Fixpoint value_eq_dec (a b : value) {struct a} : {a = b} + {a ≠ b}.
Proof.
  destruct a as [| |x|x|x|xs|fs], b as [| |y|y|y|ys|gs];
    try (right; discriminate); try (left; reflexivity).
  - destruct (decide (x = y)) as [->|]; [by left|right; congruence].
  - destruct (decide (x = y)) as [->|]; [by left|right; congruence].
  - destruct (decide (x = y)) as [->|]; [by left|right; congruence].
  - assert ({xs = ys} + {xs ≠ ys}) as [->|]; [|by left|right; congruence].
    revert ys. induction xs as [|x xs IH]; intros [|y ys];
      try (right; discriminate); try (left; reflexivity).
    destruct (value_eq_dec x y) as [->|]; [|right; congruence].
    destruct (IH ys) as [->|]; [by left|right; congruence].
  - assert ({fs = gs} + {fs ≠ gs}) as [->|]; [|by left|right; congruence].
    revert gs. induction fs as [|[p x] fs IH]; intros [|[q y] gs];
      try (right; discriminate); try (left; reflexivity).
    destruct (decide (p = q)) as [->|]; [|right; congruence].
    destruct (value_eq_dec x y) as [->|]; [|right; congruence].
    destruct (IH gs) as [->|]; [by left|right; congruence].
Defined.

End Js.

(** ** astutil.js: the decoration pass and function labels *)

Module Astutil.
Import Js.

(** The input of [init] is what the parser and [buildProgram] produce: a
    tree of objects, none of them reachable along two paths, where a
    node has no [attr] yet, except the collection ([{}]) and each
    [Program] ([{filename}]).  [init] then visits every node once and
    decorates it on that visit.

    A function node as [root.attr.functions] holds it once [init] is
    done with it: the node itself and the attributes [init] stores in
    its [attr] object.  [attr.enclosingFunction] is a reference to the
    enclosing function node; that node got its id and its attributes
    before any node inside it was visited, and [init] does not touch it
    again.  [f_uid] stands for the identity of the node object (the
    [Map] of anonymous counters is keyed by it): the position at which
    the node was pushed on the registry.  [f_source] is a ghost field,
    the node as the parser produced it, before [init] assigned an id.

    The one object [init] makes reachable along two paths is a property
    key it assigns as id ([nd.id = parent.key]); it is an [Identifier],
    not a registry entry. *)
Local Unset Elimination Schemes.
Inductive func := Func {
  f_uid : nat;
  f_source : value;
  f_node : value;
  f_parent : value;
  f_childProp : value;
  f_anonIndex : option nat;
  f_enclosingFunction : option func;
  f_enclosingFile : value
}.
Local Set Elimination Schemes.

(** A call or construction site of [root.attr.calls]. *)
Record callsite := Callsite {
  c_node : value;
  c_enclosingFunction : option func;
  c_enclosingFile : value
}.

(** The variables [init] closes over. [anonCounters] is keyed by the
    enclosing function, or by ['global'] ([None]). *)
Record state := State {
  functions : list func;
  calls : list callsite;
  anonCounters : gmap (option nat) nat;
  enclosingFunction : option func;
  enclosingFile : value;
  console : list string
}.

Definition initial : state :=
  {| functions := []; calls := []; anonCounters := ∅;
     enclosingFunction := None; enclosingFile := VNull; console := [] |}.

Definition log (msg : string) (st : state) : state :=
  {| functions := functions st; calls := calls st; anonCounters := anonCounters st;
     enclosingFunction := enclosingFunction st; enclosingFile := enclosingFile st;
     console := console st ++ [msg] |}.

Definition setEnclosingFunction (e : option func) (st : state) : state :=
  {| functions := functions st; calls := calls st; anonCounters := anonCounters st;
     enclosingFunction := e; enclosingFile := enclosingFile st;
     console := console st |}.

Definition setEnclosingFile (v : value) (st : state) : state :=
  {| functions := functions st; calls := calls st; anonCounters := anonCounters st;
     enclosingFunction := enclosingFunction st; enclosingFile := v;
     console := console st |}.

Definition pushCall (nd : value) (st : state) : state :=
  {| functions := functions st;
     calls := calls st ++ [ {| c_node := nd;
                               c_enclosingFunction := enclosingFunction st;
                               c_enclosingFile :=
                                 if truthy (enclosingFile st) then enclosingFile st else VUndef |} ];
     anonCounters := anonCounters st;
     enclosingFunction := enclosingFunction st; enclosingFile := enclosingFile st;
     console := console st |}.

(** [getNextAnonIndex(encFunc)]: the key is [encFunc || 'global']. *)
Definition counterKey (e : option func) : option nat := f_uid <$> e.

Definition getNextAnonIndex (e : option func) (cs : gmap (option nat) nat)
  : nat * gmap (option nat) nat :=
  let key := counterKey e in
  let current := default 0 (cs !! key) in
  let next := current + 1 in
  (next, <[key := next]> cs).

(** The test [init] makes on the parent ("Check if parent provides a
    name"); [funcname] repeats it. *)
Definition hasParentName (parent : value) : bool :=
  if strictEqStr (get parent "type") "AssignmentExpression" then
    looseEqStr (get (get parent "left") "type") "Identifier"
  else if looseEqStr (get parent "type") "VariableDeclarator" then
    looseEqStr (get (get parent "id") "type") "Identifier"
  else false.

Definition willBeAnonymous (nd parent : value) : bool :=
  if isNull (get nd "id") then negb (hasParentName parent) else false.

Definition isFunctionType (nd : value) : bool :=
  strictEqStr (get nd "type") "FunctionDeclaration"
  || strictEqStr (get nd "type") "FunctionExpression"
  || strictEqStr (get nd "type") "ArrowFunctionExpression".

Definition isCallType (nd : value) : bool :=
  strictEqStr (get nd "type") "CallExpression"
  || strictEqStr (get nd "type") "NewExpression".

(** [p.match(/^(range|loc|attr|comments|raw)$/)] *)
Definition magic (p : string) : bool :=
  String.eqb p "range" || String.eqb p "loc" || String.eqb p "attr"
  || String.eqb p "comments" || String.eqb p "raw".

Definition setId (k : value) (nd : value) : value :=
  match nd with
  | VObj fs => VObj (assign_prop "id" k fs)
  | _ => nd
  end.

Definition warnPropertyKey : string :=
  "WARNING: unexpected key type of 'Property'.".
Definition warnComputed : string :=
  "WARNING: Computed property for method definition, not yet supported.".
Definition warnMethodLiteral : string :=
  "WARNING: invalid syntax, method name is of type Literal instead of Identifier.".
Definition warnMethodKey : string :=
  "WARNING: unexpected key type of 'MethodDefinition'.".

(** The identifier [init] builds for a literal property key. *)
Definition identifierOfLiteral (key : value) : value :=
  VObj [("type", VStr "Identifier"); ("name", get key "value");
        ("range", get key "range"); ("loc", get key "loc")].

(** What "Method Definition (Case 1)" decides for a node [nd] below
    [parent]: the id to assign, or a warning, or nothing. *)
Inductive naming :=
| NameKey (key : value)
| NameLiteral (key : value)
| NameWarn (msg : string)
| NameNone.

Definition propertyNaming (nd parent : value) : option naming :=
  if strictEqStr (get nd "type") "FunctionExpression" && truthy parent
     && strictEqStr (get parent "type") "Property" then
    if negb (truthy (get parent "computed")) then
      kt ← getx (get parent "key") "type";
      if strictEqStr kt "Identifier" then Some (NameKey (get parent "key"))
      else if strictEqStr kt "Literal" then Some (NameLiteral (get parent "key"))
      else Some (NameWarn warnPropertyKey)
    else Some (NameWarn warnComputed)
  else Some NameNone.

(** What "Method Definition (Case 2)" decides for a node [nd]:
    [nd.value.id = nd.key], or a warning, or nothing.  Assigning a
    property of [undefined] or [null] throws. *)
Definition methodNaming (nd : value) : option naming :=
  if strictEqStr (get nd "type") "MethodDefinition" then
    if negb (truthy (get nd "computed")) then
      kt ← getx (get nd "key") "type";
      if strictEqStr kt "Identifier" then
        match get nd "value" with
        | VUndef | VNull => None
        | _ => Some (NameKey (get nd "key"))
        end
      else if strictEqStr kt "Literal" then Some (NameWarn warnMethodLiteral)
      else Some (NameWarn warnMethodKey)
    else Some (NameWarn warnComputed)
  else Some NameNone.

(** *** The traversal

    [visit(root, visitor)] is a recursion over the object tree; [init]
    passes it a visitor that assigns [nd.id = parent.key] and
    [nd.value.id = nd.key] on the way.  The assigned key is then visited
    a second time, as the [id] of the function.  To keep the recursion
    structural, the frame that owns the key hands the visit of that key
    down to the child as a closure:

    - [visit_t] is [doVisit(x, ·, ·)] for a fixed node [x];
    - the pair [(k, visit k)] given to a child is a pending assignment
      [child.id = k];
    - [keyVisit] holds the visits of [parent.key] and of
      [parent.key.value] (the [name] of the identifier built for a
      literal key). *)

Definition visit_t : Type := value → value → state → option state.

(** [doVisit(undefined, ·, ·)] returns at once. *)
Definition skip : visit_t := λ _ _ st, Some st.

Record keyVisit := KeyVisit { kv_key : visit_t; kv_value : visit_t }.

(** Used where no key is ever asked for: the parent is not a [Property]
    (it is [undefined], an array or an [Identifier]), or the node
    visited is an [Identifier], not a [FunctionExpression]. *)
Definition noKey : keyVisit := {| kv_key := skip; kv_value := skip |}.

Definition assignment : Type := option (value * visit_t).

Definition register (source nd parent childProp : value) (st : state) : func * state :=
  let anon :=
    if willBeAnonymous nd parent
    then Some (getNextAnonIndex (enclosingFunction st) (anonCounters st))
    else None in
  let f := {| f_uid := length (functions st);
              f_source := source;
              f_node := nd;
              f_parent := parent;
              f_childProp := childProp;
              f_anonIndex := fst <$> anon;
              f_enclosingFunction := enclosingFunction st;
              f_enclosingFile :=
                if truthy (enclosingFile st) then enclosingFile st else VUndef |} in
  (f, {| functions := functions st ++ [f];
         calls := calls st;
         anonCounters := from_option snd (anonCounters st) anon;
         enclosingFunction := enclosingFunction st;
         enclosingFile := enclosingFile st;
         console := console st |}).

Section traversal.
(** [rec nd asg pk parent childProp] is [doVisit(nd, parent, childProp)]
    for a node [nd] with pending assignment [asg] to its [id]. *)
Variable rec : value → assignment → keyVisit → visit_t.

(** [doVisit(fs[p], ·, ·)] *)
Definition visitProp (p : string) : list (string * value) → visit_t :=
  fix go fs :=
    match fs with
    | [] => skip
    | (q, v) :: r => if String.eqb q p then rec v None noKey else go r
    end.

(** [doVisit(fs.key.value, ·, ·)] *)
Definition visitKeyValue : list (string * value) → visit_t :=
  fix go fs :=
    match fs with
    | [] => skip
    | (q, v) :: r =>
        if String.eqb q "key" then
          match v with VObj kfs => visitProp "value" kfs | _ => skip end
        else go r
    end.

(** [for (const p in nd) { if (magic) continue; doVisit(nd[p], nd, p); }]
    where [nd] (seen by the children as [ndv]) has properties [fs],
    with [id] replaced by a pending assignment [asg], and where the
    child [value] has the pending assignment [vasg]. *)
Definition visitFields (ndv : value) (asg vasg : assignment) (kvc : keyVisit)
  : list (string * value) → state → option state :=
  fix go fs st :=
    match fs with
    | [] => Some st
    | (p, v) :: r =>
        if magic p then go r st
        else
          st' ← (if String.eqb p "id" then
                   match asg with
                   | Some (_, visitId) => visitId ndv (VStr p) st
                   | None => rec v None kvc ndv (VStr p) st
                   end
                 else
                   rec v (if String.eqb p "value" then vasg else None) kvc ndv (VStr p) st);
          go r st'
    end.

(** The loop of [doVisit] on an object, including an [id] that the
    assignment added as last property. *)
Definition visitChildren (ndv : value) (asg vasg : assignment) (kvc : keyVisit)
    (fs : list (string * value)) (st : state) : option state :=
  st' ← visitFields ndv asg vasg kvc fs st;
  match asg with
  | Some (_, visitId) =>
      if has_prop "id" fs then Some st' else visitId ndv (VStr "id") st'
  | None => Some st'
  end.

(** The loop of [doVisit] on an array. *)
Definition visitElements (arr : value) : nat → list value → state → option state :=
  fix go i xs st :=
    match xs with
    | [] => Some st
    | x :: r =>
        st' ← rec x None noKey arr (VStr (string_of_nat i)) st;
        go (S i) r st'
    end.

Definition visitArray (xs : list value) (asg : assignment) (st : state) : option state :=
  st' ← visitElements (VArr xs) 0 xs st;
  match asg with
  | Some (_, visitId) => visitId (VArr xs) (VStr "id") st'
  | None => Some st'
  end.

(** [doVisit] on an object: the visitor of [init], then the loop. *)
Definition visitObject (fs : list (string * value)) (asg : assignment) (pk : keyVisit)
  : visit_t := λ parent childProp st,
  let nd0 := match asg with Some (k, _) => VObj (assign_prop "id" k fs) | None => VObj fs end in
  let kvc := {| kv_key := visitProp "key" fs; kv_value := visitKeyValue fs |} in
  let visitId0 := match asg with Some (_, visitId) => visitId | None => visitProp "id" fs end in
  if truthy (get nd0 "type") then
    let st :=
      if strictEqStr (get nd0 "type") "Program"
      then setEnclosingFile (get (get nd0 "attr") "filename") st else st in
    pn ← propertyNaming nd0 parent;
    let '(nd1, visitId, st) :=
      match pn with
      | NameKey k => (setId k nd0, kv_key pk, st)
      | NameLiteral k =>
          let ident := identifierOfLiteral k in
          (setId ident nd0, (λ _ _, kv_value pk ident (VStr "name")) : visit_t, st)
      | NameWarn msg => (nd0, visitId0, log msg st)
      | NameNone => (nd0, visitId0, st)
      end in
    if isFunctionType nd1 then
      let old_enclosingFunction := enclosingFunction st in
      let '(f, st) := register (VObj fs) nd1 parent childProp st in
      let st := setEnclosingFunction (Some f) st in
      st ← visitId VUndef VUndef st;
      st ← visitProp "params" fs VUndef VUndef st;
      st ← visitProp "body" fs VUndef VUndef st;
      Some (setEnclosingFunction old_enclosingFunction st)
    else
      mn ← methodNaming nd1;
      let '(ndv, vasg, st) :=
        match mn with
        | NameKey k =>
            (match nd1 with
             | VObj fs1 => VObj (assign_prop "value" (setId k (get nd1 "value")) fs1)
             | _ => nd1
             end,
             Some (k, visitProp "key" fs), st)
        | NameLiteral _ | NameNone => (nd1, None, st)
        | NameWarn msg => (nd1, None, log msg st)
        end in
      let st := if isCallType nd1 then pushCall ndv st else st in
      visitChildren ndv asg vasg kvc fs st
  else
    visitChildren nd0 asg None kvc fs st.
End traversal.

Fixpoint doVisit (nd : value) (asg : assignment) (pk : keyVisit)
    (parent childProp : value) (st : state) {struct nd} : option state :=
  match nd with
  | VObj fs => visitObject doVisit fs asg pk parent childProp st
  | VArr xs => visitArray doVisit xs asg st
  | _ => Some st
  end.

(** [init(root)].  [root.attr.functions = []] throws when [root.attr] is
    [undefined] or [null]; when it is a primitive the two registries are
    never created and the first [push] throws. *)
Definition init (root : value) : option state :=
  match get root "attr" with
  | VUndef | VNull => None
  | VObj _ | VArr _ => doVisit root None noKey VUndef VUndef initial
  | _ =>
      st ← doVisit root None noKey VUndef VUndef initial;
      match functions st, calls st with
      | [], [] => Some st
      | _, _ => None
      end
  end.

(** *** Labels *)

Definition anonLabel (parentName : value) (i : nat) : value :=
  VStr (toString parentName +:+ ":anon[" +:+ string_of_nat i +:+ "]").

(** [funcname(func)] and [encFuncName(encFunc)], for a function node of
    the registry ([func !== undefined]).  [func.id.name] throws when
    [func.id] is [undefined]. *)
Fixpoint funcname (func : func) : option value :=
  let id := get (f_node func) "id" in
  if isNull id then
    let parent := f_parent func in
    let anonymous :=
      match f_anonIndex func with
      | Some i =>
          parentName ← match f_enclosingFunction func with
                       | None => Some (VStr "global")
                       | Some encFunc => funcname encFunc
                       end;
          Some (anonLabel parentName i)
      | None => Some (VStr "anon")
      end in
    if strictEqStr (get parent "type") "AssignmentExpression" then
      if looseEqStr (get (get parent "left") "type") "Identifier"
      then Some (get (get parent "left") "name")
      else anonymous
    else if looseEqStr (get parent "type") "VariableDeclarator" then
      if looseEqStr (get (get parent "id") "type") "Identifier"
      then Some (get (get parent "id") "name")
      else anonymous
    else anonymous
  else getx id "name".

Definition encFuncName (encFunc : option func) : option value :=
  match encFunc with
  | None => Some (VStr "global")
  | Some f => funcname f
  end.

(** *** Vocabulary for the statements about [init] *)

(** The key that a [MethodDefinition] parent assigns to the [id] of its
    [value]. *)
Definition keyOfMethod (parent : value) : option value :=
  if strictEqStr (get parent "type") "MethodDefinition"
     && negb (truthy (get parent "computed"))
     && strictEqStr (get (get parent "key") "type") "Identifier"
  then Some (get parent "key") else None.

Definition pendingId (parent childProp : value) : option value :=
  if strictEqStr childProp "value" then keyOfMethod parent else None.

(** The warning a [MethodDefinition] gives for what it cannot name. *)
Definition methodWarning (parent : value) : option string :=
  if strictEqStr (get parent "type") "MethodDefinition" then
    if truthy (get parent "computed") then Some warnComputed
    else if strictEqStr (get (get parent "key") "type") "Identifier" then None
    else if strictEqStr (get (get parent "key") "type") "Literal" then Some warnMethodLiteral
    else Some warnMethodKey
  else None.

(** How the node on the registry relates to the node of the parser. *)
Definition named (out : list string) (f : func) : Prop :=
  let parent := f_parent f in
  let key := get parent "key" in
  (strictEqStr (get (f_source f) "type") "FunctionExpression" = true →
   strictEqStr (get parent "type") "Property" = true →
   if truthy (get parent "computed") then
     f_node f = f_source f ∧ warnComputed ∈ out
   else if strictEqStr (get key "type") "Identifier" then
     f_node f = setId key (f_source f)
   else if strictEqStr (get key "type") "Literal" then
     f_node f = setId (identifierOfLiteral key) (f_source f)
   else f_node f = f_source f ∧ warnPropertyKey ∈ out)
  ∧
  (strictEqStr (get parent "type") "MethodDefinition" = true →
   f_childProp f = VStr "value" →
   if truthy (get parent "computed") then
     f_node f = f_source f ∧ warnComputed ∈ out
   else if strictEqStr (get key "type") "Identifier" then
     f_node f = setId key (f_source f)
   else if strictEqStr (get key "type") "Literal" then
     f_node f = f_source f ∧ warnMethodLiteral ∈ out
   else f_node f = f_source f ∧ warnMethodKey ∈ out).

Definition registered (fs : list func) (e : option func) : Prop :=
  ∀ f, e = Some f → fs !! f_uid f = Some f.

(** The elementary updates of the state that [init] performs. *)
Inductive step : state → state → Prop :=
| step_log msg st : step st (log msg st)
| step_file v st : step st (setEnclosingFile v st)
| step_function e st :
    registered (functions st) e → step st (setEnclosingFunction e st)
| step_call nd st : step st (pushCall nd st)
| step_register source nd parent childProp st :
    named (console st) (register source nd parent childProp st).1 →
    step st (register source nd parent childProp st).2.

Definition steps : state → state → Prop := rtc step.

(** The indices handed out below the enclosing function of key [k], in
    registry order. *)
Definition encKey (f : func) : option nat := counterKey (f_enclosingFunction f).

Definition anonIndices (k : option nat) (fs : list func) : list nat :=
  omap f_anonIndex (filter (λ f, encKey f = k) fs).

Record invariant (st : state) : Prop := {
  inv_uid : ∀ i f, functions st !! i = Some f → f_uid f = i;
  inv_counters : ∀ k, anonIndices k (functions st) = seq 1 (default 0 (anonCounters st !! k));
  inv_anon : ∀ f, f ∈ functions st →
             if willBeAnonymous (f_node f) (f_parent f)
             then is_Some (f_anonIndex f) else f_anonIndex f = None;
  inv_named : ∀ f, f ∈ functions st → named (console st) f;
  inv_enclosing : registered (functions st) (enclosingFunction st);
  inv_enclosed : ∀ f, f ∈ functions st → registered (functions st) (f_enclosingFunction f);
  inv_order : ∀ f e, f ∈ functions st → f_enclosingFunction f = Some e → f_uid e < f_uid f
}.

Record pre (asg : assignment) (parent childProp : value) (st : state) : Prop := {
  pre_pending : fst <$> asg = pendingId parent childProp;
  pre_warned : ∀ msg, methodWarning parent = Some msg → msg ∈ console st;
  pre_enclosing : registered (functions st) (enclosingFunction st)
}.

Definition post (st st' : state) : Prop :=
  steps st st' ∧ enclosingFunction st' = enclosingFunction st.

Definition good (c : visit_t) : Prop :=
  ∀ parent childProp st st',
    pre None parent childProp st → c parent childProp st = Some st' → post st st'.

Definition good_assignment (asg : assignment) : Prop :=
  ∀ k c, asg = Some (k, c) → good c.

Definition good_node (nd : value) : Prop :=
  ∀ asg pk parent childProp st st',
    good_assignment asg → good (kv_key pk) → good (kv_value pk) →
    pre asg parent childProp st →
    doVisit nd asg pk parent childProp st = Some st' → post st st'.

Definition good_children (nd : value) : Prop :=
  match nd with
  | VObj fs => Forall (λ pv, good_node pv.2) fs
  | VArr xs => Forall good_node xs
  | _ => True
  end.

(** The node that [visitObject] registers, as a function of the
    pending assignment and of the outcome of the property naming. *)
Definition pendingNode (asg : assignment) (fs : list (string * value)) : value :=
  match asg with Some (k, _) => VObj (assign_prop "id" k fs) | None => VObj fs end.

Definition namedNode (pn : naming) (nd0 : value) : value :=
  match pn with
  | NameKey k => setId k nd0
  | NameLiteral k => setId (identifierOfLiteral k) nd0
  | NameWarn _ | NameNone => nd0
  end.

Definition namingOutput (pn : naming) (out : list string) : list string :=
  match pn with NameWarn msg => out ++ [msg] | _ => out end.

(** What the loop over the children of [ndv] relies on. *)
Definition ready (ndv : value) (st : state) : Prop :=
  (∀ msg, methodWarning ndv = Some msg → msg ∈ console st)
  ∧ registered (functions st) (enclosingFunction st).

(** *** File names and positions *)

Definition slash : Ascii.ascii := Ascii.ascii_of_nat 47.
Definition at_sign : Ascii.ascii := Ascii.ascii_of_nat 64.
Definition colon : Ascii.ascii := Ascii.ascii_of_nat 58.
Definition dash : Ascii.ascii := Ascii.ascii_of_nat 45.
Definition backslash : Ascii.ascii := Ascii.ascii_of_nat 92.

(** [s.lastIndexOf(c)] for a one-character [c]: the position of the
    last occurrence of [c] in [s], or -1. *)
Fixpoint lastIndexOf (c : Ascii.ascii) (s : string) : Z :=
  match s with
  | EmptyString => (-1)%Z
  | String a r =>
      let i := lastIndexOf c r in
      if (i =? -1)%Z then (if Ascii.eqb a c then 0%Z else (-1)%Z) else (i + 1)%Z
  end.

(** [s.substring(n)], from position [n] to the end. *)
Fixpoint substringFrom (n : nat) (s : string) : string :=
  match n, s with
  | S n, String _ r => substringFrom n r
  | _, _ => s
  end.

(** [basename(filename)].  On a value that is neither falsy nor a
    string, [lastIndexOf] or [substring] is not a function. *)
Definition basename (filename : value) : option string :=
  if negb (truthy filename) then Some "<???>"
  else
    match filename with
    | VStr s =>
        let idx := lastIndexOf slash s in
        let idx := if (idx =? -1)%Z then lastIndexOf backslash s else idx in
        Some (substringFrom (Z.to_nat (idx + 1)) s)
    | _ => None
    end.

(** [v[i]] *)
Definition index (v : value) (i : nat) : option value :=
  match v with
  | VUndef | VNull => None
  | VArr xs => Some (default VUndef (xs !! i))
  | VObj fs => Some (lookup_prop (string_of_nat i) fs)
  | VStr s => Some (from_option (λ c, VStr (String c EmptyString)) VUndef (String.get i s))
  | VBool _ | VNum _ => Some VUndef
  end.

(** [ppPos(nd)] *)
Definition ppPos (nd : value) : option string :=
  attr ← getx nd "attr";
  file ← getx attr "enclosingFile";
  base ← basename file;
  start ← getx (get nd "loc") "start";
  line ← getx start "line";
  from ← index (get nd "range") 0;
  to ← index (get nd "range") 1;
  Some (base +:+ "@" +:+ toString line +:+ ":" +:+ toString from +:+ "-" +:+ toString to).

(** *** Predicates on nodes *)

(** [isFunction(nd)] *)
Definition isFunction (nd : value) : option bool :=
  type ← getx nd "type";
  Some (strictEqStr type "FunctionDeclaration"
        || strictEqStr type "FunctionExpression"
        || strictEqStr type "ArrowFunctionExpression").

(** [isCallTo(nd, fn_name)] *)
Definition isCallTo (nd : value) (fn_name : string) : option bool :=
  type ← getx nd "type";
  if negb (strictEqStr type "CallExpression") then Some false
  else
    let callee := get nd "callee" in
    calleeType ← getx callee "type";
    if negb (strictEqStr calleeType "Identifier") then Some false
    else Some (strictEqStr (get callee "name") fn_name).

(** [isModuleExports(nd)] *)
Definition isModuleExports (nd : value) : option bool :=
  type ← getx nd "type";
  if negb (strictEqStr type "AssignmentExpression") then Some false
  else
    let left := get nd "left" in
    leftType ← getx left "type";
    if negb (strictEqStr leftType "MemberExpression") then Some false
    else
      let object := get left "object" in
      let property := get left "property" in
      objectType ← getx object "type";
      if negb (strictEqStr objectType "Identifier") then Some false
      else
        propertyType ← getx property "type";
        if negb (strictEqStr propertyType "Identifier") then Some false
        else Some (strictEqStr (get object "name") "module"
                   && strictEqStr (get property "name") "exports").

(** [isAnon(funcName)] *)
Definition isAnon (funcName : value) : bool := strictEqStr funcName "anon".

(** *** Vocabulary for the statements about names and positions *)

(** [c] occurs in [s]. *)
Fixpoint occurs (c : Ascii.ascii) (s : string) : bool :=
  match s with
  | EmptyString => false
  | String a r => Ascii.eqb a c || occurs c r
  end.

(** A node with a line and a range of offsets, as the parser gives
    them. *)
Definition located (nd : value) (line from to : Z) : Prop :=
  get (get (get nd "loc") "start") "line" = VNum line
  ∧ index (get nd "range") 0 = Some (VNum from)
  ∧ index (get nd "range") 1 = Some (VNum to)
  ∧ (0 ≤ line)%Z ∧ (0 ≤ from)%Z ∧ (0 ≤ to)%Z.

(** [nd[p] = v] on a node. *)
Definition setProp (p : string) (v : value) (nd : value) : value :=
  match nd with
  | VObj fs => VObj (assign_prop p v fs)
  | _ => nd
  end.

Definition bracket : Ascii.ascii := Ascii.ascii_of_nat 91.

(** *** The registry as a listing of the tree *)

(** What [attr.enclosingFile] holds on a node decorated while the
    variable [enclosingFile] is [file]. *)
Definition fileAttr (file : value) : value := if truthy file then file else VUndef.

(** A registry entry without its ids and counters: the function node
    as parsed, the node of the enclosing function, the file. *)
Record entry := Entry {
  e_source : value;
  e_enclosing : option value;
  e_file : value
}.

Definition summary (f : func) : entry :=
  {| e_source := f_source f;
     e_enclosing := f_source <$> f_enclosingFunction f;
     e_file := f_enclosingFile f |}.

Section listing.
(** [rec nd enc file]: the entries for the functions of [nd], met
    below the function [enc] while the current file is [file], and the
    current file afterwards. *)
Variable rec : value → option value → value → list entry * value.

Definition listProp (p : string) : list (string * value) → option value → value → list entry * value :=
  fix go fs :=
    match fs with
    | [] => λ _ file, ([], file)
    | (q, v) :: r => if String.eqb q p then rec v else go r
    end.

Definition listFields (enc : option value) : list (string * value) → value → list entry * value :=
  fix go fs file :=
    match fs with
    | [] => ([], file)
    | (p, v) :: r =>
        if magic p then go r file
        else
          let '(here, file) := rec v enc file in
          let '(rest, file) := go r file in
          (here ++ rest, file)
    end.

Definition listElements (enc : option value) : list value → value → list entry * value :=
  fix go xs file :=
    match xs with
    | [] => ([], file)
    | x :: r =>
        let '(here, file) := rec x enc file in
        let '(rest, file) := go r file in
        (here ++ rest, file)
    end.

Definition listObject (fs : list (string * value)) (enc : option value) (file : value)
  : list entry * value :=
  let nd := VObj fs in
  let file := if strictEqStr (get nd "type") "Program"
              then get (get nd "attr") "filename" else file in
  if isFunctionType nd then
    let '(ids, file1) := listProp "id" fs (Some nd) file in
    let '(params, file2) := listProp "params" fs (Some nd) file1 in
    let '(body, file3) := listProp "body" fs (Some nd) file2 in
    ({| e_source := nd; e_enclosing := enc; e_file := fileAttr file |}
       :: ids ++ params ++ body, file3)
  else listFields enc fs file.
End listing.

(** The functions of a tree in the order of a pre-order walk that
    leaves out the magic properties and, below a function, everything
    but id, params and body; each with the innermost function around it
    and the file name of the last [Program] entered before it. *)
Fixpoint listing (nd : value) (enc : option value) (file : value) {struct nd}
  : list entry * value :=
  match nd with
  | VObj fs => listObject listing fs enc file
  | VArr xs => listElements listing enc xs file
  | _ => ([], file)
  end.

Section shape.
Variable rec : value → bool.

Definition allFields : list (string * value) → bool :=
  fix go fs :=
    match fs with
    | [] => true
    | (p, v) :: r => (magic p || rec v) && go r
    end.

Definition allElements : list value → bool :=
  fix go xs :=
    match xs with
    | [] => true
    | x :: r => rec x && go r
    end.
End shape.

(** A subtree that gives [init] nothing to do: no function, no call, no
    [Program], no [MethodDefinition] in it. *)
Fixpoint inert (nd : value) : bool :=
  match nd with
  | VObj fs =>
      negb (isFunctionType nd) && negb (isCallType nd)
      && negb (strictEqStr (get nd "type") "Program")
      && negb (strictEqStr (get nd "type") "MethodDefinition")
      && allFields inert fs
  | VArr xs => allElements inert xs
  | _ => true
  end.

(** The property names of an object are distinct. *)
Fixpoint distinctKeys (fs : list (string * value)) : bool :=
  match fs with
  | [] => true
  | (p, _) :: r => negb (has_prop p r) && distinctKeys r
  end.

(** What [init] expects of the trees the parser hands over: the id of a
    function, a key that is not computed and the id of the value of a
    method are leaves for [init] (identifiers and literals are), and an
    object has no two properties of the same name. *)
Fixpoint tidy (nd : value) : bool :=
  match nd with
  | VObj fs =>
      distinctKeys fs
      && (if isFunctionType nd then inert (get nd "id") else true)
      && (if truthy (get nd "computed") then true else inert (get nd "key"))
      && (if strictEqStr (get nd "type") "MethodDefinition"
          then inert (get (get nd "value") "id") else true)
      && allFields tidy fs
  | VArr xs => allElements tidy xs
  | _ => true
  end.

(** A visit that leaves the state as it is. *)
Definition idle (c : visit_t) : Prop :=
  ∀ parent childProp st st', c parent childProp st = Some st' → st' = st.

Definition idleNode (nd : value) : Prop :=
  ∀ pk parent childProp st st',
    doVisit nd None pk parent childProp st = Some st' → st' = st.

(** What a visit of [nd] from [st] adds to the registry. *)
Definition lists (out : list entry * value) (st st' : state) : Prop :=
  enclosingFunction st' = enclosingFunction st
  ∧ enclosingFile st' = out.2
  ∧ ∃ new, functions st' = functions st ++ new ∧ summary <$> new = out.1.

Definition encOf (st : state) : option value := f_source <$> enclosingFunction st.

Definition idleAssignment (asg : assignment) (nd : value) : Prop :=
  ∀ k c, asg = Some (k, c) → idle c ∧ inert (get nd "id") = true.

Definition idleKeys (pk : keyVisit) (parent : value) : Prop :=
  truthy (get parent "computed") = false → idle (kv_key pk) ∧ idle (kv_value pk).

Definition listed (nd : value) : Prop :=
  ∀ asg pk parent childProp st st',
    tidy nd = true → idleAssignment asg nd → idleKeys pk parent →
    doVisit nd asg pk parent childProp st = Some st' →
    lists (listing nd (encOf st) (enclosingFile st)) st st'.

(** No [Program] below: the tree of one source file. *)
Fixpoint programFree (nd : value) : bool :=
  match nd with
  | VObj fs => negb (strictEqStr (get nd "type") "Program") && allFields programFree fs
  | VArr xs => allElements programFree xs
  | _ => true
  end.

(** A [Program] as the parser gives it. *)
Definition program (prog : value) : Prop :=
  ∃ fs, prog = VObj fs
        ∧ strictEqStr (get prog "type") "Program" = true
        ∧ tidy prog = true
        ∧ allFields programFree fs = true.

(** *** The indices, scope by scope *)

(** Registry entries compare structurally. *)
Fixpoint func_eq_dec (a b : func) {struct a} : {a = b} + {a ≠ b}.
Proof.
  destruct a as [u s n p c i e fl], b as [u' s' n' p' c' i' e' fl'].
  destruct (decide (u = u')) as [->|]; [|right; congruence].
  destruct (value_eq_dec s s') as [->|]; [|right; congruence].
  destruct (value_eq_dec n n') as [->|]; [|right; congruence].
  destruct (value_eq_dec p p') as [->|]; [|right; congruence].
  destruct (value_eq_dec c c') as [->|]; [|right; congruence].
  destruct (decide (i = i')) as [->|]; [|right; congruence].
  destruct (value_eq_dec fl fl') as [->|]; [|right; congruence].
  destruct e as [e|], e' as [e'|]; try (right; discriminate); try (left; reflexivity).
  destruct (func_eq_dec e e') as [->|]; [by left|right; congruence].
Defined.

#[local] Instance func_eq_decision : EqDecision func := func_eq_dec.


(** *** The console as a listing of the tree *)

(** What [init] prints when it meets [nd] below [parent] and [nd] is a
    function expression: a warning when [parent] is a [Property] whose
    key is computed or neither an [Identifier] nor a [Literal];
    otherwise nothing. *)
Definition keyWarning (nd parent : value) : list string :=
  if strictEqStr (get nd "type") "FunctionExpression" && truthy parent
     && strictEqStr (get parent "type") "Property" then
    if truthy (get parent "computed") then [warnComputed]
    else if strictEqStr (get (get parent "key") "type") "Identifier" then []
    else if strictEqStr (get (get parent "key") "type") "Literal" then []
    else [warnPropertyKey]
  else [].

Definition methodWarnings (nd : value) : list string :=
  match methodWarning nd with Some msg => [msg] | None => [] end.

Section warnings.
(** [rec nd parent]: the warnings for [nd] met below [parent]. *)
Variable rec : value → value → list string.

Definition warnProp (p : string) : list (string * value) → value → list string :=
  fix go fs :=
    match fs with
    | [] => λ _, []
    | (q, v) :: r => if String.eqb q p then rec v else go r
    end.

Definition warnFields (parent : value) : list (string * value) → list string :=
  fix go fs :=
    match fs with
    | [] => []
    | (p, v) :: r => if magic p then go r else rec v parent ++ go r
    end.

Definition warnElements (parent : value) : list value → list string :=
  fix go xs :=
    match xs with
    | [] => []
    | x :: r => rec x parent ++ go r
    end.

Definition warnObject (fs : list (string * value)) (parent : value) : list string :=
  let nd := VObj fs in
  keyWarning nd parent
  ++ (if isFunctionType nd then
        warnProp "id" fs VUndef ++ warnProp "params" fs VUndef ++ warnProp "body" fs VUndef
      else methodWarnings nd ++ warnFields nd fs).
End warnings.

(** The warnings of a tree in the order of a pre-order walk that
    leaves out the magic properties and, below a function, everything
    but id, params and body: one for a function expression below a
    [Property] that cannot name it, one for a [MethodDefinition] that
    cannot name its value. *)
Fixpoint warnings (nd parent : value) {struct nd} : list string :=
  match nd with
  | VObj fs => warnObject warnings fs parent
  | VArr xs => warnElements warnings nd xs
  | _ => []
  end.

(** What [keyWarning] reads of the parent. *)
Definition sameContext (parent parent' : value) : Prop :=
  truthy parent = truthy parent'
  ∧ get parent "type" = get parent' "type"
  ∧ get parent "computed" = get parent' "computed"
  ∧ get parent "key" = get parent' "key".

Definition printed (nd : value) : Prop :=
  ∀ asg pk parent childProp st st',
    tidy nd = true → idleAssignment asg nd → idleKeys pk parent →
    doVisit nd asg pk parent childProp st = Some st' →
    console st' = console st ++ warnings nd parent.

(** *** Sample programs, as the parser hands them over *)

Module Sample.

Definition node (type : string) (fs : list (string * value)) : value :=
  VObj (("type", VStr type) :: fs).

Definition range (a b : Z) : string * value := ("range", VArr [VNum a; VNum b]).

Definition ident (name : string) (a b : Z) : value :=
  node "Identifier" [("name", VStr name); range a b].

Definition block (body : list value) (a b : Z) : value :=
  node "BlockStatement" [("body", VArr body); range a b].

Definition functionExpression (id : value) (body : list value) (a b : Z) : value :=
  node "FunctionExpression"
    [("id", id); ("params", VArr []); ("body", block body a b); range a b].

Definition arrow (body : list value) (a b : Z) : value :=
  node "ArrowFunctionExpression"
    [("id", VNull); ("params", VArr []); ("body", block body a b); range a b].

Definition call (callee : value) (args : list value) (a b : Z) : value :=
  node "CallExpression" [("callee", callee); ("arguments", VArr args); range a b].

Definition statement (e : value) : value :=
  node "ExpressionStatement" [("expression", e)].

Definition program (filename : string) (body : list value) : value :=
  node "Program" [("body", VArr body); ("attr", VObj [("filename", VStr filename)])].

Definition collection (programs : list value) : value :=
  node "ProgramCollection" [("programs", VArr programs); ("attr", VObj [])].

(** [setTimeout(function(){}, 10);] *)
Definition singleCallback : value :=
  collection [program "a.js"
    [statement (call (ident "setTimeout" 0 10)
                  [functionExpression VNull [] 11 23;
                   node "Literal" [("value", VNum 10); ("raw", VStr "10")]] 0 28)]].

(** [processData(function(){}, () => {});] *)
Definition twoCallbacks : value :=
  collection [program "a.js"
    [statement (call (ident "processData" 0 11)
                  [functionExpression VNull [] 12 24; arrow [] 26 34] 0 35)]].

(** [exports.x = function(){};] *)
Definition exportsAssignment : value :=
  collection [program "a.js"
    [statement (node "AssignmentExpression"
       [("operator", VStr "=");
        ("left", node "MemberExpression"
                   [("object", ident "exports" 0 7); ("property", ident "x" 8 9);
                    ("computed", VBool false)]);
        ("right", functionExpression VNull [] 12 24)])]].

(** [x = function(){}; var y = () => {}; (function(){ (function(){})(); })();] *)
Definition namedAndAnonymous : value :=
  collection [program "a.js"
    [statement (node "AssignmentExpression"
       [("operator", VStr "="); ("left", ident "x" 0 1);
        ("right", functionExpression VNull [] 4 16)]);
     node "VariableDeclaration"
       [("declarations", VArr [node "VariableDeclarator"
            [("id", ident "y" 22 23); ("init", arrow [] 26 34)]]);
        ("kind", VStr "var")];
     statement (call (functionExpression VNull
                        [statement (call (functionExpression VNull [] 50 62) [] 49 65)]
                        37 68) [] 36 71)]].

Definition literal (v : value) (a b : Z) : value :=
  node "Literal" [("value", v); range a b].

Definition property (key val : value) (computed : bool) : value :=
  node "Property"
    [("key", key); ("value", val); ("computed", VBool computed);
     ("kind", VStr "init"); ("method", VBool false); ("shorthand", VBool false)].

Definition methodDefinition (key val : value) (computed : bool) : value :=
  node "MethodDefinition"
    [("key", key); ("value", val); ("computed", VBool computed);
     ("kind", VStr "method"); ("static", VBool false)].

Definition class (name : string) (members : list value) : value :=
  node "ClassDeclaration"
    [("id", ident name 6 7); ("body", node "ClassBody" [("body", VArr members)]);
     ("superClass", VNull)].

(** [({foo: function(){}, "foo-bar": function(){}, [e]: function(){}});] *)
Definition objectLiteral : value :=
  collection [program "a.js"
    [statement (node "ObjectExpression"
       [("properties", VArr
           [property (ident "foo" 2 5) (functionExpression VNull [] 7 19) false;
            property (literal (VStr "foo-bar") 21 30) (functionExpression VNull [] 32 44) false;
            property (ident "e" 47 48) (functionExpression VNull [] 51 63) true])])]].

(** [class A { m() {} "foo"() {} [e]() {} }] *)
Definition classMethods : value :=
  collection [program "a.js"
    [class "A"
       [methodDefinition (ident "m" 10 11) (functionExpression VNull [] 11 16) false;
        methodDefinition (literal (VStr "foo") 17 22) (functionExpression VNull [] 22 27) false;
        methodDefinition (ident "e" 29 30) (functionExpression VNull [] 31 36) true]]].

Definition positioned : value :=
  VObj [("type", VStr "CallExpression");
        ("loc", VObj [("start", VObj [("line", VNum 3); ("column", VNum 2)])]);
        ("range", VArr [VNum 40; VNum 52]);
        ("attr", VObj [("enclosingFile", VStr "src/lib/a.js")])].



End Sample.

End Astutil.
(** ** astutil.js: [visit] over the object store

    After [init], every node carries an [attr] object that points back
    into the tree ([attr.parent], [attr.enclosingFunction]); later
    passes add more.  The decorated AST is a cyclic object graph, and
    [visit] runs on it.  Here objects live in a store and properties
    hold primitives or references. *)

Module Store.

Inductive prim :=
| PUndef
| PNull
| PBool (b : bool)
| PNum (n : Z)
| PStr (s : string).

Definition loc := nat.

Inductive val :=
| Prim (p : prim)
| Ref (l : loc).

(** Own enumerable properties, in [for-in] order; an array has its
    indices as property names. *)
Definition object : Type := list (string * val).

Definition store : Type := gmap loc object.

Definition truthy (v : val) : bool :=
  match v with
  | Prim PUndef | Prim PNull => false
  | Prim (PBool b) => b
  | Prim (PNum n) => negb (n =? 0)%Z
  | Prim (PStr s) => negb (String.eqb s "")
  | Ref _ => true
  end.

Fixpoint prop (p : string) (o : object) : val :=
  match o with
  | [] => Prim PUndef
  | (q, v) :: r => if String.eqb q p then v else prop p r
  end.

(** What a visitor does besides updating its own state: fall through to
    the loop of [doVisit], or call [doVisit(nd[p])] itself for some
    properties, update its state and return [false] (as the visitor of
    [init] does on a function: id, params, body). *)
Inductive reply (S : Type) :=
| Descend
| Prune (ps : list string) (leave : S → S).
Arguments Descend {S}.
Arguments Prune {S} ps leave.

(** A path of property names from the root; the log of a run lists the
    path of every object [doVisit] entered. *)
Definition path : Type := list string.

(** *** Vocabulary for the statements about [visit] *)

Definition plain (p : string) : Prop := Astutil.magic p = false.

(** The paths logged below [here]: through one of the properties [ks],
    and through no magic property. *)
Definition below (here : path) (ks : list string) (x : path) : Prop :=
  ∃ p rest, x = here ++ p :: rest ∧ p ∈ ks ∧ plain p ∧ Forall plain rest.

Definition within (here : path) (x : path) : Prop :=
  ∃ rest, x = here ++ rest ∧ Forall plain rest.

Section visit.
Context {S : Type}.
Variable visitor : S → loc → option loc → option string → S * reply S.
Variable h : store.

Section loops.
(** [rec here nd parent childProp] is [doVisit(nd, parent, childProp)]
    for the object found at path [here]. *)
Variable rec : path → val → option loc → option string → S * list path → option (S * list path).

(** [for (const p in nd) { if (magic) continue; doVisit(nd[p], nd, p); }] *)
Definition visitProperties (here : path) (l : loc)
  : object → S * list path → option (S * list path) :=
  fix loop ps st :=
    match ps with
    | [] => Some st
    | (p, v) :: r =>
        if Astutil.magic p then loop r st
        else
          st' ← rec (here ++ [p]) v (Some l) (Some p) st;
          loop r st'
    end.

(** The calls [doVisit(nd[p])] a visitor makes itself. *)
Definition visitOwn (here : path) (o : object)
  : list string → S * list path → option (S * list path) :=
  fix own ps st :=
    match ps with
    | [] => Some st
    | p :: r =>
        st' ← rec (here ++ [p]) (prop p o) None None st;
        own r st'
    end.
End loops.

(** [doVisit(nd, parent, childProp)], with the depth of the recursion
    bounded by [fuel]; [None] is "out of fuel". *)
Fixpoint doVisit (fuel : nat) (here : path) (nd : val)
    (parent : option loc) (childProp : option string)
    (st : S * list path) : option (S * list path) :=
  match nd with
  | Prim _ => Some st
  | Ref l =>
      match fuel with
      | 0 => None
      | Datatypes.S fuel =>
          match h !! l with
          | None => Some st
          | Some o =>
              let log := st.2 ++ [here] in
              if truthy (prop "type" o) then
                match visitor st.1 l parent childProp with
                | (s, Descend) => visitProperties (doVisit fuel) here l o (s, log)
                | (s, Prune ps leave) =>
                    st' ← visitOwn (doVisit fuel) here o ps (s, log);
                    Some (leave st'.1, st'.2)
                end
              else visitProperties (doVisit fuel) here l o (st.1, log)
          end
      end
  end.

(** A run from [nd] at [here] succeeds and logs new, distinct paths
    within [here]. *)
Definition runs (fuel : nat) (nd : val) : Prop :=
  ∀ here parent childProp s log,
    ∃ s' new, doVisit fuel here nd parent childProp (s, log) = Some (s', log ++ new)
              ∧ NoDup new ∧ ∀ x, x ∈ new → within here x.

Definition visit (fuel : nat) (root : loc) (s : S) : option (S * list path) :=
  doVisit fuel [] (Ref root) None None (s, []).

(** The AST proper: what is reachable from [nd] without crossing a
    magic property is at most [n] objects deep, and its objects have
    distinct property names (as every object has).  Nothing is asked of
    what [range], [loc], [attr], [comments] and [raw] hold. *)
Fixpoint distinct (ks : list string) : bool :=
  match ks with
  | [] => true
  | k :: r => negb (existsb (String.eqb k) r) && distinct r
  end.

Fixpoint astUpTo (n : nat) (nd : val) : bool :=
  match nd with
  | Prim _ => true
  | Ref l =>
      match n with
      | 0 => false
      | Datatypes.S n =>
          match h !! l with
          | None => true
          | Some o =>
              distinct (map fst o)
              && forallb (λ pv, Astutil.magic pv.1 || astUpTo n pv.2) o
          end
      end
  end.

(** A visitor keeps to the AST when the properties it visits itself are
    distinct and not magic. *)
Definition disciplined : Prop :=
  ∀ s l parent childProp s' ps leave,
    visitor s l parent childProp = (s', Prune ps leave) →
    distinct ps = true ∧ forallb (λ p, negb (Astutil.magic p)) ps = true.

End visit.

(** A decorated program, [function f() {}], with the back-pointers of
    its [attr] objects: 0 is the collection, 1 its [programs] array, 2
    the [Program], 3 its body array, 4 the function, 5 its id, 6 its
    params, 7 its body; 10.. are the [attr] objects. *)
Definition decorated : store :=
  list_to_map
    [(0, [("type", Prim (PStr "ProgramCollection")); ("programs", Ref 1); ("attr", Ref 10)]);
     (1, [("0", Ref 2)]);
     (2, [("type", Prim (PStr "Program")); ("body", Ref 3); ("attr", Ref 12)]);
     (3, [("0", Ref 4)]);
     (4, [("type", Prim (PStr "FunctionDeclaration")); ("id", Ref 5); ("params", Ref 6);
          ("body", Ref 7); ("range", Ref 8); ("attr", Ref 14)]);
     (5, [("type", Prim (PStr "Identifier")); ("name", Prim (PStr "f")); ("attr", Ref 15)]);
     (6, []);
     (7, [("type", Prim (PStr "BlockStatement")); ("body", Ref 9); ("attr", Ref 17)]);
     (8, [("0", Prim (PNum 0)); ("1", Prim (PNum 15))]);
     (9, []);
     (10, [("functions", Ref 11); ("calls", Ref 6)]);
     (11, [("0", Ref 4)]);
     (12, [("filename", Prim (PStr "a.js"))]);
     (14, [("enclosingFile", Prim (PStr "a.js")); ("parent", Ref 3);
           ("childProp", Prim (PStr "0"))]);
     (15, [("enclosingFunction", Ref 4); ("enclosingFile", Prim (PStr "a.js"))]);
     (17, [("enclosingFunction", Ref 4); ("enclosingFile", Prim (PStr "a.js"))])].

(** A visitor in the manner of [init]: it counts the nodes, and on a
    function visits id, params and body itself. *)
Definition counting (h : store) (n : nat) (l : loc) (parent : option loc)
    (childProp : option string) : nat * reply nat :=
  match prop "type" (default [] (h !! l)) with
  | Prim (PStr "FunctionDeclaration") => (n + 1, Prune ["id"; "params"; "body"] (λ n, n))
  | _ => (n + 1, Descend)
  end.

(** *** [visitWithState] *)

(** The object [state] that [visitWithState] creates and hands to
    every call of the visitor. *)
Definition initialState : object :=
  [("withinDeclarator", Prim (PBool false)); ("withinParams", Prim (PBool false))].

Section visitWithState.
Context {S : Type}.
(** The visitor reads and updates its own state and the object
    [state]. *)
Variable visitor :
  S → object → loc → option loc → option string → (S * object) * reply (S * object).
Variable h : store.

(** [doVisit(nd, parent, childProp)] of [visitWithState], with the
    depth of the recursion bounded by [fuel]. *)
Fixpoint doVisitWithState (fuel : nat) (here : path) (nd : val)
    (parent : option loc) (childProp : option string)
    (st : (S * object) * list path) : option ((S * object) * list path) :=
  match nd with
  | Prim _ => Some st
  | Ref l =>
      match fuel with
      | 0 => None
      | Datatypes.S fuel =>
          match h !! l with
          | None => Some st
          | Some o =>
              let log := st.2 ++ [here] in
              if truthy (prop "type" o) then
                match visitor st.1.1 st.1.2 l parent childProp with
                | (s, Descend) => visitProperties (doVisitWithState fuel) here l o (s, log)
                | (s, Prune ps leave) =>
                    st' ← visitOwn (doVisitWithState fuel) here o ps (s, log);
                    Some (leave st'.1, st'.2)
                end
              else visitProperties (doVisitWithState fuel) here l o (st.1, log)
          end
      end
  end.

Definition visitWithState (fuel : nat) (root : loc) (s : S)
  : option ((S * object) * list path) :=
  doVisitWithState fuel [] (Ref root) None None ((s, initialState), []).

(** The visitor of [visit] that closes over the object [state]. *)
Definition closing (so : S * object) (l : loc) (parent : option loc)
    (childProp : option string) : (S * object) * reply (S * object) :=
  visitor so.1 so.2 l parent childProp.

End visitWithState.

(** A visitor in the manner of the binder: it counts the nodes and
    raises a flag on declarators. *)
Definition flagging (h : store) (n : nat) (state : object) (l : loc) (parent : option loc)
    (childProp : option string) : (nat * object) * reply (nat * object) :=
  match prop "type" (default [] (h !! l)) with
  | Prim (PStr "FunctionDeclaration") =>
      ((n + 1, [("withinDeclarator", Prim (PBool true));
                ("withinParams", prop "withinParams" state)]),
       Prune ["id"; "params"; "body"] (λ so, (so.1, state)))
  | _ => ((n + 1, state), Descend)
  end.

End Store.

(** ** natives.js: native flows and the Step combinator *)

Module Natives.
Import Js.

(** Modelled from the spec: the flow graph of flowgraph.js, which is not
    among the sources.  Vertices are the variants of the data model,
    identified by their discriminant fields; the graph is a directed
    multigraph, [addEdge] adds one edge.  [Func] and [Ret] are keyed by
    a function node, [Callee] by a call-site. *)
Inductive vertex :=
| VarVertex (decl : value)
| GlobVertex (name : string)
| PropVertex (name : string)
| FuncVertex (fn : value)
| CalleeVertex (call : value)
| ArgVertex (call : value) (i : nat)
| ResVertex (call : value)
| RetVertex (fn : value)
| ExprVertex (nd : value)
| NativeVertex (name : string)
| UnknownVertex.

Definition flowgraph : Type := list (vertex * vertex).

Definition addEdge (flow_graph : flowgraph) (from to : vertex) : flowgraph :=
  flow_graph ++ [(from, to)].

(** [addNativeFlowEdges(flow_graph)]. The table [nativeFlows] of
    harness.js is not among the sources: it is a parameter, the list of
    its own properties [native: target] in enumeration order.  The
    second vertex is [propVertex({type: 'Identifier', name: target})]. *)
Definition addNativeFlowEdges (nativeFlows : list (string * string))
    (flow_graph : flowgraph) : flowgraph :=
  fold_left (λ fg entry, addEdge fg (NativeVertex entry.1) (PropVertex entry.2))
            nativeFlows flow_graph.

(** [isStepCall(call)]; reading [call.callee.type] throws when there is
    no callee. *)
Definition isStepCall (call : value) : option bool :=
  if strictEqStr (get call "type") "CallExpression" then
    calleeType ← getx (get call "callee") "type";
    Some (strictEqStr calleeType "Identifier"
          && strictEqStr (get (get call "callee") "name") "Step")
  else Some false.

(** The filter of [handleStepCall] on one argument. *)
Definition isStep (arg : value) : option bool :=
  type ← getx arg "type";
  Some (strictEqStr type "FunctionExpression"
        || strictEqStr type "ArrowFunctionExpression"
        || strictEqStr type "Identifier").

Fixpoint filterSteps (args : list value) : option (list value) :=
  match args with
  | [] => Some []
  | arg :: rest =>
      selected ← isStep arg;
      steps ← filterSteps rest;
      Some (if selected : bool then arg :: steps else steps)
  end.

Definition defaultLoc : value :=
  VObj [("start", VObj [("line", VNum 0); ("column", VNum 0)]);
        ("end", VObj [("line", VNum 0); ("column", VNum 0)])].

(** [flowgraph.retVertex(fn)]: a return vertex is keyed by a function
    node; asked for any other node, [retVertex] throws.  The handler asks
    for it with what [resolveFunctionNode] returns, which is the step
    itself, an [Identifier], when the search fails.  ([funcVertex] is
    asked for function expressions and arrow functions only,
    [calleeVertex] for call expressions.) *)
Definition retVertex (fn : value) : option vertex :=
  if Astutil.isFunctionType fn then Some (RetVertex fn) else None.

Section step.
(** From modules that are not among the sources: [flowgraph.vertexFor],
    the lookup [scope.get(name)] of the binder's symbol tables, and the
    identity of node objects ([===]). *)
Variable vertexFor : value → vertex.
Variable scopeGet : value → value → value.
Variable sameNode : value → value → bool.

(** [a === b] *)
Definition strictEq (a b : value) : bool :=
  match a, b with
  | VUndef, VUndef | VNull, VNull => true
  | VBool x, VBool y => Bool.eqb x y
  | VNum x, VNum y => (x =? y)%Z
  | VStr x, VStr y => String.eqb x y
  | (VArr _ | VObj _), (VArr _ | VObj _) => sameNode a b
  | _, _ => false
  end.

(** The search of [resolveFunctionNode] through [ast.attr.functions];
    the outer [None] is an exception of [funcname]. *)
Fixpoint findFunction (declId step : value) (functions : list Astutil.func)
  : option (option value) :=
  match functions with
  | [] => Some None
  | func :: rest =>
      let id := get (Astutil.f_node func) "id" in
      if strictEq id declId then Some (Some (Astutil.f_node func))
      else if negb (truthy id)
              && bool_decide (Astutil.f_enclosingFunction func = None)
      then
        fname ← Astutil.funcname func;
        if strictEq fname (get step "name") then Some (Some (Astutil.f_node func))
        else findFunction declId step rest
      else findFunction declId step rest
  end.

Definition resolveFunctionNode (functions : list Astutil.func) (step : value)
  : option value :=
  if strictEqStr (get step "type") "Identifier"
     && truthy (get step "attr") && truthy (get (get step "attr") "scope") then
    let declId := scopeGet (get (get step "attr") "scope") (get step "name") in
    if truthy declId && strictEq (get declId "name") (get step "name") then
      found ← findFunction declId step functions;
      Some (default step found)
    else Some step
  else Some step.

Definition stepVertex (step : value) : vertex :=
  if strictEqStr (get step "type") "Identifier" then vertexFor step else FuncVertex step.

(** The object literal [pseudoCall] of the loop. *)
Definition pseudoCall (call currentStep nextStep currentStepFunc : value) : option value :=
  enclosingFile ← getx (get call "attr") "enclosingFile";
  Some (VObj
    [("type", VStr "CallExpression");
     ("callee", nextStep);
     ("arguments", VArr []);
     ("loc", if truthy (get currentStep "loc") then get currentStep "loc" else defaultLoc);
     ("range", if truthy (get currentStep "range") then get currentStep "range"
               else VArr [VNum 0; VNum 0]);
     ("attr", VObj [("synthetic", VBool true);
                    ("enclosingFunction", currentStepFunc);
                    ("enclosingFile", enclosingFile)])]).

(** [for (let i = 0; i < steps.length - 1; i++) ...] *)
Fixpoint linkSteps (functions : list Astutil.func) (call : value)
    (steps : list value) (flow_graph : flowgraph) : option flowgraph :=
  match steps with
  | currentStep :: ((nextStep :: _) as rest) =>
      currentStepFunc ← resolveFunctionNode functions currentStep;
      pseudo ← pseudoCall call currentStep nextStep currentStepFunc;
      currentStepFuncNode ← resolveFunctionNode functions currentStep;
      let fg := addEdge flow_graph (stepVertex nextStep) (CalleeVertex pseudo) in
      ret ← retVertex currentStepFuncNode;
      let fg := addEdge fg ret (CalleeVertex pseudo) in
      linkSteps functions call rest fg
  | _ => Some flow_graph
  end.

(** [handleStepCall(call, flow_graph, ast)], with [functions] for
    [ast.attr.functions]. *)
Definition handleStepCall (call : value) (flow_graph : flowgraph)
    (functions : list Astutil.func) : option flowgraph :=
  match get call "arguments" with
  | VArr args =>
      steps ← filterSteps args;
      match steps with
      | [] => Some flow_graph
      | firstStep :: _ =>
          let fg := addEdge flow_graph (stepVertex firstStep) (CalleeVertex call) in
          linkSteps functions call steps fg
      end
  | _ => None
  end.

(** The visitor of [addStepFlowEdges], on one node. *)
Definition stepFlowEdges (nd : value) (flow_graph : flowgraph)
    (functions : list Astutil.func) : option flowgraph :=
  step ← isStepCall nd;
  if step : bool then handleStepCall nd flow_graph functions else Some flow_graph.

End step.

(** *** Vocabulary for the statements about the Step handler *)

(** A function value: a function expression or an arrow function. *)
Definition functionValue (arg : value) : Prop :=
  get arg "type" = VStr "FunctionExpression"
  ∨ get arg "type" = VStr "ArrowFunctionExpression".

(** The pseudo call-site for the pair [(current, next)]. *)
Definition pseudoCallSite (pc current next : value) (fg : flowgraph) : Prop :=
  get pc "type" = VStr "CallExpression"
  ∧ get pc "callee" = next
  ∧ get (get pc "attr") "enclosingFunction" = current
  ∧ (FuncVertex next, CalleeVertex pc) ∈ fg
  ∧ (RetVertex current, CalleeVertex pc) ∈ fg.

(** [Step(function first(){}, function second(){}, () => {});] after
    decoration. *)
Definition stepCall : value :=
  VObj [("type", VStr "CallExpression");
        ("callee", Astutil.Sample.ident "Step" 0 4);
        ("arguments", VArr [Astutil.Sample.functionExpression
                              (Astutil.Sample.ident "first" 14 19) [] 5 24;
                            Astutil.Sample.functionExpression
                              (Astutil.Sample.ident "second" 35 41) [] 26 46;
                            Astutil.Sample.arrow [] 48 56]);
        ("range", VArr [VNum 0; VNum 57]);
        ("attr", VObj [("enclosingFile", VStr "a.js")])].

(** *** [addStepFlowEdges] *)

Section stepTraversal.
Variable vertexFor : value → vertex.
Variable scopeGet : value → value → value.
Variable sameNode : value → value → bool.
Variable functions : list Astutil.func.

(** [astutil.visit(ast, function(nd) {..})] with the visitor of
    [addStepFlowEdges], which returns nothing: [visit] goes on through
    every property that is not magic. *)
Fixpoint visitSteps (nd : value) (flow_graph : flowgraph) {struct nd} : option flowgraph :=
  match nd with
  | VObj fs =>
      fg ← (if truthy (get nd "type")
            then stepFlowEdges vertexFor scopeGet sameNode nd flow_graph functions
            else Some flow_graph);
      ((fix loop (fs : list (string * value)) (fg : flowgraph) : option flowgraph :=
          match fs with
          | [] => Some fg
          | (p, v) :: r =>
              if Astutil.magic p then loop r fg
              else fg' ← visitSteps v fg; loop r fg'
          end) fs fg)
  | VArr xs =>
      (fix loop (xs : list value) (fg : flowgraph) : option flowgraph :=
         match xs with
         | [] => Some fg
         | x :: r => fg' ← visitSteps x fg; loop r fg'
         end) xs flow_graph
  | _ => Some flow_graph
  end.

(** [addStepFlowEdges(ast, flow_graph)], with [functions] for
    [ast.attr.functions]. *)
Definition addStepFlowEdges (ast : value) (flow_graph : flowgraph) : option flowgraph :=
  visitSteps ast flow_graph.

End stepTraversal.

(** *** Vocabulary *)

(** The arguments of a call that the Step handler takes for steps. *)
Definition isStepType (arg : value) : bool :=
  strictEqStr (get arg "type") "FunctionExpression"
  || strictEqStr (get arg "type") "ArrowFunctionExpression"
  || strictEqStr (get arg "type") "Identifier".

Definition stepsOf (call : value) : list value :=
  match get call "arguments" with
  | VArr args => List.filter isStepType args
  | _ => []
  end.

(** The number of edges one Step call contributes. *)
Definition edgesOf (call : value) : nat := 2 * length (stepsOf call) - 1.

(** The Step calls of a tree, in the order in which [visit] meets them. *)
Fixpoint stepCalls (nd : value) : list value :=
  match nd with
  | VObj fs =>
      (if truthy (get nd "type") && bool_decide (isStepCall nd = Some true) then [nd] else [])
      ++ (fix loop (fs : list (string * value)) : list value :=
            match fs with
            | [] => []
            | (p, v) :: r => if Astutil.magic p then loop r else stepCalls v ++ loop r
            end) fs
  | VArr xs =>
      (fix loop (xs : list value) : list value :=
         match xs with
         | [] => []
         | x :: r => stepCalls x ++ loop r
         end) xs
  | _ => []
  end.

(** How [resolveFunctionNode] picks a function for the identifier [step]
    declared by [declId]. *)
Definition byDeclaration (sameNode : value → value → bool) (declId : value)
    (f : Astutil.func) : Prop :=
  strictEq sameNode (get (Astutil.f_node f) "id") declId = true.

Definition byName (sameNode : value → value → bool) (step : value) (f : Astutil.func) : Prop :=
  truthy (get (Astutil.f_node f) "id") = false
  ∧ Astutil.f_enclosingFunction f = None
  ∧ ∃ fname, Astutil.funcname f = Some fname
             ∧ strictEq sameNode fname (get step "name") = true.

Definition unresolved (sameNode : value → value → bool) (declId step : value)
    (f : Astutil.func) : Prop :=
  ¬ byDeclaration sameNode declId f ∧ ¬ byName sameNode step f.

(** The pseudo call-site for the pair [(current, next)], [resolved]
    being what [resolveFunctionNode] makes of [current]. *)
Definition linked (vertexFor : value → vertex) (pc current next resolved : value)
    (fg : flowgraph) : Prop :=
  get pc "type" = VStr "CallExpression"
  ∧ get pc "callee" = next
  ∧ get pc "arguments" = VArr []
  ∧ get pc "range" = (if truthy (get current "range") then get current "range"
                      else VArr [VNum 0; VNum 0])
  ∧ get (get pc "attr") "synthetic" = VBool true
  ∧ get (get pc "attr") "enclosingFunction" = resolved
  ∧ (stepVertex vertexFor next, CalleeVertex pc) ∈ fg
  ∧ (RetVertex resolved, CalleeVertex pc) ∈ fg.

(** [first], as the binder decorates a reference: [attr.scope] is its
    symbol table. *)
Definition firstReference : value :=
  VObj [("type", VStr "Identifier"); ("name", VStr "first");
        ("range", VArr [VNum 5; VNum 10]); ("attr", VObj [("scope", VObj [])])].

(** [function first() {}] at top level, as [init] registers it. *)
Definition firstDeclaration : Astutil.func :=
  {| Astutil.f_uid := 0;
     Astutil.f_source :=
       Astutil.Sample.functionExpression (Astutil.Sample.ident "first" 39 44) [] 30 49;
     Astutil.f_node :=
       Astutil.Sample.functionExpression (Astutil.Sample.ident "first" 39 44) [] 30 49;
     Astutil.f_parent := VArr [];
     Astutil.f_childProp := VStr "1";
     Astutil.f_anonIndex := None;
     Astutil.f_enclosingFunction := None;
     Astutil.f_enclosingFile := VStr "a.js" |}.

(** [Step(first, function(){}, 1)] after decoration, [first] being a
    reference. *)
Definition stepByName : value :=
  VObj [("type", VStr "CallExpression");
        ("callee", Astutil.Sample.ident "Step" 0 4);
        ("arguments", VArr [firstReference;
                            Astutil.Sample.functionExpression VNull [] 12 24;
                            Astutil.Sample.literal (VNum 1) 26 27]);
        ("range", VArr [VNum 0; VNum 28]);
        ("attr", VObj [("enclosingFile", VStr "a.js")])].

(** Nodes told apart by their source range. *)
Definition sameRange (a b : value) : bool :=
  String.eqb (toString (get a "range")) (toString (get b "range")).

End Natives.

(** ** runner.js: the projections of the call graph, and the
    configuration checks *)

Module Runner.

(** A node of the decorated AST, with what the projections read of it:
    [nd.type], [nd.range] and [nd.attr.enclosingFile]. *)
Record node := Node {
  nd_type : string;
  nd_range : Z * Z;
  nd_enclosingFile : option string
}.

(** A call-site [call]: [call.attr.enclosingFile],
    [call.attr.enclosingFunction], [call.callee.attr.enclosingFunction]
    and [call.arguments].  [None] is [undefined]. *)
Record callNode := CallNode {
  call_enclosingFile : option string;
  call_enclosingFunction : option node;
  callee_enclosingFunction : option node;
  call_arguments : list node
}.

(** Modelled from the spec: the call graph [cg] that the strategies
    build (callgraph.js and graph.js are not among the sources): edges
    from the callee vertex of a call-site to a Func or Native vertex,
    which [cg.edges.iter] enumerates in insertion order. *)
Inductive target :=
| FuncVertex (func : node)
| NativeVertex (name : string).

Definition callgraph : Type := list (callNode * target).

(** [{file: .., range: [.., ..]}]; [None] is [null] or [undefined],
    which [==] does not tell apart. *)
Record position := Position {
  file : option string;
  range : option Z * option Z
}.

Record edge := Edge {
  caller : position;
  callee : position
}.

#[global] Instance position_eq_dec : EqDecision position.
Proof. solve_decision. Defined.

#[global] Instance edge_eq_dec : EqDecision edge.
Proof. solve_decision. Defined.

(** [equals(a)]: the six comparisons with [==]. *)
Definition equals (new a : edge) : bool :=
  bool_decide (file (caller a) = file (caller new))
  && bool_decide ((range (caller a)).1 = (range (caller new)).1)
  && bool_decide ((range (caller a)).2 = (range (caller new)).2)
  && bool_decide (file (callee a) = file (callee new))
  && bool_decide ((range (callee a)).1 = (range (callee new)).1)
  && bool_decide ((range (callee a)).2 = (range (callee new)).2).

(** "If it's not yet in there, put it in." *)
Definition add_entry (entries : list edge) (new : edge) : list edge :=
  if existsb (equals new) entries then entries else entries ++ [new].

Definition rangeOf (nd : node) : option Z * option Z :=
  (Some (nd_range nd).1, Some (nd_range nd).2).

(** [retrieveAllCalledFunctionsStatic(cg)] *)
Definition staticEdge (call : callNode) (func : node) : edge :=
  {| caller := {| file := call_enclosingFile call;
                  range := match callee_enclosingFunction call with
                           | Some enclosing_function => rangeOf enclosing_function
                           | None => (None, None)
                           end |};
     callee := {| file := nd_enclosingFile func; range := rangeOf func |} |}.

Definition retrieveAllCalledFunctionsStatic (cg : callgraph) : list edge :=
  fold_left (λ calledFunctions e,
               match e.2 with
               | NativeVertex _ => calledFunctions
               | FuncVertex func => add_entry calledFunctions (staticEdge e.1 func)
               end) cg [].

(** [retrieveAllCalledFunctionsNative(cg)] *)
Definition handle_function_argument (functions_called : list edge)
    (call : callNode) (func : node) : list edge :=
  let called := {| file := nd_enclosingFile func; range := rangeOf func |} in
  let caller :=
    match call_enclosingFunction call with
    | Some enclosing_function =>
        {| file := nd_enclosingFile enclosing_function;
           range := rangeOf enclosing_function |}
    | None => {| file := call_enclosingFile call; range := (None, None) |}
    end in
  add_entry functions_called {| caller := caller; callee := called |}.

Definition retrieveAllCalledFunctionsNative (cg : callgraph) : list edge :=
  fold_left (λ functions_called e,
               match e.2 with
               | NativeVertex _ =>
                   fold_left (λ functions_called arg,
                                if String.eqb (nd_type arg) "FunctionExpression"
                                then handle_function_argument functions_called e.1 arg
                                else functions_called)
                             (call_arguments e.1) functions_called
               | FuncVertex _ => functions_called
               end) cg [].

(** *** Configuration *)

(** What the program does that can be observed: warnings on the
    console, and the analysis with all its output (parsing, bindings,
    call graph, files written, graph printed), as one event. *)
Inductive event :=
| Warn (msg : string)
| Analyse (strategy : string) (files : list string).

(** [process.exit(code)] ends the program, an exception that nothing
    catches leaves the function; otherwise the function returns. *)
Inductive outcome :=
| Exit (code : Z)
| Return
| Throw.

(** The status the parent process sees: the low eight bits. *)
Definition exitStatus (code : Z) : Z := code mod 256.

(** [Array.from(new Set(l))]: first occurrences, in order. *)
Definition unique (l : list string) : list string :=
  fold_left (λ seen x, if bool_decide (x ∈ seen) then seen else seen ++ [x]) l [].

(** [l.remove(what)]: every occurrence goes. *)
Definition remove (what : string) (l : list string) : list string :=
  filter (λ x, x ≠ what) l.

(** The double quote character, as a string. *)
Definition quote : string := String (Ascii.ascii_of_nat 34) EmptyString.

Definition endsWith (s suffix : string) : bool :=
  let n := String.length s in
  let m := String.length suffix in
  (m <=? n)%nat && String.eqb (String.substring (n - m) m s) suffix.

Section configuration.
(** The file system, and the test of a filter rule:
    [new RegExp(elem.substr(1).trim(), "gm")] throws a SyntaxError on a
    rule that is not a regular expression, [compiles elem] tells that
    it does not throw; [matches elem file] is [.test(file)] on the
    expression it returns. *)
Variable resolve : string → string.
Variable existsSync : string → bool.
Variable isDirectory : string → bool.
Variable collectFiles : string → list string → list string.
Variable compiles : string → bool.
Variable matches : string → string → bool.

Record files_result := FilesResult {
  fr_events : list event;
  fr_files : list string;
  fr_outcome : outcome
}.

(** [exports.setFiles(inputList)] *)
Definition setFiles (inputList : list string) : files_result :=
  let '(events, filelist) :=
    fold_left (λ '(events, filelist) file,
                 let file := resolve file in
                 if negb (existsSync file) then
                   (events ++ [Warn ("The path " +:+ quote +:+ file +:+ quote
                                     +:+ " does not exists.")],
                    filelist)
                 else if isDirectory file then (events, collectFiles file filelist)
                 else if endsWith file ".js" || endsWith file ".jsx" || endsWith file ".ts"
                         || endsWith file ".tsx" || endsWith file ".vue"
                 then (events, filelist ++ [file])
                 else (events, filelist))
              inputList ([], []) in
  let files := unique filelist in
  if (List.length files =? 0)%nat then
    {| fr_events := events ++ [Warn "Input file list is empty!"];
       fr_files := files; fr_outcome := Exit (-1) |}
  else {| fr_events := events; fr_files := files; fr_outcome := Return |}.

(** The filter of [build], for rules that are regular expressions. *)
Definition applyFilter (filter : list string) (files : list string) : list string :=
  unique
    (fold_left (λ filteredfiles file,
                  fold_left (λ filteredfiles elem,
                               let result := matches elem file in
                               let filteredfiles :=
                                 if result && String.prefix "-" elem
                                 then remove file filteredfiles else filteredfiles in
                               if result && String.prefix "+" elem
                               then filteredfiles ++ [file] else filteredfiles)
                            filter (filteredfiles ++ [file]))
               files []).

Definition knownStrategy (s : string) : bool :=
  String.eqb s "NONE" || String.eqb s "ONESHOT" || String.eqb s "DEMAND"
  || String.eqb s "FULL".

(** [filter.forEach(function (elem) {..})] for one file; [None]: the
    constructor throws. *)
Fixpoint applyRules (file : string) (filter : list string) (filteredfiles : list string)
  : option (list string) :=
  match filter with
  | [] => Some filteredfiles
  | elem :: rest =>
      if compiles elem then
        let result := matches elem file in
        let filteredfiles :=
          if result && String.prefix "-" elem
          then remove file filteredfiles else filteredfiles in
        let filteredfiles :=
          if result && String.prefix "+" elem
          then filteredfiles ++ [file] else filteredfiles in
        applyRules file rest filteredfiles
      else None
  end.

(** [files.forEach(function (file) {..})] *)
Fixpoint filterFiles (filter : list string) (files : list string)
    (filteredfiles : list string) : option (list string) :=
  match files with
  | [] => Some filteredfiles
  | file :: rest =>
      filteredfiles ← applyRules file filter (filteredfiles ++ [file]);
      filterFiles filter rest filteredfiles
  end.

(** [build()], up to the analysis: [strategy] is [args.strategy]
    ([None]: not given), [filter] is [this.filter]. *)
Definition build (strategy : option string) (filter : option (list string))
    (files : list string) : list event * outcome :=
  let filtered :=
    match filter with
    | Some ((_ :: _) as filter) => unique <$> filterFiles filter files []
    | _ => Some files
    end in
  match filtered with
  | None => ([], Throw)
  | Some files =>
      let strategy :=
        match strategy with
        | Some s => if String.eqb s "" then "ONESHOT" else s
        | None => "ONESHOT"
        end in
      if negb (knownStrategy strategy) then
        ([Warn ("Unknown strategy: " +:+ strategy)], Exit (-1))
      else if String.eqb strategy "FULL" then
        ([Warn "strategy FULL not implemented yet; using DEMAND instead";
          Analyse "DEMAND" files], Return)
      else ([Analyse strategy files], Return)
  end.

(** The filter makes [build] throw: there is a file to test, and a rule
    that is not a regular expression. *)
Definition malformed (filter : option (list string)) (files : list string) : Prop :=
  files ≠ [] ∧ ∃ rules elem, filter = Some rules ∧ elem ∈ rules ∧ compiles elem = false.

(** The files [build] analyses. *)
Definition analysed (filter : option (list string)) (files : list string) : list string :=
  match filter with
  | Some [] | None => files
  | Some rules => applyFilter rules files
  end.

End configuration.

(** *** Vocabulary for the statements about the projections *)

(** The entry of the [nativecalls] projection for an argument [arg] of
    the call-site [call]. *)
Definition attributes (call : callNode) (arg : node) (e : edge) : Prop :=
  callee e = {| file := nd_enclosingFile arg; range := rangeOf arg |}
  ∧ caller e = match call_enclosingFunction call with
               | Some f => {| file := nd_enclosingFile f; range := rangeOf f |}
               | None => {| file := call_enclosingFile call; range := (None, None) |}
               end.

Definition nativeArguments (call : callNode) (args : list node) (e : edge) : Prop :=
  ∃ arg, arg ∈ args ∧ nd_type arg = "FunctionExpression" ∧ attributes call arg e.

Definition nativeEdges (cg : callgraph) (e : edge) : Prop :=
  ∃ call name arg,
    (call, NativeVertex name) ∈ cg ∧ arg ∈ call_arguments call
    ∧ nd_type arg = "FunctionExpression" ∧ attributes call arg e.

(** The strategy in force: [args.strategy || 'ONESHOT']. *)
Definition strategyInForce (strategy : option string) : string :=
  match strategy with
  | Some s => if String.eqb s "" then "ONESHOT" else s
  | None => "ONESHOT"
  end.

Definition warning (e : event) : Prop :=
  match e with Warn _ => True | Analyse _ _ => False end.

(** A rule that is not a regular expression: an opening parenthesis
    that nothing closes. *)
Definition unclosed : string := "-(".

(** A pseudo call-site of the Step handler, for the pair of
    [Step(function first(){}, function second(){})] at top level: its
    enclosing-function attribute is [first]; its callee is the node
    [second], whose enclosing function is the one of the [Step] call
    (none). *)
Definition first : node :=
  {| nd_type := "FunctionExpression"; nd_range := (5, 24)%Z; nd_enclosingFile := Some "a.js" |}.

Definition second : node :=
  {| nd_type := "FunctionExpression"; nd_range := (26, 46)%Z; nd_enclosingFile := Some "a.js" |}.

Definition pseudoCallSite : callNode :=
  {| call_enclosingFile := Some "a.js";
     call_enclosingFunction := Some first;
     callee_enclosingFunction := None;
     call_arguments := [] |}.

(** [[1].forEach(x => x)] at top level. *)
Definition forEachCall : callNode :=
  {| call_enclosingFile := Some "a.js";
     call_enclosingFunction := None;
     callee_enclosingFunction := None;
     call_arguments := [ {| nd_type := "ArrowFunctionExpression"; nd_range := (12, 18)%Z;
                            nd_enclosingFile := Some "a.js" |} ] |}.

(** *** [Array.prototype.remove] *)

(** [l.indexOf(what)] *)
Fixpoint indexOf (what : string) (l : list string) : option nat :=
  match l with
  | [] => None
  | x :: r => if String.eqb x what then Some 0 else S <$> indexOf what r
  end.

(** [l.splice(ax, 1)] *)
Definition splice (ax : nat) (l : list string) : list string :=
  take ax l ++ drop (S ax) l.

(** [while ((ax = this.indexOf(what)) !== -1) this.splice(ax, 1);] with
    the number of rounds bounded by [fuel]; [None] is "out of fuel". *)
Fixpoint removeEvery (fuel : nat) (what : string) (l : list string) : option (list string) :=
  match indexOf what l with
  | None => Some l
  | Some ax =>
      match fuel with
      | 0 => None
      | S fuel => removeEvery fuel what (splice ax l)
      end
  end.

(** [while (L && this.length) { what = a[--L]; .. }], on the arguments
    still to come, last first. *)
Fixpoint removeArguments (fuel : nat) (pending : list string) (l : list string)
  : option (list string) :=
  match pending with
  | [] => Some l
  | what :: rest =>
      if (List.length l =? 0)%nat then Some l
      else l' ← removeEvery fuel what l; removeArguments fuel rest l'
  end.

(** [l.remove(a_1, .., a_n)] *)
Definition removeAll (fuel : nat) (a : list string) (l : list string) : option (list string) :=
  removeArguments fuel (reverse a) l.

Section filter.
Variable matches : string → string → bool.

(** Whether the rules of a filter keep [file]: the last rule that
    matches and starts with [-] or [+] decides; a file is kept when
    there is none. *)
Definition verdictFrom (keep : bool) (filter : list string) (file : string) : bool :=
  fold_left (λ keep elem,
               if matches elem file then
                 if String.prefix "-" elem then false
                 else if String.prefix "+" elem then true
                 else keep
               else keep) filter keep.

Definition verdict (filter : list string) (file : string) : bool :=
  verdictFrom true filter file.

End filter.

Definition supported (file : string) : bool :=
  endsWith file ".js" || endsWith file ".jsx" || endsWith file ".ts"
  || endsWith file ".tsx" || endsWith file ".vue".

Definition missing (file : string) : event :=
  Warn ("The path " +:+ quote +:+ file +:+ quote +:+ " does not exists.").

End Runner.

(** ** astutil.js: from sources to the decorated tree *)

Module Build.
Import Js Astutil.

Section parsing.
(** [prep.trimHashbangPrep], the parser ([inr stack]: it throws an
    error with that stack) and [fs.readFileSync] ([None]: it throws). *)
Variable trimHashbangPrep : string → string.
Variable parse : string → bool → value + string.
Variable readFileSync : string → option string.

Definition rule : string := "-------------------------------------------".







End parsing.


End Build.

(** * Properties *)

(** ** The decoration pass, step by step *)

Module AstutilFacts.
Import Js Astutil.

Lemma named_mono out out' f : out ⊆ out' → named out f → named out' f.
Proof.
  intros Hsub [Hp Hm]. split; intros H1 H2.
  - specialize (Hp H1 H2). clear Hm.
    repeat case_match; try done; destruct Hp; split; auto.
  - specialize (Hm H1 H2). clear Hp.
    repeat case_match; try done; destruct Hm; split; auto.
Qed.

Lemma registered_app fs f e : registered fs e → registered (fs ++ [f]) e.
Proof.
  intros H g Hg. apply lookup_app_l_Some. by apply H.
Qed.

Lemma invariant_initial : invariant initial.
Proof.
  split; simpl.
  - intros i f H. by rewrite lookup_nil in H.
  - intros k. by rewrite lookup_empty.
  - intros f H. by apply elem_of_nil in H.
  - intros f H. by apply elem_of_nil in H.
  - intros f H. discriminate.
  - intros f H. by apply elem_of_nil in H.
  - intros f e H. by apply elem_of_nil in H.
Qed.

Lemma anonIndices_snoc k fs f :
  anonIndices k (fs ++ [f]) =
  anonIndices k fs ++
  (if decide (encKey f = k) then from_option (λ i, [i]) [] (f_anonIndex f) else []).
Proof.
  unfold anonIndices. rewrite filter_app, omap_app. f_equal.
  rewrite filter_cons, filter_nil. case_decide; [|done].
  simpl. by destruct (f_anonIndex f).
Qed.

Lemma invariant_step st st' : step st st' → invariant st → invariant st'.
Proof.
  intros Hstep Hinv. destruct Hstep as [msg st|v st|e st He|nd st|source nd parent cp st Hn].
  - destruct Hinv. split; simpl; try done.
    intros f Hf. eapply named_mono; [|by eauto]. set_solver.
  - by destruct Hinv.
  - by destruct Hinv.
  - by destruct Hinv.
  - destruct Hinv as [Huid Hcnt Hanon Hnamed Henc Hencd Hord].
    set (f := (register source nd parent cp st).1) in *.
    split; simpl.
    + intros i g Hg. apply lookup_app_Some in Hg as [Hg|[Hlen Hg]]; [by eauto|].
      apply list_lookup_singleton_Some in Hg as [Hi <-]. simpl. lia.
    + intros k. fold f. rewrite anonIndices_snoc, Hcnt.
      subst f. unfold register, encKey. simpl.
      destruct (willBeAnonymous nd parent); simpl.
      * case_decide as Hk.
        -- subst k. rewrite lookup_insert_eq. simpl.
           rewrite Nat.add_1_r, seq_S. done.
        -- rewrite lookup_insert_ne by done. by rewrite app_nil_r.
      * case_decide; by rewrite app_nil_r.
    + intros g Hg. fold f in Hg. apply elem_of_app in Hg as [Hg|Hg]; [by apply Hanon|].
      apply list_elem_of_singleton in Hg as ->. subst f. unfold register. simpl.
      destruct (willBeAnonymous nd parent); simpl; eauto.
    + intros g Hg. fold f in Hg. apply elem_of_app in Hg as [Hg|Hg]; [by eauto|].
      by apply list_elem_of_singleton in Hg as ->.
    + fold f. by apply registered_app.
    + intros g Hg. fold f in Hg. fold f. apply registered_app.
      apply elem_of_app in Hg as [Hg|Hg]; [by eauto|].
      by apply list_elem_of_singleton in Hg as ->.
    + intros g e Hg He. fold f in Hg. apply elem_of_app in Hg as [Hg|Hg]; [by eauto|].
      apply list_elem_of_singleton in Hg as ->. subst f. simpl in *.
      specialize (Henc e He). apply lookup_lt_Some in Henc. done.
Qed.

Lemma invariant_steps st st' : steps st st' → invariant st → invariant st'.
Proof. induction 1; eauto using invariant_step. Qed.

(** *** What a run of [doVisit] does to the state *)

Lemma lookup_assign_ne p q v fs :
  p ≠ q → lookup_prop p (assign_prop q v fs) = lookup_prop p fs.
Proof.
  intros Hne. induction fs as [|[r w] fs IH]; simpl.
  - destruct (String.eqb_spec q p); congruence.
  - destruct (String.eqb_spec r q) as [->|Hrq]; simpl.
    + destruct (String.eqb_spec q p); congruence.
    + destruct (String.eqb_spec r p); congruence.
Qed.

Lemma get_setId_ne k nd p : p ≠ "id" → get (setId k nd) p = get nd p.
Proof. intros Hne. destruct nd; simpl; try done. by apply lookup_assign_ne. Qed.

Lemma steps_console st st' : steps st st' → console st ⊆ console st'.
Proof.
  induction 1 as [|st st1 st2 Hstep _ IH]; [done|].
  etrans; [|exact IH]. destruct Hstep; simpl; try done; set_solver.
Qed.

Lemma steps_functions st st' : steps st st' → functions st `prefix_of` functions st'.
Proof.
  induction 1 as [|st st1 st2 Hstep _ IH]; [done|].
  etrans; [|exact IH]. destruct Hstep; simpl; try done.
  by apply prefix_app_r.
Qed.

Lemma registered_prefix fs fs' e : fs `prefix_of` fs' → registered fs e → registered fs' e.
Proof.
  intros [l ->] H f Hf. apply lookup_app_l_Some. by apply H.
Qed.

Lemma steps_registered st st' :
  steps st st' →
  registered (functions st) (enclosingFunction st) →
  registered (functions st') (enclosingFunction st').
Proof.
  induction 1 as [|st st1 st2 Hstep _ IH]; [done|].
  intros H. apply IH. destruct Hstep; simpl; try done.
  by apply registered_app.
Qed.

Lemma post_refl st : post st st.
Proof. by split. Qed.

Lemma post_trans st1 st2 st3 : post st1 st2 → post st2 st3 → post st1 st3.
Proof.
  intros [H1 E1] [H2 E2]. split; [by etrans|congruence].
Qed.

Lemma post_step st st' :
  step st st' → enclosingFunction st' = enclosingFunction st → post st st'.
Proof. intros H E. split; [by apply rtc_once|done]. Qed.

Lemma good_skip : good skip.
Proof. intros parent cp st st' _ [= <-]. apply post_refl. Qed.

Lemma good_assignment_None : good_assignment None.
Proof. intros k c [=]. Qed.

Lemma visitProp_good p fs :
  Forall (λ pv, good_node pv.2) fs → good (visitProp doVisit p fs).
Proof.
  induction 1 as [|[q v] fs Hv _ IH]; simpl; [apply good_skip|].
  destruct (String.eqb q p); [|done].
  intros parent cp st st' Hpre Hrun.
  eapply (Hv None noKey);
    [apply good_assignment_None|apply good_skip|apply good_skip|exact Hpre|exact Hrun].
Qed.

Lemma visitKeyValue_good fs :
  Forall (λ pv, good_children pv.2) fs → good (visitKeyValue doVisit fs).
Proof.
  induction 1 as [|[q v] fs Hv _ IH]; simpl; [apply good_skip|].
  destruct (String.eqb q "key"); [|done].
  destruct v; try apply good_skip.
  by apply visitProp_good.
Qed.

Section loops.
Context (ndv : value) (asg vasg : assignment) (kvc : keyVisit).
Hypothesis Hasg : good_assignment asg.
Hypothesis Hvasg : good_assignment vasg.
Hypothesis Hkey : good (kv_key kvc).
Hypothesis Hvalue : good (kv_value kvc).
Hypothesis Hpending : fst <$> vasg = keyOfMethod ndv.


Lemma ready_post st st' : ready ndv st → post st st' → ready ndv st'.
Proof.
  intros [Hw Hr] [Hsteps _]. split.
  - intros msg Hmsg. eapply steps_console; eauto.
  - by eapply steps_registered.
Qed.

Lemma ready_pre st p :
  ready ndv st →
  pre (if String.eqb p "value" then vasg else None) ndv (VStr p) st.
Proof.
  intros [Hw Hr]. split; [|done|done].
  unfold pendingId. simpl. by destruct (String.eqb p "value").
Qed.

Lemma ready_pre_id st : ready ndv st → pre None ndv (VStr "id") st.
Proof. intros H. exact (ready_pre st "id" H). Qed.

Lemma visitFields_post fs :
  Forall (λ pv, good_node pv.2) fs →
  ∀ st st', ready ndv st →
    visitFields doVisit ndv asg vasg kvc fs st = Some st' → post st st'.
Proof.
  induction 1 as [|[p v] fs Hv _ IH]; intros st st' Hready Hrun; simpl in Hrun.
  { injection Hrun as <-. apply post_refl. }
  destruct (magic p); [by apply IH|].
  apply bind_Some in Hrun as (st1 & Hchild & Hrest).
  assert (post st st1) as Hpost.
  { destruct (String.eqb_spec p "id") as [->|Hid].
    - destruct asg as [[k visitId]|] eqn:Easg.
      + eapply (Hasg k visitId); [done|by apply ready_pre_id|done].
      + eapply (Hv None kvc);
          [apply good_assignment_None|done|done|by apply ready_pre_id|done].
    - eapply (Hv _ kvc); [|done|done|by apply ready_pre|done].
      destruct (String.eqb p "value"); [done|apply good_assignment_None]. }
  eapply post_trans; [exact Hpost|]. apply IH; [|done].
  by eapply ready_post.
Qed.

Lemma visitChildren_post fs :
  Forall (λ pv, good_node pv.2) fs →
  ∀ st st', ready ndv st →
    visitChildren doVisit ndv asg vasg kvc fs st = Some st' → post st st'.
Proof.
  intros Hfs st st' Hready Hrun. unfold visitChildren in Hrun.
  apply bind_Some in Hrun as (st1 & Hloop & Hrest).
  pose proof (visitFields_post fs Hfs st st1 Hready Hloop) as Hpost.
  destruct asg as [[k visitId]|] eqn:Easg.
  - destruct (has_prop "id" fs).
    + by injection Hrest as <-.
    + eapply post_trans; [exact Hpost|].
      eapply (Hasg k visitId); [done| |done].
      apply ready_pre_id. by eapply ready_post.
  - by injection Hrest as <-.
Qed.
End loops.

Lemma visitElements_post ys xs :
  Forall good_node xs →
  ∀ i st st', registered (functions st) (enclosingFunction st) →
    visitElements doVisit (VArr ys) i xs st = Some st' → post st st'.
Proof.
  induction 1 as [|x xs Hx _ IH]; intros i st st' Hreg Hrun; simpl in Hrun.
  { injection Hrun as <-. apply post_refl. }
  apply bind_Some in Hrun as (st1 & Hchild & Hrest).
  assert (post st st1) as Hpost.
  { eapply (Hx None noKey);
      [apply good_assignment_None|apply good_skip|apply good_skip| |done].
    split; [|done|done].
    unfold pendingId. simpl. by destruct (String.eqb _ _). }
  eapply post_trans; [exact Hpost|]. eapply IH; [|done].
  destruct Hpost as [Hsteps _]. by eapply steps_registered.
Qed.

Lemma strictEqStr_true v s : strictEqStr v s = true → v = VStr s.
Proof.
  destruct v; simpl; try done. intros H. by apply String.eqb_eq in H as ->.
Qed.

Lemma pendingNode_type asg fs : get (pendingNode asg fs) "type" = get (VObj fs) "type".
Proof.
  destruct asg as [[k c]|]; simpl; [|done]. by apply lookup_assign_ne.
Qed.

Lemma keyOfMethod_Property parent :
  strictEqStr (get parent "type") "Property" = true → keyOfMethod parent = None.
Proof.
  intros H. apply strictEqStr_true in H. unfold keyOfMethod. by rewrite H.
Qed.

Lemma pending_None (asg : assignment) : fst <$> asg = None → asg = None.
Proof. by destruct asg. Qed.

Lemma pending_Some (asg : assignment) k : fst <$> asg = Some k → ∃ c, asg = Some (k, c).
Proof. destruct asg as [[k' c]|]; simpl; [|done]. intros [= ->]. eauto. Qed.

Lemma naming_named fs asg parent cp out pn f :
  fst <$> asg = pendingId parent cp →
  (∀ msg, methodWarning parent = Some msg → msg ∈ out) →
  propertyNaming (pendingNode asg fs) parent = Some pn →
  f_source f = VObj fs →
  f_node f = namedNode pn (pendingNode asg fs) →
  f_parent f = parent →
  f_childProp f = cp →
  named (namingOutput pn out) f.
Proof.
  intros Hpending Hwarned Hpn Hsource Hnode Hparent Hcp.
  unfold named. rewrite Hsource, Hnode, Hparent, Hcp. clear Hsource Hnode Hparent Hcp.
  unfold propertyNaming in Hpn. rewrite pendingNode_type in Hpn.
  split.
  - intros Htype Hprop.
    assert (asg = None) as ->.
    { apply pending_None. rewrite Hpending. unfold pendingId.
      rewrite (keyOfMethod_Property _ Hprop). by destruct (strictEqStr cp _). }
    rewrite Htype, Hprop in Hpn.
    assert (truthy parent = true) as Htruthy.
    { apply strictEqStr_true in Hprop. by destruct parent. }
    rewrite Htruthy in Hpn. simpl in Hpn.
    destruct (truthy (get parent "computed")); simpl in Hpn.
    { injection Hpn as <-. simpl. split; [done|set_solver]. }
    apply bind_Some in Hpn as (kt & Hkt & Hpn).
    assert (get (get parent "key") "type" = kt) as ->.
    { unfold getx in Hkt. by destruct (get parent "key"); simplify_eq. }
    destruct (strictEqStr kt "Identifier"); [by injection Hpn as <-|].
    destruct (strictEqStr kt "Literal"); [by injection Hpn as <-|].
    injection Hpn as <-. simpl. split; [done|set_solver].
  - intros Hmeth ->.
    assert (strictEqStr (get parent "type") "Property" = false) as Hprop.
    { apply strictEqStr_true in Hmeth. by rewrite Hmeth. }
    rewrite Hprop, !andb_false_r in Hpn. injection Hpn as <-. simpl.
    unfold pendingId in Hpending. simpl in Hpending.
    unfold keyOfMethod in Hpending. rewrite Hmeth in Hpending. simpl in Hpending.
    pose proof (Hwarned) as Hw. unfold methodWarning in Hw. rewrite Hmeth in Hw.
    destruct (truthy (get parent "computed")); simpl in Hpending.
    { apply pending_None in Hpending as ->. split; [done|]. by apply Hw. }
    destruct (strictEqStr (get (get parent "key") "type") "Identifier").
    { apply pending_Some in Hpending as [c ->]. done. }
    apply pending_None in Hpending as ->.
    destruct (strictEqStr (get (get parent "key") "type") "Literal");
      (split; [done|by apply Hw]).
Qed.

Lemma methodNaming_inv nd mn :
  methodNaming nd = Some mn →
  match mn with
  | NameKey k => keyOfMethod nd = Some k ∧ methodWarning nd = None
  | NameWarn msg => keyOfMethod nd = None ∧ methodWarning nd = Some msg
  | NameNone => keyOfMethod nd = None ∧ methodWarning nd = None
  | NameLiteral _ => False
  end.
Proof.
  unfold methodNaming, keyOfMethod, methodWarning.
  destruct (strictEqStr (get nd "type") "MethodDefinition"); simpl; [|by intros [= <-]].
  destruct (truthy (get nd "computed")); simpl; [by intros [= <-]|].
  intros H. apply bind_Some in H as (kt & Hkt & H).
  assert (get (get nd "key") "type" = kt) as ->.
  { unfold getx in Hkt. by destruct (get nd "key"); simplify_eq. }
  destruct (strictEqStr kt "Identifier").
  { by destruct (get nd "value"); simplify_eq. }
  destruct (strictEqStr kt "Literal"); by injection H as <-.
Qed.

Lemma keyOfMethod_assign_value v fs :
  keyOfMethod (VObj (assign_prop "value" v fs)) = keyOfMethod (VObj fs).
Proof. unfold keyOfMethod. simpl. by rewrite !lookup_assign_ne. Qed.

Lemma methodWarning_assign_value v fs :
  methodWarning (VObj (assign_prop "value" v fs)) = methodWarning (VObj fs).
Proof. unfold methodWarning. simpl. by rewrite !lookup_assign_ne. Qed.

Lemma isFunctionType_namedNode pn nd :
  isFunctionType (namedNode pn nd) = isFunctionType nd.
Proof.
  unfold isFunctionType. destruct pn; simpl; by rewrite ?get_setId_ne.
Qed.

Lemma propertyNaming_function nd parent pn :
  propertyNaming nd parent = Some pn →
  isFunctionType nd = false → pn = NameNone.
Proof.
  unfold propertyNaming, isFunctionType. intros H Hfun.
  destruct (strictEqStr (get nd "type") "FunctionExpression").
  { by rewrite orb_true_r in Hfun. }
  simpl in H. by injection H as <-.
Qed.

Lemma pre_undef st :
  registered (functions st) (enclosingFunction st) → pre None VUndef VUndef st.
Proof. by split. Qed.

Lemma untyped_no_method nd :
  truthy (get nd "type") = false →
  keyOfMethod nd = None ∧ methodWarning nd = None.
Proof.
  intros H. unfold keyOfMethod, methodWarning.
  destruct (strictEqStr (get nd "type") "MethodDefinition") eqn:E; [|done].
  apply strictEqStr_true in E. by rewrite E in H.
Qed.

Lemma visitObject_good fs :
  Forall (λ pv, good_node pv.2 ∧ good_children pv.2) fs → good_node (VObj fs).
Proof.
  intros Hfs.
  assert (Forall (λ pv, good_node pv.2) fs) as Hnodes.
  { eapply Forall_impl; [exact Hfs|]. by intros pv [? ?]. }
  assert (Forall (λ pv, good_children pv.2) fs) as Hkids.
  { eapply Forall_impl; [exact Hfs|]. by intros pv [? ?]. }
  clear Hfs.
  intros asg pk parent cp st st' Hasg Hk Hkv [Hpending Hwarned Hreg] Hrun.
  simpl in Hrun. unfold visitObject in Hrun. cbv zeta in Hrun.
  change (match asg with
          | Some (k, _) => VObj (assign_prop "id" k fs)
          | None => VObj fs
          end) with (pendingNode asg fs) in Hrun.
  set (nd0 := pendingNode asg fs) in *.
  set (kvc := {| kv_key := visitProp doVisit "key" fs;
                 kv_value := visitKeyValue doVisit fs |}) in *.
  assert (good (kv_key kvc)) as Hkvc1 by by apply visitProp_good.
  assert (good (kv_value kvc)) as Hkvc2 by by apply visitKeyValue_good.
  destruct (truthy (get nd0 "type")) eqn:Htruthy; cycle 1.
  { (* no [type]: the loop only *)
    destruct (untyped_no_method nd0 Htruthy) as [Hkm Hmw].
    eapply (visitChildren_post nd0 asg None kvc); eauto using good_assignment_None.
    split; [|done]. intros msg. by rewrite Hmw. }
  set (sta := if strictEqStr (get nd0 "type") "Program"
              then setEnclosingFile (get (get nd0 "attr") "filename") st else st) in *.
  assert (post st sta ∧ console sta = console st ∧ functions sta = functions st) as (Hsta & Hca & Hfa).
  { subst sta. destruct (strictEqStr _ "Program"); [|by split; [apply post_refl|]].
    split; [|done]. apply post_step; [constructor|done]. }
  apply bind_Some in Hrun as (pn & Hpn & Hrun).
  set (visitId0 := match asg with
                   | Some (_, visitId) => visitId
                   | None => visitProp doVisit "id" fs
                   end) in *.
  assert (good visitId0) as Hid0.
  { subst visitId0. destruct asg as [[k c]|] eqn:E; [by eapply Hasg|by apply visitProp_good]. }
  destruct (match pn with
            | NameKey k => (setId k nd0, kv_key pk, sta)
            | NameLiteral k =>
                (setId (identifierOfLiteral k) nd0,
                 (λ _ _, kv_value pk (identifierOfLiteral k) (VStr "name")) : visit_t, sta)
            | NameWarn msg => (nd0, visitId0, log msg sta)
            | NameNone => (nd0, visitId0, sta)
            end) as [[nd1 visitId] stb] eqn:Etriple.
  assert (nd1 = namedNode pn nd0 ∧ good visitId ∧ post sta stb
          ∧ console stb = namingOutput pn (console sta)
          ∧ functions stb = functions sta) as (-> & Hvid & Hstb & Hcb & Hfb).
  { destruct pn; injection Etriple as <- <- <-; simpl;
      (split; [done|]); (split; [|split; [|done]]); try done; try apply post_refl.
    - intros parent' cp' st1 st2 [_ _ Hr] Hgo. eapply Hkv; [|exact Hgo].
      by split.
    - apply post_step; [constructor|done]. }
  clear Etriple.
  assert (post st stb) as Hpostb by by eapply post_trans.
  assert (registered (functions stb) (enclosingFunction stb)) as Hregb.
  { destruct Hpostb as [Hs _]. by eapply steps_registered. }
  destruct (isFunctionType (namedNode pn nd0)) eqn:Hfun.
  - (* a function: register it, visit id, params and body *)
    destruct (register (VObj fs) (namedNode pn nd0) parent cp stb) as [f stc] eqn:Ereg.
    assert (f = (register (VObj fs) (namedNode pn nd0) parent cp stb).1) as Hf
      by by rewrite Ereg.
    assert (stc = (register (VObj fs) (namedNode pn nd0) parent cp stb).2) as Hstc
      by by rewrite Ereg.
    apply bind_Some in Hrun as (st1 & Hrun1 & Hrun).
    apply bind_Some in Hrun as (st2 & Hrun2 & Hrun).
    apply bind_Some in Hrun as (st3 & Hrun3 & Hrun).
    injection Hrun as <-.
    assert (step stb stc) as Hstep1.
    { rewrite Hstc. constructor. rewrite <- Hf, Hcb, Hca.
      eapply naming_named; eauto; by rewrite Hf. }
    assert (functions stc = functions stb ++ [f]) as Hfc by by rewrite Hstc, Hf.
    assert (f_uid f = length (functions stb)) as Huid by by rewrite Hf.
    assert (step stc (setEnclosingFunction (Some f) stc)) as Hstep2.
    { constructor. intros g [= <-]. rewrite Hfc, Huid.
      by rewrite lookup_app_r, Nat.sub_diag. }
    assert (steps stb (setEnclosingFunction (Some f) stc)) as Hsteps
      by (eapply rtc_l; [exact Hstep1|by apply rtc_once]).
    assert (∀ sx sy, steps stb sx → post sx sy → steps stb sy) as Hchain.
    { intros sx sy Hx [Hy _]. by etrans. }
    assert (∀ sx, steps stb sx → registered (functions sx) (enclosingFunction sx)) as Hregx.
    { intros sx Hx. by eapply steps_registered. }
    pose proof (Hvid _ _ _ _ (pre_undef _ (Hregx _ Hsteps)) Hrun1) as Hp1.
    pose proof (Hchain _ _ Hsteps Hp1) as Hs1.
    pose proof (visitProp_good "params" fs Hnodes _ _ _ _ (pre_undef _ (Hregx _ Hs1)) Hrun2)
      as Hp2.
    pose proof (Hchain _ _ Hs1 Hp2) as Hs2.
    pose proof (visitProp_good "body" fs Hnodes _ _ _ _ (pre_undef _ (Hregx _ Hs2)) Hrun3)
      as Hp3.
    pose proof (Hchain _ _ Hs2 Hp3) as Hs3.
    destruct Hpostb as [Hsb Heb].
    split; [|by simpl].
    etrans; [exact Hsb|]. etrans; [exact Hs3|]. apply rtc_once. constructor.
    eapply registered_prefix; [|exact Hregb]. by apply steps_functions.
  - (* any other node *)
    pose proof (propertyNaming_function _ _ _ Hpn) as Hnone.
    rewrite isFunctionType_namedNode in Hfun. specialize (Hnone Hfun). subst pn.
    simpl in *.
    apply bind_Some in Hrun as (mn & Hmn & Hrun).
    pose proof (methodNaming_inv _ _ Hmn) as Hinv.
    destruct (match mn with
              | NameKey k =>
                  (match nd0 with
                   | VObj fs1 => VObj (assign_prop "value" (setId k (get nd0 "value")) fs1)
                   | _ => nd0
                   end, Some (k, visitProp doVisit "key" fs), stb)
              | NameWarn msg => (nd0, None, log msg stb)
              | _ => (nd0, None, stb)
              end) as [[ndv vasg] stc] eqn:Etriple.
    assert (good_assignment vasg ∧ fst <$> vasg = keyOfMethod ndv
            ∧ post stb stc
            ∧ (∀ msg, methodWarning ndv = Some msg → msg ∈ console stc))
      as (Hvasg & Hvk & Hstc & Hwc).
    { assert (∃ fs0, nd0 = VObj fs0) as [fs0 Hnd0].
      { subst nd0. unfold pendingNode. destruct asg as [[? ?]|]; eauto. }
      rewrite Hnd0 in *.
      destruct mn; try done; injection Etriple as <- <- <-; destruct Hinv as [Hkm Hmw].
      - rewrite keyOfMethod_assign_value, methodWarning_assign_value, Hkm, Hmw.
        split; [|split; [done|split; [apply post_refl|done]]].
        intros k' c' [= <- <-]. by apply visitProp_good.
      - rewrite Hkm, Hmw.
        split; [apply good_assignment_None|split; [done|split]].
        + apply post_step; [constructor|done].
        + intros m [= <-]. simpl. set_solver.
      - rewrite Hkm, Hmw.
        split; [apply good_assignment_None|split; [done|split; [apply post_refl|done]]]. }
    clear Etriple.
    set (std := if isCallType nd0 then pushCall ndv stc else stc) in *.
    assert (post stc std ∧ console std = console stc) as [Hstd Hcd].
    { subst std. destruct (isCallType nd0); [|by split; [apply post_refl|]].
      split; [|done]. apply post_step; [constructor|done]. }
    assert (post st std) as Hpostd.
    { eapply post_trans; [exact Hpostb|]. by eapply post_trans. }
    eapply post_trans; [exact Hpostd|].
    eapply (visitChildren_post ndv asg vasg kvc); eauto.
    split.
    + intros msg Hmsg. rewrite Hcd. by apply Hwc.
    + destruct Hpostd as [Hs _]. by eapply steps_registered.
Qed.

Lemma visitArray_good xs : Forall good_node xs → good_node (VArr xs).
Proof.
  intros Hxs asg pk parent cp st st' Hasg Hk Hkv [Hpending Hwarned Hreg] Hrun.
  simpl in Hrun. unfold visitArray in Hrun.
  apply bind_Some in Hrun as (st1 & Hloop & Hrest).
  pose proof (visitElements_post xs xs Hxs 0 st st1 Hreg Hloop) as Hpost.
  destruct asg as [[k visitId]|] eqn:Easg; [|by injection Hrest as <-].
  eapply post_trans; [exact Hpost|].
  eapply (Hasg k visitId); [done| |done].
  split; [done|done|]. destruct Hpost as [Hs _]. by eapply steps_registered.
Qed.

Lemma doVisit_good nd : good_node nd ∧ good_children nd.
Proof.
  induction nd as [| | | | |xs IH|fs IH] using value_nested_ind.
  1-5: split; [|done]; intros asg pk parent cp st st' _ _ _ _ [= <-]; apply post_refl.
  - assert (Forall good_node xs) as Hxs.
    { eapply Forall_impl; [exact IH|]. by intros x [? ?]. }
    split; [by apply visitArray_good|done].
  - split; [by apply visitObject_good|].
    simpl. eapply Forall_impl; [exact IH|]. by intros pv [? ?].
Qed.

(** Every run of [init] is a sequence of elementary updates, so its
    result satisfies the invariant. *)
Lemma init_steps root st : init root = Some st → steps initial st.
Proof.
  assert (∀ st', doVisit root None noKey VUndef VUndef initial = Some st' →
                 steps initial st') as Hrun.
  { intros st' H.
    eapply (proj1 (doVisit_good root) None noKey VUndef VUndef initial st');
      [apply good_assignment_None|apply good_skip|apply good_skip| |exact H].
    apply pre_undef. apply invariant_initial. }
  unfold init. intros H.
  destruct (get root "attr"); try done; try by apply Hrun.
  all: apply bind_Some in H as (st1 & H1 & H2); apply Hrun;
    destruct (functions st1), (calls st1); by simplify_eq.
Qed.

Lemma init_invariant root st : init root = Some st → invariant st.
Proof.
  intros H. eapply invariant_steps; [by eapply init_steps|apply invariant_initial].
Qed.

(** *** Anonymous indices *)

Lemma init_anonymous root st f :
  init root = Some st → f ∈ functions st →
  isNull (get (f_node f) "id") = true → hasParentName (f_parent f) = false →
  ∃ i, f_anonIndex f = Some i
       ∧ funcname f = (parentName ← encFuncName (f_enclosingFunction f);
                       Some (anonLabel parentName i)).
Proof.
  intros Hinit Hf Hid Hparent.
  pose proof (inv_anon st (init_invariant root st Hinit) f Hf) as Hanon.
  unfold willBeAnonymous in Hanon. rewrite Hid, Hparent in Hanon. simpl in Hanon.
  destruct Hanon as [i Hi]. exists i. split; [done|].
  unfold hasParentName in Hparent.
  destruct f as [uid source nd parent cp anon enc file]. simpl in *.
  rewrite Hid, Hi. unfold encFuncName.
  destruct (strictEqStr (get parent "type") "AssignmentExpression").
  { by rewrite Hparent. }
  destruct (looseEqStr (get parent "type") "VariableDeclarator"); [|done].
  by rewrite Hparent.
Qed.

(** *** Labels of functions without an id *)

(** C2, as the code has it. For a function node without an id, after
    [init]: when the parent is an assignment whose left side is an
    [Identifier], [funcname] returns the name of that identifier; when
    the parent is a variable declarator whose id is an [Identifier], it
    returns that name; in every other case (among them [exports.x =
    function(){}], whose left side is a member expression) the function
    has an anonymous index [i] and [funcname] returns
    [P:anon[i]], [P] being the label of the enclosing function, computed
    in the same way, or [global] when there is none. *)
Theorem funcname_of_unnamed root st f :
  init root = Some st → f ∈ functions st → get (f_node f) "id" = VNull →
  let parent := f_parent f in
  (strictEqStr (get parent "type") "AssignmentExpression" = true →
   looseEqStr (get (get parent "left") "type") "Identifier" = true →
   funcname f = Some (get (get parent "left") "name"))
  ∧ (strictEqStr (get parent "type") "AssignmentExpression" = false →
     looseEqStr (get parent "type") "VariableDeclarator" = true →
     looseEqStr (get (get parent "id") "type") "Identifier" = true →
     funcname f = Some (get (get parent "id") "name"))
  ∧ (hasParentName parent = false →
     ∃ i, f_anonIndex f = Some i
          ∧ funcname f = (parentName ← encFuncName (f_enclosingFunction f);
                          Some (anonLabel parentName i)))
  ∧ encFuncName None = Some (VStr "global").
Proof.
  intros Hinit Hf Hid parent. split; [|split; [|split; [|done]]].
  - intros Ha Hl. destruct f as [uid source nd p cp anon enc file]. simpl in *.
    subst parent. by rewrite Hid, Ha, Hl.
  - intros Ha Hd Hi. destruct f as [uid source nd p cp anon enc file]. simpl in *.
    subst parent. by rewrite Hid, Ha, Hd, Hi.
  - intros Hparent. eapply init_anonymous; eauto. by rewrite Hid.
Qed.

Lemma funcname_of_unnamed_witness :
  ∃ st f, init Sample.namedAndAnonymous = Some st ∧ functions st !! 0 = Some f
          ∧ funcname f = Some (VStr "x").
Proof.
  destruct (init Sample.namedAndAnonymous) as [st|] eqn:E;
    [|vm_compute in E; discriminate E].
  destruct (functions st !! 0) as [f|] eqn:Ef;
    [|exfalso; revert Ef; vm_compute in E; injection E as <-; discriminate].
  exists st, f. split; [reflexivity|]. split; [exact Ef|].
  assert (f ∈ functions st) as Hin by (by eapply list_elem_of_lookup_2).
  assert (get (f_node f) "id" = VNull ∧ get (get (f_parent f) "left") "name" = VStr "x"
          ∧ strictEqStr (get (f_parent f) "type") "AssignmentExpression" = true
          ∧ looseEqStr (get (get (f_parent f) "left") "type") "Identifier" = true)
    as (Hid & Hname & Ha & Hl).
  { revert Ef. vm_compute in E. injection E as <-. intros [= <-]. by vm_compute. }
  rewrite <- Hname.
  exact (proj1 (funcname_of_unnamed Sample.namedAndAnonymous st f E Hin Hid) Ha Hl).
Defined.

(** C2 as stated fails on [exports.x = function(){};]: the function is
    not labelled [x] but [global:anon[1]]. *)
Lemma exports_assignment_is_anonymous :
  ∃ st f, init Sample.exportsAssignment = Some st ∧ functions st = [f]
          ∧ get (f_node f) "id" = VNull
          ∧ get (f_parent f) "type" = VStr "AssignmentExpression"
          ∧ get (get (get (f_parent f) "left") "property") "name" = VStr "x"
          ∧ funcname f = Some (VStr "global:anon[1]")
          ∧ funcname f ≠ Some (VStr "x").
Proof.
  destruct (init Sample.exportsAssignment) as [st|] eqn:E;
    [|vm_compute in E; discriminate E].
  vm_compute in E. injection E as <-.
  eexists _, _. split; [reflexivity|]. split; [reflexivity|].
  by vm_compute.
Qed.

(** *** Functions in argument position *)

(** C1, as the code has it. A function without an id that is an element
    of the argument list of a registered call is labelled like any other
    anonymous function: it has an anonymous index [i] and [funcname]
    returns [P:anon[i]], [P] the label of the enclosing function or
    [global]; neither the callee nor the number of function-typed
    arguments enters the label. *)
Theorem funcname_of_argument root st c f args :
  init root = Some st → c ∈ calls st → f ∈ functions st →
  get (c_node c) "arguments" = VArr args → f_parent f = VArr args →
  get (f_node f) "id" = VNull →
  ∃ i, f_anonIndex f = Some i
       ∧ funcname f = (parentName ← encFuncName (f_enclosingFunction f);
                       Some (anonLabel parentName i)).
Proof.
  intros Hinit _ Hf _ Hparent Hid.
  eapply init_anonymous; eauto.
  - by rewrite Hid.
  - by rewrite Hparent.
Qed.

Lemma funcname_of_argument_witness :
  ∃ st f, init Sample.singleCallback = Some st ∧ functions st !! 0 = Some f
          ∧ ∃ i, f_anonIndex f = Some i
                 ∧ funcname f = (parentName ← encFuncName (f_enclosingFunction f);
                                 Some (anonLabel parentName i)).
Proof.
  destruct (init Sample.singleCallback) as [st|] eqn:E;
    [|vm_compute in E; discriminate E].
  destruct (functions st !! 0) as [f|] eqn:Ef;
    [|exfalso; revert Ef; vm_compute in E; injection E as <-; discriminate].
  destruct (calls st !! 0) as [c|] eqn:Ec;
    [|exfalso; revert Ec; vm_compute in E; injection E as <-; discriminate].
  exists st, f. split; [reflexivity|]. split; [exact Ef|].
  assert (f ∈ functions st) as Hin by (by eapply list_elem_of_lookup_2).
  assert (c ∈ calls st) as Hc by (by eapply list_elem_of_lookup_2).
  assert (get (f_node f) "id" = VNull
          ∧ get (c_node c) "arguments" = f_parent f
          ∧ f_parent f = VArr [Sample.functionExpression VNull [] 11 23;
                               Sample.node "Literal" [("value", VNum 10); ("raw", VStr "10")]])
    as (Hid & Hargs & Hparent).
  { revert Ef Ec. vm_compute in E. injection E as <-. intros [= <-] [= <-]. by vm_compute. }
  rewrite Hparent in Hargs.
  exact (funcname_of_argument Sample.singleCallback st c f _ E Hc Hin Hargs Hparent Hid).
Defined.

(** C1 as stated fails: the only function-typed argument of
    [setTimeout(function(){}, 10)] is labelled [global:anon[1]], not
    [clb(setTimeout)], and the two of [processData(function(){}, () => {})]
    are labelled [global:anon[1]] and [global:anon[2]], not
    [clb(processData)[1]] and [clb(processData)[2]]. *)
Lemma callbacks_are_anonymous :
  (∃ st f c, init Sample.singleCallback = Some st
             ∧ functions st = [f] ∧ calls st = [c]
             ∧ f_parent f = get (c_node c) "arguments" ∧ f_childProp f = VStr "0"
             ∧ get (get (c_node c) "callee") "name" = VStr "setTimeout"
             ∧ funcname f = Some (VStr "global:anon[1]")
             ∧ funcname f ≠ Some (VStr "clb(setTimeout)"))
  ∧ (∃ st f g c, init Sample.twoCallbacks = Some st
                 ∧ functions st = [f; g] ∧ calls st = [c]
                 ∧ f_parent f = get (c_node c) "arguments"
                 ∧ f_parent g = get (c_node c) "arguments"
                 ∧ funcname f = Some (VStr "global:anon[1]")
                 ∧ funcname g = Some (VStr "global:anon[2]")
                 ∧ funcname f ≠ Some (VStr "clb(processData)[1]")
                 ∧ funcname g ≠ Some (VStr "clb(processData)[2]")).
Proof.
  split.
  - destruct (init Sample.singleCallback) as [st|] eqn:E;
      [|vm_compute in E; discriminate E].
    vm_compute in E. injection E as <-.
    eexists _, _, _. split; [reflexivity|]. split; [reflexivity|]. split; [reflexivity|].
    by vm_compute.
  - destruct (init Sample.twoCallbacks) as [st|] eqn:E;
      [|vm_compute in E; discriminate E].
    vm_compute in E. injection E as <-.
    eexists _, _, _, _. split; [reflexivity|]. split; [reflexivity|]. split; [reflexivity|].
    by vm_compute.
Qed.

(** *** Names from object literals and class bodies *)

(** C5 as stated fails twice.  In [class A { m() {} "foo"() {} .. }] the
    method ["foo"], whose name is a valid identifier, gets no id: it
    stays anonymous and a warning is printed.  In [({.., "foo-bar":
    function(){}, ..})] the key, not a valid identifier, becomes the id
    without any warning about it. *)
Lemma literal_keys_counterexample :
  (∃ st f, init Sample.classMethods = Some st ∧ functions st !! 1 = Some f
           ∧ get (f_parent f) "type" = VStr "MethodDefinition"
           ∧ get (get (f_parent f) "key") "value" = VStr "foo"
           ∧ get (f_node f) "id" = VNull
           ∧ funcname f = Some (VStr "global:anon[1]")
           ∧ warnMethodLiteral ∈ console st)
  ∧ (∃ st f, init Sample.objectLiteral = Some st ∧ functions st !! 1 = Some f
             ∧ get (f_parent f) "type" = VStr "Property"
             ∧ get (get (f_parent f) "key") "value" = VStr "foo-bar"
             ∧ get (get (f_node f) "id") "name" = VStr "foo-bar"
             ∧ funcname f = Some (VStr "foo-bar")
             ∧ console st = [warnComputed]).
Proof.
  split.
  - destruct (init Sample.classMethods) as [st|] eqn:E;
      [|vm_compute in E; discriminate E].
    vm_compute in E. injection E as <-.
    eexists _, _. split; [reflexivity|]. split; [reflexivity|].
    repeat split; try by vm_compute. set_solver.
  - destruct (init Sample.objectLiteral) as [st|] eqn:E;
      [|vm_compute in E; discriminate E].
    vm_compute in E. injection E as <-.
    eexists _, _. split; [reflexivity|]. split; [reflexivity|].
    by vm_compute.
Qed.

(** *** File names, positions and predicates *)

Lemma append_cons x (a b : string) : String x a +:+ b = String x (a +:+ b).
Proof. reflexivity. Qed.

Lemma append_assoc (a b c : string) : (a +:+ b) +:+ c = a +:+ b +:+ c.
Proof. induction a as [|x a IH]; [done|]. by rewrite !append_cons, IH. Qed.

Lemma append_nil_l (a : string) : "" +:+ a = a.
Proof. reflexivity. Qed.

Lemma occurs_app c a b : occurs c (a +:+ b) = occurs c a || occurs c b.
Proof.
  induction a as [|x a IH]; [done|]. rewrite append_cons. simpl.
  by rewrite IH, orb_assoc.
Qed.

Lemma lastIndexOf_absent c s : occurs c s = false → lastIndexOf c s = (-1)%Z.
Proof.
  induction s as [|a s IH]; [done|]. simpl. intros H.
  apply orb_false_iff in H as [Ha Hs]. by rewrite (IH Hs), Ha.
Qed.

Lemma lastIndexOf_last c dir name :
  occurs c name = false →
  lastIndexOf c (dir +:+ String c name) = Z.of_nat (String.length dir).
Proof.
  intros Hname. induction dir as [|a dir IH].
  - rewrite append_nil_l. simpl. by rewrite (lastIndexOf_absent c name Hname), Ascii.eqb_refl.
  - rewrite append_cons. cbn [lastIndexOf String.length]. rewrite IH.
    destruct (Z.eqb_spec (Z.of_nat (String.length dir)) (-1)); lia.
Qed.

Lemma substringFrom_app dir c name :
  substringFrom (S (String.length dir)) (dir +:+ String c name) = name.
Proof. induction dir as [|a dir IH]; [done|]. by rewrite append_cons. Qed.

Lemma truthy_app dir c name : truthy (VStr (dir +:+ String c name)) = true.
Proof. by destruct dir. Qed.

Lemma lastIndexOf_ge c s : (-1 ≤ lastIndexOf c s)%Z.
Proof.
  induction s as [|a s IH]; simpl; [lia|].
  destruct (lastIndexOf c s =? -1)%Z; [by destruct (Ascii.eqb a c)|lia].
Qed.

Lemma substringFrom_suffix n s : ∃ p, s = p +:+ substringFrom n s.
Proof.
  revert s. induction n as [|n IH]; intros s; [by exists ""|].
  destruct s as [|a s]; [by exists ""|].
  destruct (IH s) as [p Hp]. exists (String a p). simpl. by rewrite append_cons, <- Hp.
Qed.

Lemma occurs_substringFrom c n s : occurs c s = false → occurs c (substringFrom n s) = false.
Proof.
  intros H. destruct (substringFrom_suffix n s) as [p Hp]. rewrite Hp, occurs_app in H.
  by apply orb_false_iff in H as [_ H].
Qed.

Lemma occurs_after_last c s :
  occurs c (substringFrom (Z.to_nat (lastIndexOf c s + 1)) s) = false.
Proof.
  induction s as [|a s IH]; [done|]. cbn [lastIndexOf].
  pose proof (lastIndexOf_ge c s) as Hge.
  destruct (Z.eqb_spec (lastIndexOf c s) (-1)) as [E|E].
  - rewrite E in IH. simpl in IH.
    destruct (Ascii.eqb a c) eqn:Ea; simpl; [done|]. by rewrite Ea.
  - replace (Z.to_nat (lastIndexOf c s + 1 + 1)) with (S (Z.to_nat (lastIndexOf c s + 1)))
      by lia.
    done.
Qed.

(** X1. [basename] returns what follows the last slash of a path: for
    a name without a slash, [basename(dir + "/" + name)] is [name],
    whatever [dir] holds, backslashes included. *)
Theorem basename_slash dir name :
  occurs slash name = false →
  basename (VStr (dir +:+ String slash name)) = Some name.
Proof.
  intros Hname. unfold basename. rewrite truthy_app. simpl.
  rewrite (lastIndexOf_last slash dir name Hname).
  destruct (Z.eqb_spec (Z.of_nat (String.length dir)) (-1)); [lia|].
  replace (Z.to_nat (Z.of_nat (String.length dir) + 1)) with (S (String.length dir)) by lia.
  by rewrite substringFrom_app.
Qed.

Lemma basename_slash_witness :
  basename (VStr (("lib" +:+ String backslash "src") +:+ String slash "a.js")) = Some "a.js".
Proof. apply (basename_slash ("lib" +:+ String backslash "src") "a.js"). reflexivity. Defined.

(** X2. In a path without any slash [basename] cuts after the last
    backslash: when neither [dir] nor [name] holds a slash and [name]
    holds no backslash, [basename] of [dir], a backslash and [name] is
    [name]. *)
Theorem basename_backslash dir name :
  occurs slash dir = false → occurs slash name = false → occurs backslash name = false →
  basename (VStr (dir +:+ String backslash name)) = Some name.
Proof.
  intros Hdir Hname Hback. unfold basename. rewrite truthy_app. simpl.
  rewrite (lastIndexOf_absent slash (dir +:+ String backslash name)).
  2: { rewrite occurs_app. cbn [occurs]. by rewrite Hdir, Hname. }
  simpl. rewrite (lastIndexOf_last backslash dir name Hback).
  replace (Z.to_nat (Z.of_nat (String.length dir) + 1)) with (S (String.length dir)) by lia.
  by rewrite substringFrom_app.
Qed.

Lemma basename_backslash_witness :
  basename (VStr ("C:" +:+ String backslash "a.js")) = Some "a.js".
Proof. apply (basename_backslash "C:" "a.js"); reflexivity. Defined.

Lemma basename_nonempty s :
  s ≠ "" →
  basename (VStr s) =
  Some (substringFrom
          (Z.to_nat ((if (lastIndexOf slash s =? -1)%Z
                      then lastIndexOf backslash s else lastIndexOf slash s) + 1)) s).
Proof. by destruct s. Qed.

Lemma lastIndexOf_occurs c s : lastIndexOf c s = (-1)%Z → occurs c s = false.
Proof.
  induction s as [|a s IH]; [done|]. simpl.
  pose proof (lastIndexOf_ge c s).
  destruct (Z.eqb_spec (lastIndexOf c s) (-1)) as [E|E]; [|lia].
  destruct (Ascii.eqb a c); [done|]. intros _. by apply IH.
Qed.

(** X3. On every string [basename] returns a string without a slash:
    ["<???>"] for the empty string, and otherwise a suffix of its
    argument.  When the argument has no slash the result has no
    backslash either, and an argument with neither separator is
    returned as it is. *)
Theorem basename_of_string s :
  ∃ b, basename (VStr s) = Some b
       ∧ occurs slash b = false
       ∧ (if String.eqb s "" then b = "<???>" else ∃ p, s = p +:+ b)
       ∧ (occurs slash s = false →
          occurs backslash b = false
          ∧ (occurs backslash s = false → s ≠ "" → b = s)).
Proof.
  destruct (String.eqb_spec s "") as [->|Hs].
  { exists "<???>". repeat split; done. }
  rewrite (basename_nonempty s Hs). eexists. split; [reflexivity|].
  destruct (Z.eqb_spec (lastIndexOf slash s) (-1)) as [E|E].
  - pose proof (lastIndexOf_occurs slash s E) as Hslash.
    split; [by apply occurs_substringFrom|]. split; [apply substringFrom_suffix|].
    intros _. split; [apply occurs_after_last|].
    intros Hb _. by rewrite (lastIndexOf_absent backslash s Hb).
  - split; [apply occurs_after_last|]. split; [apply substringFrom_suffix|].
    intros Hslash. by rewrite (lastIndexOf_absent slash s Hslash) in E.
Qed.

(** *** Positions *)

Lemma append_sep_inj c x x' d d' :
  occurs c d = false → occurs c d' = false →
  x +:+ String c d = x' +:+ String c d' → x = x' ∧ d = d'.
Proof.
  intros Hd Hd'. revert x'. induction x as [|a x IH]; intros [|a' x'] Heq.
  - rewrite !append_nil_l in Heq. by injection Heq as ->.
  - rewrite append_nil_l, append_cons in Heq. injection Heq as -> ->.
    rewrite occurs_app in Hd. simpl in Hd. rewrite Ascii.eqb_refl in Hd.
    by rewrite orb_true_r in Hd.
  - rewrite append_nil_l, append_cons in Heq. injection Heq as -> <-.
    rewrite occurs_app in Hd'. simpl in Hd'. rewrite Ascii.eqb_refl in Hd'.
    by rewrite orb_true_r in Hd'.
  - rewrite !append_cons in Heq. injection Heq as -> Heq.
    destruct (IH x' Heq) as [-> ->]. done.
Qed.

Lemma digits_free c d :
  c = at_sign ∨ c = colon ∨ c = dash → occurs c (NilEmpty.string_of_uint d) = false.
Proof.
  intros [->|[->| ->]]; induction d; simpl; by rewrite ?IHd.
Qed.

Lemma string_of_Z_free c n :
  c = at_sign ∨ c = colon ∨ c = dash → (0 ≤ n)%Z → occurs c (string_of_Z n) = false.
Proof.
  intros Hc Hn. unfold string_of_Z. destruct n as [|p|p]; [|simpl|lia].
  - by destruct Hc as [->|[->| ->]].
  - unfold NilZero.string_of_uint.
    destruct (Pos.to_uint p) eqn:E; try by (rewrite <- E || idtac); apply digits_free.
    by destruct Hc as [->|[->| ->]].
Qed.

Lemma string_of_Z_inj n m : string_of_Z n = string_of_Z m → n = m.
Proof.
  unfold string_of_Z. intros H. apply DecimalZ.to_int_inj.
  assert (∀ k, Z.to_int k ≠ Decimal.Pos Decimal.Nil ∧ Z.to_int k ≠ Decimal.Neg Decimal.Nil)
    as Hnil.
  { intros [|p|p]; simpl; split; try done; intros [= E];
      by apply (Unsigned.to_uint_nonnil p). }
  apply (f_equal NilZero.int_of_string) in H.
  rewrite !NilZero.isi in H by apply Hnil. by injection H.
Qed.

Lemma render_inj b l a e b' l' a' e' :
  (0 ≤ l)%Z → (0 ≤ a)%Z → (0 ≤ e)%Z → (0 ≤ l')%Z → (0 ≤ a')%Z → (0 ≤ e')%Z →
  b +:+ "@" +:+ string_of_Z l +:+ ":" +:+ string_of_Z a +:+ "-" +:+ string_of_Z e
  = b' +:+ "@" +:+ string_of_Z l' +:+ ":" +:+ string_of_Z a' +:+ "-" +:+ string_of_Z e' →
  b = b' ∧ l = l' ∧ a = a' ∧ e = e'.
Proof.
  intros Hl Ha He Hl' Ha' He' Heq.
  assert (∀ x y z w,
            x +:+ "@" +:+ y +:+ ":" +:+ z +:+ "-" +:+ w
            = ((x +:+ String at_sign y) +:+ String colon z) +:+ String dash w) as Hassoc.
  { intros. by rewrite !append_assoc. }
  rewrite !Hassoc in Heq.
  apply append_sep_inj in Heq as [Heq E]; [|apply string_of_Z_free; auto..].
  apply append_sep_inj in Heq as [Heq A]; [|apply string_of_Z_free; auto..].
  apply append_sep_inj in Heq as [Heq L]; [|apply string_of_Z_free; auto..].
  by apply string_of_Z_inj in E, A, L.
Qed.

Lemma ppPos_located nd l a e s :
  located nd l a e → ppPos nd = Some s →
  ∃ b, basename (get (get nd "attr") "enclosingFile") = Some b
       ∧ s = b +:+ "@" +:+ string_of_Z l +:+ ":" +:+ string_of_Z a +:+ "-" +:+ string_of_Z e.
Proof.
  intros (Hline & Hfrom & Hto & _) H. unfold ppPos in H.
  apply bind_Some in H as (attr & Hattr & H).
  apply bind_Some in H as (file & Hfile & H).
  apply bind_Some in H as (base & Hbase & H).
  apply bind_Some in H as (start & Hstart & H).
  apply bind_Some in H as (line & Hl & H).
  rewrite Hfrom, Hto in H. simpl in H. injection H as <-.
  assert (attr = get nd "attr") as -> by (by destruct nd; simplify_eq/=).
  assert (file = get (get nd "attr") "enclosingFile") as ->
    by (by destruct (get nd "attr"); simplify_eq/=).
  assert (start = get (get nd "loc") "start") as ->
    by (by destruct (get nd "loc"); simplify_eq/=).
  assert (line = VNum l) as ->.
  { rewrite <- Hline. by destruct (get (get nd "loc") "start"); simplify_eq/=. }
  by exists base.
Qed.

(** X4. [ppPos] tells positions apart: two nodes with a numeric,
    non-negative line and range that are printed alike have the same
    line and the same range, and their files have the same base name
    (the directory of the file is not printed). *)
Theorem ppPos_injective nd1 nd2 l1 a1 e1 l2 a2 e2 s :
  located nd1 l1 a1 e1 → located nd2 l2 a2 e2 →
  ppPos nd1 = Some s → ppPos nd2 = Some s →
  basename (get (get nd1 "attr") "enclosingFile")
  = basename (get (get nd2 "attr") "enclosingFile")
  ∧ l1 = l2 ∧ a1 = a2 ∧ e1 = e2.
Proof.
  intros H1 H2 Hs1 Hs2.
  destruct (ppPos_located nd1 l1 a1 e1 s H1 Hs1) as (b1 & Hb1 & E1).
  destruct (ppPos_located nd2 l2 a2 e2 s H2 Hs2) as (b2 & Hb2 & E2).
  destruct H1 as (_ & _ & _ & ? & ? & ?), H2 as (_ & _ & _ & ? & ? & ?).
  rewrite E1 in E2. apply render_inj in E2 as (-> & -> & -> & ->); [|done..].
  by rewrite Hb1, Hb2.
Qed.

Lemma ppPos_injective_witness :
  ppPos Sample.positioned = Some "a.js@3:40-52"
  ∧ (basename (get (get Sample.positioned "attr") "enclosingFile")
     = basename (get (get Sample.positioned "attr") "enclosingFile")
     ∧ 3 = 3 ∧ 40 = 40 ∧ 52 = 52)%Z.
Proof.
  split; [reflexivity|].
  apply (ppPos_injective Sample.positioned Sample.positioned 3 40 52 3 40 52 "a.js@3:40-52");
    try reflexivity; repeat split; try reflexivity; lia.
Defined.

(** *** Predicates *)

Lemma get_setProp p q v fs :
  get (setProp p v (VObj fs)) q = if String.eqb p q then v else get (VObj fs) q.
Proof.
  simpl. induction fs as [|[r w] fs IH]; simpl.
  - done.
  - destruct (String.eqb_spec r p) as [->|Hrp]; simpl.
    + by destruct (String.eqb_spec p q).
    + destruct (String.eqb_spec r q) as [->|Hrq].
      * by destruct (String.eqb_spec p q) as [->|].
      * done.
Qed.

Lemma get_setProp_ne p q v nd : p ≠ q → get (setProp p v nd) q = get nd q.
Proof.
  intros Hne. destruct nd as [| | | | | |fs]; try done.
  rewrite get_setProp. by destruct (String.eqb_spec p q).
Qed.

Lemma getx_setProp_ne p q v nd : p ≠ q → getx (setProp p v nd) q = getx nd q.
Proof.
  intros Hne. destruct nd as [| | | | | |fs]; try done.
  unfold getx. change (VObj (assign_prop p v fs)) with (setProp p v (VObj fs)).
  by rewrite get_setProp_ne.
Qed.

Lemma isModuleExports_computed nd c :
  isModuleExports (setProp "left" (setProp "computed" c (get nd "left")) nd)
  = isModuleExports nd.
Proof.
  destruct nd as [| | | | | |fs]; try done.
  set (left := get (VObj fs) "left").
  unfold isModuleExports.
  rewrite (getx_setProp_ne "left" "type") by done.
  rewrite get_setProp. cbn [String.eqb Ascii.eqb Bool.eqb]. fold left.
  rewrite (getx_setProp_ne "computed" "type") by done.
  by rewrite !(get_setProp_ne "computed" "object"), !(get_setProp_ne "computed" "property").
Qed.

Lemma getx_typed nd p t : get nd p = VStr t → getx nd p = Some (VStr t).
Proof. intros H. destruct nd; simpl in *; try done. by rewrite H. Qed.

Lemma getx_get nd p v : getx nd p = Some v → v = get nd p.
Proof. destruct nd; simpl; intros H; by simplify_eq. Qed.

Lemma strictEqStr_VStr v s : strictEqStr v s = true ↔ v = VStr s.
Proof.
  destruct v; simpl; try (split; [done|by intros [=]]).
  rewrite String.eqb_eq. split; [by intros ->|by intros [= ->]].
Qed.

(** X5. [isModuleExports] answers [true] exactly for an assignment
    whose left side is a member expression with the identifier [module]
    as object and the identifier [exports] as property; and its answer
    does not depend on [left.computed], so that [module[exports] = ..]
    is taken for [module.exports = ..]. *)
Theorem isModuleExports_spec nd :
  (isModuleExports nd = Some true
   ↔ get nd "type" = VStr "AssignmentExpression"
     ∧ get (get nd "left") "type" = VStr "MemberExpression"
     ∧ get (get (get nd "left") "object") "type" = VStr "Identifier"
     ∧ get (get (get nd "left") "property") "type" = VStr "Identifier"
     ∧ get (get (get nd "left") "object") "name" = VStr "module"
     ∧ get (get (get nd "left") "property") "name" = VStr "exports")
  ∧ ∀ c, isModuleExports (setProp "left" (setProp "computed" c (get nd "left")) nd)
         = isModuleExports nd.
Proof.
  split; [|intros c; apply isModuleExports_computed].
  unfold isModuleExports. split.
  - intros H. apply bind_Some in H as (t & Ht & H). apply getx_get in Ht as ->.
    destruct (strictEqStr (get nd "type") "AssignmentExpression") eqn:E1; [|done].
    simpl in H. apply bind_Some in H as (t & Ht & H). apply getx_get in Ht as ->.
    destruct (strictEqStr (get (get nd "left") "type") "MemberExpression") eqn:E2; [|done].
    simpl in H. apply bind_Some in H as (t & Ht & H). apply getx_get in Ht as ->.
    destruct (strictEqStr (get (get (get nd "left") "object") "type") "Identifier") eqn:E3;
      [|done].
    simpl in H. apply bind_Some in H as (t & Ht & H). apply getx_get in Ht as ->.
    destruct (strictEqStr (get (get (get nd "left") "property") "type") "Identifier") eqn:E4;
      [|done].
    simpl in H. injection H as H. apply andb_true_iff in H as [E5 E6].
    by rewrite !strictEqStr_VStr in *.
  - intros (E1 & E2 & E3 & E4 & E5 & E6).
    rewrite (getx_typed _ _ _ E1), (getx_typed _ _ _ E2), (getx_typed _ _ _ E3),
      (getx_typed _ _ _ E4). simpl. by rewrite E5, E6.
Qed.

Lemma visitProp_lookup p fs parent cp st :
  visitProp doVisit p fs parent cp st = doVisit (lookup_prop p fs) None noKey parent cp st.
Proof.
  induction fs as [|[q v] fs IH]; simpl; [done|].
  by destruct (String.eqb q p).
Qed.

Lemma visitKeyValue_lookup fs parent cp st :
  visitKeyValue doVisit fs parent cp st
  = doVisit (get (lookup_prop "key" fs) "value") None noKey parent cp st.
Proof.
  induction fs as [|[q v] fs IH]; simpl; [done|].
  destruct (String.eqb q "key"); [|done].
  destruct v; try done. apply visitProp_lookup.
Qed.

Lemma listProp_lookup p fs enc file :
  listProp listing p fs enc file = listing (lookup_prop p fs) enc file.
Proof.
  induction fs as [|[q v] fs IH]; simpl; [done|].
  by destruct (String.eqb q p).
Qed.

Lemma allFields_lookup (P : value → bool) p fs :
  P VUndef = true → allFields P fs = true → magic p = false → P (lookup_prop p fs) = true.
Proof.
  intros Hundef Hall Hp. induction fs as [|[q v] fs IH]; simpl in *; [done|].
  apply andb_true_iff in Hall as [Hv Hall].
  destruct (String.eqb_spec q p) as [->|Hne]; [|by apply IH].
  by rewrite Hp in Hv.
Qed.

Lemma inert_get nd p : inert nd = true → magic p = false → inert (get nd p) = true.
Proof.
  intros H Hp. destruct nd as [| | | | | |fs]; try done.
  simpl in H. rewrite !andb_true_iff in H. destruct H as [_ Hall].
  by apply allFields_lookup.
Qed.

Lemma tidy_get fs p : tidy (VObj fs) = true → magic p = false → tidy (lookup_prop p fs) = true.
Proof.
  intros H Hp. simpl in H. rewrite !andb_true_iff in H. destruct H as [_ Hall].
  by apply allFields_lookup.
Qed.

(** *** Inert subtrees *)

Lemma inert_type nd :
  inert nd = true →
  isFunctionType nd = false ∧ isCallType nd = false
  ∧ strictEqStr (get nd "type") "Program" = false
  ∧ strictEqStr (get nd "type") "MethodDefinition" = false.
Proof.
  destruct nd as [| | | | | |fs]; try done. simpl.
  rewrite !andb_true_iff, !negb_true_iff. tauto.
Qed.

Lemma not_function_not_expression nd :
  isFunctionType nd = false → strictEqStr (get nd "type") "FunctionExpression" = false.
Proof.
  unfold isFunctionType. rewrite !orb_false_iff. tauto.
Qed.

Lemma inert_visitFields ndv kvc fs :
  Forall (λ pv, inert pv.2 = true → idleNode pv.2) fs →
  allFields inert fs = true →
  ∀ st st', visitFields doVisit ndv None None kvc fs st = Some st' → st' = st.
Proof.
  induction 1 as [|[p v] fs Hv _ IH]; intros Hall st st' Hrun; simpl in *.
  { by injection Hrun as <-. }
  apply andb_true_iff in Hall as [Hpv Hall].
  destruct (magic p); [by apply IH|]. simpl in Hpv.
  apply bind_Some in Hrun as (st1 & Hchild & Hrest).
  assert (st1 = st) as ->.
  { destruct (String.eqb p "id"); [by eapply Hv|].
    destruct (String.eqb p "value"); by eapply Hv. }
  by apply IH.
Qed.

Lemma inert_visitElements arr xs :
  Forall (λ x, inert x = true → idleNode x) xs →
  allElements inert xs = true →
  ∀ i st st', visitElements doVisit arr i xs st = Some st' → st' = st.
Proof.
  induction 1 as [|x xs Hx _ IH]; intros Hall i st st' Hrun; simpl in *.
  { by injection Hrun as <-. }
  apply andb_true_iff in Hall as [Hix Hall].
  apply bind_Some in Hrun as (st1 & Hchild & Hrest).
  assert (st1 = st) as -> by by eapply Hx.
  by eapply IH.
Qed.

Lemma inert_idle nd : inert nd = true → idleNode nd.
Proof.
  induction nd as [| | | | |xs IH|fs IH] using value_nested_ind; intros Hinert.
  1-5: by intros pk parent cp st st' [= <-].
  - intros pk parent cp st st' Hrun. simpl in Hrun, Hinert. unfold visitArray in Hrun.
    apply bind_Some in Hrun as (st1 & Hloop & [= <-]).
    by eapply inert_visitElements.
  - intros pk parent cp st st' Hrun.
    destruct (inert_type _ Hinert) as (Hfun & Hcall & Hprog & Hmeth).
    simpl in Hinert. rewrite !andb_true_iff in Hinert. destruct Hinert as [_ Hall].
    simpl in Hrun. unfold visitObject in Hrun. cbv zeta in Hrun.
    rewrite Hprog in Hrun.
    unfold propertyNaming in Hrun. rewrite (not_function_not_expression _ Hfun) in Hrun.
    cbn [andb mbind option_bind] in Hrun. rewrite Hfun in Hrun.
    unfold methodNaming in Hrun. rewrite Hmeth in Hrun.
    cbn [mbind option_bind] in Hrun. rewrite Hcall in Hrun.
    assert (∀ kvc, visitChildren doVisit (VObj fs) None None kvc fs st = Some st' → st' = st)
      as Hkids.
    { intros kvc H. unfold visitChildren in H.
      apply bind_Some in H as (st1 & Hloop & [= <-]).
      by eapply inert_visitFields. }
    destruct (truthy (get (VObj fs) "type")); by eapply Hkids.
Qed.

Lemma inert_listing nd : inert nd = true → ∀ enc file, listing nd enc file = ([], file).
Proof.
  induction nd as [| | | | |xs IH|fs IH] using value_nested_ind; intros Hinert enc file;
    try done.
  - simpl in *. revert file. induction IH as [|x xs Hx _ IHxs]; intros file; [done|].
    simpl in *. apply andb_true_iff in Hinert as [Hix Hall].
    by rewrite (Hx Hix), (IHxs Hall).
  - destruct (inert_type _ Hinert) as (Hfun & Hcall & Hprog & Hmeth).
    simpl in Hinert. rewrite !andb_true_iff in Hinert. destruct Hinert as [_ Hall].
    simpl. unfold listObject. rewrite Hprog, Hfun. clear Hfun Hcall Hprog Hmeth.
    revert file. induction IH as [|[p v] fs Hv _ IHfs]; intros file; [done|].
    simpl in *. apply andb_true_iff in Hall as [Hpv Hall].
    destruct (magic p); [by apply IHfs|]. simpl in Hpv.
    by rewrite (Hv Hpv), (IHfs Hall).
Qed.

(** *** The registry lists the functions of the tree *)

Lemma lists_refl st : lists ([], enclosingFile st) st st.
Proof. split; [done|]. split; [done|]. exists []. by rewrite app_nil_r. Qed.

Lemma lists_seq out1 out2 st st1 st2 :
  lists out1 st st1 → lists out2 st1 st2 → lists (out1.1 ++ out2.1, out2.2) st st2.
Proof.
  intros (He1 & Hf1 & new1 & Hn1 & Hs1) (He2 & Hf2 & new2 & Hn2 & Hs2).
  split; [congruence|]. split; [done|].
  exists (new1 ++ new2). rewrite Hn2, Hn1, <- app_assoc. split; [done|].
  by rewrite fmap_app, Hs1, Hs2.
Qed.

Lemma lists_from out st0 st st' :
  functions st = functions st0 → enclosingFunction st = enclosingFunction st0 →
  lists out st st' → lists out st0 st'.
Proof.
  intros Hf He (He' & Hfile & new & Hnew & Hsum).
  split; [congruence|]. split; [done|]. exists new. by rewrite <- Hf.
Qed.

Lemma lists_enc out st st' : lists out st st' → encOf st' = encOf st.
Proof. intros (He & _). unfold encOf. by rewrite He. Qed.

Lemma listed_lookup p fs :
  Forall (λ pv, listed pv.2) fs → listed (lookup_prop p fs).
Proof.
  induction 1 as [|[q v] fs Hv _ IH]; simpl.
  - intros asg pk parent cp st st' _ _ _ [= <-]. apply lists_refl.
  - by destruct (String.eqb q p).
Qed.

Lemma distinct_lookup fs p v :
  distinctKeys fs = true → (p, v) ∈ fs → lookup_prop p fs = v.
Proof.
  induction fs as [|[q w] fs IH]; intros Hd Hin; [by apply elem_of_nil in Hin|].
  simpl in Hd. apply andb_true_iff in Hd as [Hq Hd]. apply negb_true_iff in Hq.
  simpl. apply elem_of_cons in Hin as [[= -> ->]|Hin].
  - by rewrite String.eqb_refl.
  - destruct (String.eqb_spec q p) as [->|Hne]; [|by apply IH].
    exfalso. apply not_true_iff_false in Hq. apply Hq. unfold has_prop.
    apply existsb_exists. exists (p, v). split; [by apply list_elem_of_In|].
    apply String.eqb_refl.
Qed.

Lemma idleAssignment_None nd : idleAssignment None nd.
Proof. intros k c [=]. Qed.

Lemma idle_skip : idle skip.
Proof. by intros parent cp st st' [= <-]. Qed.

Lemma idleKeys_noKey parent : idleKeys noKey parent.
Proof. intros _. split; apply idle_skip. Qed.

Section listingLoops.
Context (ndv : value) (asg vasg : assignment) (kvc : keyVisit).
Hypothesis Hkvc : idleKeys kvc ndv.

Lemma visitFields_lists fs :
  Forall (λ pv, listed pv.2) fs →
  allFields tidy fs = true →
  (∀ k c, asg = Some (k, c) → idle c ∧ ∀ v, ("id", v) ∈ fs → inert v = true) →
  (∀ k c, vasg = Some (k, c) →
     idle c ∧ ∀ v, ("value", v) ∈ fs → inert (get v "id") = true) →
  ∀ st st', visitFields doVisit ndv asg vasg kvc fs st = Some st' →
    lists (listFields listing (encOf st) fs (enclosingFile st)) st st'.
Proof.
  induction 1 as [|[p v] fs Hv _ IH]; intros Htidy Hasg Hvasg st st' Hrun; simpl in *.
  { injection Hrun as <-. apply lists_refl. }
  apply andb_true_iff in Htidy as [Hpv Htidy].
  assert (∀ k c, asg = Some (k, c) → idle c ∧ ∀ v, ("id", v) ∈ fs → inert v = true) as Hasg'.
  { intros k c E. destruct (Hasg k c E) as [Hc Hid]. split; [done|].
    intros w Hw. apply Hid. by right. }
  assert (∀ k c, vasg = Some (k, c) →
            idle c ∧ ∀ v, ("value", v) ∈ fs → inert (get v "id") = true) as Hvasg'.
  { intros k c E. destruct (Hvasg k c E) as [Hc Hid]. split; [done|].
    intros w Hw. apply Hid. by right. }
  destruct (magic p) eqn:Hmagic; [by apply IH|]. simpl in Hpv.
  apply bind_Some in Hrun as (st1 & Hchild & Hrest).
  assert (lists (listing v (encOf st) (enclosingFile st)) st st1) as Hhere.
  { destruct (String.eqb_spec p "id") as [->|Hid].
    - destruct asg as [[k visitId]|] eqn:Easg.
      + destruct (Hasg k visitId eq_refl) as [Hidle Hinert].
        rewrite (Hidle _ _ _ _ Hchild).
        rewrite (inert_listing v) by (apply Hinert; by left). apply lists_refl.
      + eapply Hv; [done|apply idleAssignment_None|exact Hkvc|exact Hchild].
    - eapply Hv; [done| |exact Hkvc|exact Hchild].
      destruct (String.eqb_spec p "value") as [->|Hvalue]; [|apply idleAssignment_None].
      intros k c E. destruct (Hvasg k c E) as [Hidle Hinert]. split; [done|].
      apply Hinert. by left. }
  specialize (IH Htidy Hasg' Hvasg' st1 st' Hrest).
  rewrite (lists_enc _ _ _ Hhere) in IH.
  destruct Hhere as (He & Hf & Hnew). rewrite Hf in IH.
  destruct (listing v (encOf st) (enclosingFile st)) as [here file1].
  simpl in *.
  destruct (listFields listing (encOf st) fs file1) as [rest file2].
  eapply (lists_seq (here, file1) (rest, file2)); [|exact IH].
  by split.
Qed.

Lemma visitChildren_lists fs :
  Forall (λ pv, listed pv.2) fs →
  allFields tidy fs = true →
  (∀ k c, asg = Some (k, c) → idle c ∧ ∀ v, ("id", v) ∈ fs → inert v = true) →
  (∀ k c, vasg = Some (k, c) →
     idle c ∧ ∀ v, ("value", v) ∈ fs → inert (get v "id") = true) →
  ∀ st st', visitChildren doVisit ndv asg vasg kvc fs st = Some st' →
    lists (listFields listing (encOf st) fs (enclosingFile st)) st st'.
Proof.
  intros Hfs Htidy Hasg Hvasg st st' Hrun. unfold visitChildren in Hrun.
  apply bind_Some in Hrun as (st1 & Hloop & Hrest).
  pose proof (visitFields_lists fs Hfs Htidy Hasg Hvasg st st1 Hloop) as Hlists.
  destruct asg as [[k visitId]|] eqn:Easg; [|by injection Hrest as <-].
  destruct (has_prop "id" fs); [by injection Hrest as <-|].
  destruct (Hasg k visitId eq_refl) as [Hidle _].
  by rewrite (Hidle _ _ _ _ Hrest).
Qed.
End listingLoops.

Lemma visitElements_lists arr xs :
  Forall listed xs →
  allElements tidy xs = true →
  ∀ i st st', visitElements doVisit arr i xs st = Some st' →
    lists (listElements listing (encOf st) xs (enclosingFile st)) st st'.
Proof.
  induction 1 as [|x xs Hx _ IH]; intros Htidy i st st' Hrun; simpl in *.
  { injection Hrun as <-. apply lists_refl. }
  apply andb_true_iff in Htidy as [Htx Htidy].
  apply bind_Some in Hrun as (st1 & Hchild & Hrest).
  assert (lists (listing x (encOf st) (enclosingFile st)) st st1) as Hhere.
  { eapply Hx; [done|apply idleAssignment_None|apply idleKeys_noKey|exact Hchild]. }
  specialize (IH Htidy _ st1 st' Hrest).
  rewrite (lists_enc _ _ _ Hhere) in IH.
  destruct Hhere as (He & Hf & Hnew). rewrite Hf in IH.
  destruct (listing x (encOf st) (enclosingFile st)) as [here file1].
  simpl in *.
  destruct (listElements listing (encOf st) xs file1) as [rest file2].
  eapply (lists_seq (here, file1) (rest, file2)); [|exact IH].
  by split.
Qed.

Lemma visitArray_listed xs : Forall listed xs → listed (VArr xs).
Proof.
  intros Hxs asg pk parent cp st st' Htidy Hasg Hpk Hrun.
  simpl in Hrun, Htidy |- *. unfold visitArray in Hrun.
  apply bind_Some in Hrun as (st1 & Hloop & Hrest).
  pose proof (visitElements_lists _ xs Hxs Htidy 0 st st1 Hloop) as Hlists.
  destruct asg as [[k visitId]|] eqn:Easg; [|by injection Hrest as <-].
  destruct (Hasg k visitId eq_refl) as [Hidle _].
  by rewrite (Hidle _ _ _ _ Hrest).
Qed.

Lemma untyped_strictEqStr t s : truthy t = false → s ≠ "" → strictEqStr t s = false.
Proof.
  destruct t as [| | | |u| |]; simpl; try done. intros H Hs.
  apply negb_false_iff, String.eqb_eq in H as ->. apply String.eqb_neq. congruence.
Qed.

Lemma untyped_plain nd :
  truthy (get nd "type") = false →
  isFunctionType nd = false ∧ strictEqStr (get nd "type") "Program" = false.
Proof.
  intros H. unfold isFunctionType. by rewrite !(untyped_strictEqStr _ _ H).
Qed.

Lemma function_not_program nd :
  isFunctionType nd = true → strictEqStr (get nd "type") "Program" = false.
Proof.
  unfold isFunctionType. destruct (get nd "type") as [| | | |t| |]; simpl; try done.
  rewrite !orb_true_iff, !String.eqb_eq. by intros [[->| ->]| ->].
Qed.

Lemma pendingNode_get asg fs p : p ≠ "id" → get (pendingNode asg fs) p = get (VObj fs) p.
Proof.
  intros Hp. destruct asg as [[k c]|]; simpl; [|done]. by apply lookup_assign_ne.
Qed.

Lemma namedNode_get pn nd p : p ≠ "id" → get (namedNode pn nd) p = get nd p.
Proof. intros Hp. destruct pn; simpl; by rewrite ?get_setId_ne. Qed.

Lemma isFunctionType_pendingNode asg fs :
  isFunctionType (pendingNode asg fs) = isFunctionType (VObj fs).
Proof. unfold isFunctionType. by rewrite pendingNode_type. Qed.

Lemma propertyNaming_keyed nd parent pn :
  propertyNaming nd parent = Some pn →
  match pn with
  | NameKey _ | NameLiteral _ => truthy (get parent "computed") = false
  | _ => True
  end.
Proof.
  unfold propertyNaming.
  destruct (strictEqStr (get nd "type") "FunctionExpression" && truthy parent
            && strictEqStr (get parent "type") "Property"); [|by intros [= <-]].
  destruct (truthy (get parent "computed")); simpl; [by intros [= <-]|].
  intros H. apply bind_Some in H as (kt & _ & H).
  destruct (strictEqStr kt "Identifier"); [by injection H as <-|].
  destruct (strictEqStr kt "Literal"); by injection H as <-.
Qed.

Lemma methodNaming_key nd k :
  methodNaming nd = Some (NameKey k) →
  strictEqStr (get nd "type") "MethodDefinition" = true
  ∧ truthy (get nd "computed") = false.
Proof.
  unfold methodNaming.
  destruct (strictEqStr (get nd "type") "MethodDefinition"); [|done].
  destruct (truthy (get nd "computed")); simpl; [done|]. done.
Qed.

Lemma idle_key fs :
  inert (get (VObj fs) "key") = true →
  idle (visitProp doVisit "key" fs) ∧ idle (visitKeyValue doVisit fs).
Proof.
  intros Hkey. split; intros parent cp st st' Hrun.
  - rewrite visitProp_lookup in Hrun. by eapply (inert_idle _ Hkey).
  - rewrite visitKeyValue_lookup in Hrun.
    eapply (inert_idle (get (lookup_prop "key" fs) "value")); [|exact Hrun].
    by apply inert_get.
Qed.

Lemma visitObject_listed fs :
  Forall (λ pv, listed pv.2) fs → listed (VObj fs).
Proof.
  intros Hfs asg pk parent cp st st' Htidy Hasg Hpk Hrun.
  cbn [tidy] in Htidy. rewrite !andb_true_iff in Htidy.
  destruct Htidy as ((((Hdist & Hfunid) & Hkey) & Hmeth) & Hall).
  assert (∀ k c, asg = Some (k, c) → idle c ∧ ∀ v, ("id", v) ∈ fs → inert v = true)
    as Hasg'.
  { intros k c E. destruct (Hasg k c E) as [Hc Hid]. split; [done|].
    intros v Hv. by rewrite <- (distinct_lookup fs "id" v Hdist Hv). }
  simpl in Hrun. unfold visitObject in Hrun. cbv zeta in Hrun.
  change (match asg with
          | Some (k, _) => VObj (assign_prop "id" k fs)
          | None => VObj fs
          end) with (pendingNode asg fs) in Hrun.
  set (nd0 := pendingNode asg fs) in *.
  set (kvc := {| kv_key := visitProp doVisit "key" fs;
                 kv_value := visitKeyValue doVisit fs |}) in *.
  assert (∀ ndv, get ndv "computed" = get (VObj fs) "computed" → idleKeys kvc ndv) as Hkvc.
  { intros ndv E Hc. rewrite E in Hc. rewrite Hc in Hkey. by apply idle_key. }
  assert (get nd0 "type" = get (VObj fs) "type") as Htype by apply pendingNode_type.
  cbn [listing]. unfold listObject. cbv zeta.
  destruct (truthy (get nd0 "type")) eqn:Htruthy; cycle 1.
  { rewrite Htype in Htruthy. destruct (untyped_plain _ Htruthy) as [-> ->].
    eapply (visitChildren_lists nd0 asg None kvc); eauto.
    - apply Hkvc. by apply pendingNode_get.
    - intros k c [=]. }
  set (sta := if strictEqStr (get nd0 "type") "Program"
              then setEnclosingFile (get (get nd0 "attr") "filename") st else st) in *.
  assert (functions sta = functions st ∧ enclosingFunction sta = enclosingFunction st
          ∧ enclosingFile sta
            = (if strictEqStr (get (VObj fs) "type") "Program"
               then get (get (VObj fs) "attr") "filename" else enclosingFile st))
    as (Hfa & Hea & Hfile).
  { assert (get nd0 "attr" = get (VObj fs) "attr") as Hattr by by apply pendingNode_get.
    subst sta. rewrite Htype, Hattr.
    destruct (strictEqStr (get (VObj fs) "type") "Program"); simpl; auto. }
  clearbody sta.
  apply bind_Some in Hrun as (pn & Hpn & Hrun).
  set (visitId0 := match asg with
                   | Some (_, visitId) => visitId
                   | None => visitProp doVisit "id" fs
                   end) in *.
  destruct (match pn with
            | NameKey k => (setId k nd0, kv_key pk, sta)
            | NameLiteral k =>
                (setId (identifierOfLiteral k) nd0,
                 (λ _ _, kv_value pk (identifierOfLiteral k) (VStr "name")) : visit_t, sta)
            | NameWarn msg => (nd0, visitId0, log msg sta)
            | NameNone => (nd0, visitId0, sta)
            end) as [[nd1 visitId] stb] eqn:Etriple.
  assert (nd1 = namedNode pn nd0
          ∧ functions stb = functions st ∧ enclosingFunction stb = enclosingFunction st
          ∧ enclosingFile stb = enclosingFile sta
          ∧ (isFunctionType (VObj fs) = true → idle visitId))
    as (-> & Hfb & Heb & Hfileb & Hvid).
  { pose proof (propertyNaming_keyed _ _ _ Hpn) as Hkeyed.
    assert (isFunctionType (VObj fs) = true → idle visitId0) as Hid0.
    { intros Hfun. subst visitId0. destruct asg as [[k c]|] eqn:E.
      - by destruct (Hasg k c eq_refl).
      - rewrite Hfun in Hfunid. intros parent' cp' st1 st2 Hgo.
        rewrite visitProp_lookup in Hgo. by eapply (inert_idle _ Hfunid). }
    destruct pn; injection Etriple as <- <- <-; simpl; repeat split; try done.
    - intros _. by destruct (Hpk Hkeyed).
    - intros _ parent' cp' st1 st2 Hgo. destruct (Hpk Hkeyed) as [_ Hv]. by eapply Hv. }
  clear Etriple. rewrite Hfile in Hfileb. clear Hfile Hfa Hea sta.
  assert (isFunctionType (namedNode pn nd0) = isFunctionType (VObj fs)) as Hfun1.
  { rewrite isFunctionType_namedNode. apply isFunctionType_pendingNode. }
  rewrite Hfun1 in Hrun.
  destruct (isFunctionType (VObj fs)) eqn:Hfun.
  - (* a function *)
    rewrite (function_not_program _ Hfun) in Hfileb |- *.
    destruct (register (VObj fs) (namedNode pn nd0) parent cp stb) as [f stc] eqn:Ereg.
    assert (f = (register (VObj fs) (namedNode pn nd0) parent cp stb).1) as Hf
      by by rewrite Ereg.
    assert (stc = (register (VObj fs) (namedNode pn nd0) parent cp stb).2) as Hstc
      by by rewrite Ereg.
    apply bind_Some in Hrun as (st1 & Hrun1 & Hrun).
    apply bind_Some in Hrun as (st2 & Hrun2 & Hrun).
    apply bind_Some in Hrun as (st3 & Hrun3 & Hrun).
    injection Hrun as <-.
    rewrite (Hvid eq_refl _ _ _ _ Hrun1) in Hrun2. clear Hrun1 st1.
    set (std := setEnclosingFunction (Some f) stc) in *.
    assert (functions stc = functions stb ++ [f] ∧ enclosingFile stc = enclosingFile stb
            ∧ f_source f = VObj fs ∧ f_enclosingFunction f = enclosingFunction stb
            ∧ f_enclosingFile f = fileAttr (enclosingFile stb))
      as (Hfc & Hfilec & Hsrc & Hencf & Hfilef).
    { rewrite Hstc, Hf. by repeat split. }
    assert (functions std = functions st ++ [f] ∧ encOf std = Some (VObj fs)
            ∧ enclosingFile std = enclosingFile st) as (Hfd & Hed & Hfiled).
    { subst std. unfold encOf. simpl. by rewrite Hfc, Hfb, Hsrc, Hfilec, Hfileb. }
    clear Hf Hstc Ereg.
    rewrite visitProp_lookup in Hrun2, Hrun3.
    pose proof (listed_lookup "params" fs Hfs None noKey VUndef VUndef std st2
                  (allFields_lookup tidy "params" fs eq_refl Hall eq_refl)
                  (idleAssignment_None _) (idleKeys_noKey _) Hrun2) as Hparams.
    pose proof (listed_lookup "body" fs Hfs None noKey VUndef VUndef st2 st3
                  (allFields_lookup tidy "body" fs eq_refl Hall eq_refl)
                  (idleAssignment_None _) (idleKeys_noKey _) Hrun3) as Hbody.
    rewrite (lists_enc _ _ _ Hparams) in Hbody.
    rewrite Hed, Hfiled in Hparams. rewrite Hed in Hbody.
    rewrite listProp_lookup, (inert_listing _ Hfunid), listProp_lookup.
    destruct Hparams as (He2 & Hf2 & new2 & Hn2 & Hs2).
    rewrite Hf2 in Hbody.
    destruct (listing (lookup_prop "params" fs) (Some (VObj fs)) (enclosingFile st))
      as [params file2].
    rewrite listProp_lookup.
    destruct Hbody as (He3 & Hf3 & new3 & Hn3 & Hs3).
    cbn [fst snd] in *.
    destruct (listing (lookup_prop "body" fs) (Some (VObj fs)) file2) as [body file3].
    cbn [fst snd] in *.
    split; [done|]. split; [done|].
    exists (f :: new2 ++ new3). split.
    + cbn [functions setEnclosingFunction]. rewrite Hn3, Hn2, Hfd, <- !app_assoc. done.
    + rewrite fmap_cons, fmap_app, Hs2, Hs3. cbn [app]. f_equal.
      unfold summary. by rewrite Hsrc, Hencf, Hfilef, Heb, Hfileb.
  - (* any other node *)
    assert (pn = NameNone) as ->.
    { eapply propertyNaming_function; [exact Hpn|].
      unfold nd0. by rewrite isFunctionType_pendingNode. }
    cbn [namedNode] in *.
    apply bind_Some in Hrun as (mn & Hmn & Hrun).
    assert (∃ fs0, nd0 = VObj fs0) as [fs0 Hnd0].
    { subst nd0. unfold pendingNode. destruct asg as [[? ?]|]; eauto. }
    assert (∀ p, p ≠ "id" → get nd0 p = get (VObj fs) p) as Hsame.
    { intros p Hp. by apply pendingNode_get. }
    destruct (match mn with
              | NameKey k =>
                  (match nd0 with
                   | VObj fs1 => VObj (assign_prop "value" (setId k (get nd0 "value")) fs1)
                   | _ => nd0
                   end, Some (k, visitProp doVisit "key" fs), stb)
              | NameWarn msg => (nd0, None, log msg stb)
              | _ => (nd0, None, stb)
              end) as [[ndv vasg] stc] eqn:Etriple.
    assert (get ndv "computed" = get (VObj fs) "computed"
            ∧ functions stc = functions st ∧ enclosingFunction stc = enclosingFunction st
            ∧ enclosingFile stc = enclosingFile stb
            ∧ (∀ k c, vasg = Some (k, c) →
                 idle c ∧ ∀ v, ("value", v) ∈ fs → inert (get v "id") = true))
      as (Hcomputed & Hfc & Hec & Hfilec & Hvasg).
    { assert (∀ k c, @None (value * visit_t) = Some (k, c) →
                idle c ∧ ∀ v, ("value", v) ∈ fs → inert (get v "id") = true) as Hnone
        by (by intros k c [=]).
      destruct mn as [k|k|msg|]; injection Etriple as <- <- <-.
      - destruct (methodNaming_key _ _ Hmn) as [Hm Hc].
        rewrite (Hsame "type") in Hm by done. rewrite (Hsame "computed") in Hc by done.
        rewrite Hm in Hmeth. rewrite Hc in Hkey.
        split.
        { rewrite <- (Hsame "computed") by done. rewrite Hnd0. simpl.
          by rewrite lookup_assign_ne. }
        split; [done|]. split; [done|]. split; [done|].
        intros k' c' [= <- <-]. split; [by apply idle_key|].
        intros v Hv. by rewrite <- (distinct_lookup fs "value" v Hdist Hv).
      - split; [by apply Hsame|]. by split; [|split; [|split]].
      - split; [by apply Hsame|]. by split; [|split; [|split]].
      - split; [by apply Hsame|]. by split; [|split; [|split]]. }
    clear Etriple.
    set (std := if isCallType nd0 then pushCall ndv stc else stc) in *.
    assert (functions std = functions st ∧ enclosingFunction std = enclosingFunction st
            ∧ enclosingFile std = enclosingFile stb) as (Hfd & Hed & Hfiled).
    { subst std. by destruct (isCallType nd0). }
    pose proof (visitChildren_lists ndv asg vasg kvc (Hkvc ndv Hcomputed) fs Hfs Hall
                  Hasg' Hvasg std st' Hrun) as Hlists.
    unfold encOf in Hlists. rewrite Hed, Hfiled, Hfileb in Hlists.
    by eapply lists_from.
Qed.

Lemma doVisit_listed nd : listed nd.
Proof.
  induction nd as [| | | | |xs IH|fs IH] using value_nested_ind.
  1-5: intros asg pk parent cp st st' _ _ _ [= <-]; apply lists_refl.
  - by apply visitArray_listed.
  - by apply visitObject_listed.
Qed.

Lemma init_listing root st :
  tidy root = true → init root = Some st →
  summary <$> functions st = (listing root None VNull).1.
Proof.
  intros Htidy Hinit.
  assert (∀ st', doVisit root None noKey VUndef VUndef initial = Some st' →
                 summary <$> functions st' = (listing root None VNull).1) as Hrun.
  { intros st' H.
    destruct (doVisit_listed root None noKey VUndef VUndef initial st' Htidy
                (idleAssignment_None _) (idleKeys_noKey _) H) as (_ & _ & new & Hnew & Hsum).
    by rewrite Hnew. }
  unfold init in Hinit.
  destruct (get root "attr"); try done; try by apply Hrun.
  all: apply bind_Some in Hinit as (st1 & H1 & H2); apply Hrun;
    destruct (functions st1), (calls st1); by simplify_eq.
Qed.

(** X16. On a tree in which no object repeats a property name and in
    which function ids, non-computed keys and the ids of method values
    are plain nodes, the registry [init] leaves lists the functions of
    the tree in pre-order, magic properties left out and, below a
    function, id, params and body only; each with the innermost
    function around it as enclosing function and with the file name of
    the last [Program] entered before it as enclosing file. *)
Theorem init_lists_functions root st :
  tidy root = true → init root = Some st →
  summary <$> functions st = (listing root None VNull).1.
Proof. apply init_listing. Qed.

Lemma init_lists_functions_witness :
  ∃ st, init Sample.classMethods = Some st
        ∧ summary <$> functions st = (listing Sample.classMethods None VNull).1.
Proof.
  destruct (init Sample.classMethods) as [st|] eqn:E; [|vm_compute in E; discriminate E].
  exists st. split; [reflexivity|].
  apply (init_lists_functions Sample.classMethods st); [vm_compute; reflexivity|exact E].
Defined.

(** *** Labels of anonymous functions *)

Lemma string_of_nat_inj a b : string_of_nat a = string_of_nat b → a = b.
Proof.
  unfold string_of_nat. intros H.
  assert (∀ d, option_map Nat.of_uint (NilZero.uint_of_string (NilZero.string_of_uint d))
               = Some (Nat.of_uint d)) as Hback.
  { intros d. destruct d; [reflexivity|rewrite NilZero.usu by done; reflexivity..]. }
  pose proof (Hback (Nat.to_uint a)) as Ha. pose proof (Hback (Nat.to_uint b)) as Hb.
  rewrite H, Hb, !DecimalNat.Unsigned.of_to in Ha. by injection Ha.
Qed.

Lemma omap_filter_NoDup {A B} (h : A → option B) (P : A → Prop) `{∀ x, Decision (P x)}
    (l : list A) i j x y a b :
  NoDup (omap h (filter P l)) →
  l !! i = Some x → l !! j = Some y → i ≠ j → P x → P y →
  h x = Some a → h y = Some b → a ≠ b.
Proof.
  revert i j. induction l as [|z l IH]; intros i j Hnd Hi Hj Hij Hx Hy Ha Hb; [done|].
  assert (∀ w c, w ∈ l → P w → h w = Some c → c ∈ omap h (filter P l)) as Hin.
  { intros w c Hw HP Hc. apply list_elem_of_omap. exists w. split; [|done].
    by apply list_elem_of_filter. }
  rewrite filter_cons in Hnd.
  destruct i as [|i], j as [|j]; simpl in *; [done| | |].
  - injection Hi as ->. rewrite decide_True in Hnd by done. simpl in Hnd. rewrite Ha in Hnd.
    apply NoDup_cons in Hnd as [Hnotin _]. intros E. apply Hnotin.
    apply (Hin y a); [by eapply list_elem_of_lookup_2|done|by rewrite E].
  - injection Hj as ->. rewrite decide_True in Hnd by done. simpl in Hnd. rewrite Hb in Hnd.
    apply NoDup_cons in Hnd as [Hnotin _]. intros E. apply Hnotin.
    apply (Hin x b); [by eapply list_elem_of_lookup_2|done|by rewrite <- E].
  - eapply (IH i j); eauto.
    destruct (decide (P z)); [|done]. simpl in Hnd.
    destruct (h z); [by apply NoDup_cons in Hnd as [_ ?]|done].
Qed.

Lemma willBeAnonymous_true nd parent :
  willBeAnonymous nd parent = true →
  isNull (get nd "id") = true ∧ hasParentName parent = false.
Proof.
  unfold willBeAnonymous. destruct (isNull (get nd "id")); [|done].
  intros H. by apply negb_true_iff in H.
Qed.

(** X19. After [init], two different registry entries that get an
    anonymous index and have the same enclosing function have
    different labels: [funcname] tells the anonymous functions of one
    scope apart. *)
Theorem anonymous_labels_distinct root st i j f g lf lg :
  init root = Some st →
  functions st !! i = Some f → functions st !! j = Some g → i ≠ j →
  f_enclosingFunction f = f_enclosingFunction g →
  willBeAnonymous (f_node f) (f_parent f) = true →
  willBeAnonymous (f_node g) (f_parent g) = true →
  funcname f = Some lf → funcname g = Some lg →
  lf ≠ lg.
Proof.
  intros Hinit Hi Hj Hij Henc Hf Hg Hlf Hlg.
  pose proof (init_invariant root st Hinit) as Hinv.
  assert (f ∈ functions st) as Hfin by by eapply list_elem_of_lookup_2.
  assert (g ∈ functions st) as Hgin by by eapply list_elem_of_lookup_2.
  destruct (willBeAnonymous_true _ _ Hf) as [Hfid Hfp].
  destruct (willBeAnonymous_true _ _ Hg) as [Hgid Hgp].
  destruct (init_anonymous root st f Hinit Hfin Hfid Hfp) as (a & Ha & Hnf).
  destruct (init_anonymous root st g Hinit Hgin Hgid Hgp) as (b & Hb & Hng).
  assert (a ≠ b) as Hab.
  { pose proof (inv_counters st Hinv (encKey f)) as Hcnt.
    eapply (omap_filter_NoDup f_anonIndex (λ h, encKey h = encKey f) (functions st) i j f g);
      eauto.
    - unfold anonIndices in Hcnt. rewrite Hcnt. apply NoDup_seq.
    - unfold encKey. by rewrite Henc. }
  rewrite Hlf in Hnf. rewrite Hlg, <- Henc in Hng.
  destruct (encFuncName (f_enclosingFunction f)) as [P|]; [|done].
  simpl in Hnf, Hng. injection Hnf as ->. injection Hng as ->.
  unfold anonLabel. intros [= Heq]. apply Hab.
  apply String.app_inj in Heq. apply String.app_inj in Heq.
  apply string_of_nat_inj.
  revert Heq. generalize (string_of_nat a) (string_of_nat b).
  induction s as [|c s IH]; intros [|c' s'] Heq; try done.
  - injection Heq as _ Heq. by destruct s'.
  - injection Heq as _ Heq. by destruct s.
  - injection Heq as -> Heq. f_equal. by apply IH.
Qed.

(** X21. The label [funcname] gives to a function that got an
    anonymous index is never the bare name [anon] that [isAnon] looks
    for: it is [P:anon[i]], so [isAnon] answers [false] on it. *)
Theorem anonymous_never_anon root st f l :
  init root = Some st → f ∈ functions st →
  willBeAnonymous (f_node f) (f_parent f) = true →
  funcname f = Some l → isAnon l = false.
Proof.
  intros Hinit Hf Hanon Hl.
  destruct (willBeAnonymous_true _ _ Hanon) as [Hid Hparent].
  destruct (init_anonymous root st f Hinit Hf Hid Hparent) as (a & Ha & Hname).
  rewrite Hl in Hname.
  destruct (encFuncName (f_enclosingFunction f)) as [P|]; [|done].
  simpl in Hname. injection Hname as ->. unfold isAnon, anonLabel. simpl.
  apply String.eqb_neq. intros Heq.
  apply (f_equal (occurs bracket)) in Heq.
  rewrite !occurs_app in Heq. simpl in Heq. by rewrite !orb_true_r in Heq.
Qed.

Lemma anonymous_never_anon_witness :
  ∃ st f l, init Sample.singleCallback = Some st ∧ functions st !! 0 = Some f
            ∧ funcname f = Some l ∧ isAnon l = false.
Proof.
  destruct (init Sample.singleCallback) as [st|] eqn:E;
    [|vm_compute in E; discriminate E].
  destruct (functions st !! 0) as [f|] eqn:Ef;
    [|exfalso; revert Ef; vm_compute in E; injection E as <-; discriminate].
  destruct (funcname f) as [l|] eqn:El;
    [|exfalso; revert Ef El; vm_compute in E; injection E as <-; intros [= <-]; discriminate].
  exists st, f, l. split; [reflexivity|]. split; [exact Ef|]. split; [exact El|].
  assert (f ∈ functions st) as Hin by (by eapply list_elem_of_lookup_2).
  assert (willBeAnonymous (f_node f) (f_parent f) = true) as Hanon.
  { revert Ef. vm_compute in E. injection E as <-. intros [= <-]. by vm_compute. }
  exact (anonymous_never_anon Sample.singleCallback st f l E Hin Hanon El).
Defined.

Lemma anonymous_labels_distinct_witness :
  ∃ st f g lf lg,
    init Sample.twoCallbacks = Some st
    ∧ functions st !! 0 = Some f ∧ functions st !! 1 = Some g
    ∧ funcname f = Some lf ∧ funcname g = Some lg ∧ lf ≠ lg.
Proof.
  destruct (init Sample.twoCallbacks) as [st|] eqn:E;
    [|vm_compute in E; discriminate E].
  destruct (functions st !! 0) as [f|] eqn:Ef;
    [|exfalso; revert Ef; vm_compute in E; injection E as <-; discriminate].
  destruct (functions st !! 1) as [g|] eqn:Eg;
    [|exfalso; revert Eg; vm_compute in E; injection E as <-; discriminate].
  destruct (funcname f) as [lf|] eqn:Elf;
    [|exfalso; revert Ef Elf; vm_compute in E; injection E as <-; intros [= <-]; discriminate].
  destruct (funcname g) as [lg|] eqn:Elg;
    [|exfalso; revert Eg Elg; vm_compute in E; injection E as <-; intros [= <-]; discriminate].
  exists st, f, g, lf, lg. split; [reflexivity|].
  split; [exact Ef|]. split; [exact Eg|]. split; [exact Elf|]. split; [exact Elg|].
  assert (f_enclosingFunction f = f_enclosingFunction g
          ∧ willBeAnonymous (f_node f) (f_parent f) = true
          ∧ willBeAnonymous (f_node g) (f_parent g) = true) as (Henc & Hf & Hg).
  { revert Ef Eg. vm_compute in E. injection E as <-. intros [= <-] [= <-]. by vm_compute. }
  apply (anonymous_labels_distinct Sample.twoCallbacks st 0 1 f g lf lg E Ef Eg); try done.
Defined.

(** *** The console lists the warnings of the tree *)

Lemma warnProp_lookup p fs parent :
  warnProp warnings p fs parent = warnings (lookup_prop p fs) parent.
Proof.
  induction fs as [|[q v] fs IH]; simpl; [done|].
  by destruct (String.eqb q p).
Qed.

Lemma keyWarning_context nd parent parent' :
  sameContext parent parent' → keyWarning nd parent = keyWarning nd parent'.
Proof. intros (Ht & Hty & Hc & Hk). unfold keyWarning. by rewrite Ht, Hty, Hc, Hk. Qed.

Lemma warnings_context nd parent parent' :
  sameContext parent parent' → warnings nd parent = warnings nd parent'.
Proof.
  intros H. destruct nd as [| | | | | |fs]; try done.
  simpl. unfold warnObject. by rewrite (keyWarning_context _ _ _ H).
Qed.

Lemma warnFields_context fs parent parent' :
  sameContext parent parent' →
  warnFields warnings parent fs = warnFields warnings parent' fs.
Proof.
  intros H. induction fs as [|[p v] fs IH]; simpl; [done|].
  destruct (magic p); [done|]. by rewrite IH, (warnings_context _ _ _ H).
Qed.

Lemma keyWarning_other nd parent :
  strictEqStr (get nd "type") "FunctionExpression" = false → keyWarning nd parent = [].
Proof. intros H. unfold keyWarning. by rewrite H. Qed.

Lemma inert_warnings nd : inert nd = true → ∀ parent, warnings nd parent = [].
Proof.
  induction nd as [| | | | |xs IH|fs IH] using value_nested_ind; intros Hinert parent;
    try done.
  - simpl in *. generalize (VArr xs) as arr.
    induction IH as [|x xs Hx _ IHxs]; intros arr; [done|].
    simpl in *. apply andb_true_iff in Hinert as [Hix Hall].
    by rewrite (Hx Hix), (IHxs Hall).
  - destruct (inert_type _ Hinert) as (Hfun & Hcall & Hprog & Hmeth).
    simpl in Hinert. rewrite !andb_true_iff in Hinert. destruct Hinert as [_ Hall].
    simpl. unfold warnObject.
    rewrite (keyWarning_other _ _ (not_function_not_expression _ Hfun)), Hfun.
    unfold methodWarnings, methodWarning. rewrite Hmeth. simpl.
    clear Hfun Hcall Hprog Hmeth. generalize (VObj fs) as nd.
    induction IH as [|[p v] fs0 Hv _ IHfs]; intros nd; [done|].
    simpl in *. apply andb_true_iff in Hall as [Hpv Hall].
    destruct (magic p); [by apply IHfs|]. simpl in Hpv.
    by rewrite (Hv Hpv), (IHfs Hall).
Qed.

Lemma printed_lookup p fs :
  Forall (λ pv, printed pv.2) fs → printed (lookup_prop p fs).
Proof.
  induction 1 as [|[q v] fs Hv _ IH]; simpl.
  - intros asg pk parent cp st st' _ _ _ [= <-]. by rewrite app_nil_r.
  - by destruct (String.eqb q p).
Qed.

Section printingLoops.
Context (ndv : value) (asg vasg : assignment) (kvc : keyVisit).
Hypothesis Hkvc : idleKeys kvc ndv.

Lemma visitFields_prints fs :
  Forall (λ pv, printed pv.2) fs →
  allFields tidy fs = true →
  (∀ k c, asg = Some (k, c) → idle c ∧ ∀ v, ("id", v) ∈ fs → inert v = true) →
  (∀ k c, vasg = Some (k, c) →
     idle c ∧ ∀ v, ("value", v) ∈ fs → inert (get v "id") = true) →
  ∀ st st', visitFields doVisit ndv asg vasg kvc fs st = Some st' →
    console st' = console st ++ warnFields warnings ndv fs.
Proof.
  induction 1 as [|[p v] fs Hv _ IH]; intros Htidy Hasg Hvasg st st' Hrun; simpl in *.
  { injection Hrun as <-. by rewrite app_nil_r. }
  apply andb_true_iff in Htidy as [Hpv Htidy].
  assert (∀ k c, asg = Some (k, c) → idle c ∧ ∀ v, ("id", v) ∈ fs → inert v = true) as Hasg'.
  { intros k c E. destruct (Hasg k c E) as [Hc Hid]. split; [done|].
    intros w Hw. apply Hid. by right. }
  assert (∀ k c, vasg = Some (k, c) →
            idle c ∧ ∀ v, ("value", v) ∈ fs → inert (get v "id") = true) as Hvasg'.
  { intros k c E. destruct (Hvasg k c E) as [Hc Hid]. split; [done|].
    intros w Hw. apply Hid. by right. }
  destruct (magic p) eqn:Hmagic; [by apply IH|]. simpl in Hpv.
  apply bind_Some in Hrun as (st1 & Hchild & Hrest).
  assert (console st1 = console st ++ warnings v ndv) as Hhere.
  { destruct (String.eqb_spec p "id") as [->|Hid].
    - destruct asg as [[k visitId]|] eqn:Easg.
      + destruct (Hasg k visitId eq_refl) as [Hidle Hinert].
        rewrite (Hidle _ _ _ _ Hchild).
        rewrite (inert_warnings v) by (apply Hinert; by left). by rewrite app_nil_r.
      + eapply Hv; [done|apply idleAssignment_None|exact Hkvc|exact Hchild].
    - eapply Hv; [done| |exact Hkvc|exact Hchild].
      destruct (String.eqb_spec p "value") as [->|Hvalue]; [|apply idleAssignment_None].
      intros k c E. destruct (Hvasg k c E) as [Hidle Hinert]. split; [done|].
      apply Hinert. by left. }
  rewrite (IH Htidy Hasg' Hvasg' st1 st' Hrest), Hhere. by rewrite <- app_assoc.
Qed.

Lemma visitChildren_prints fs :
  Forall (λ pv, printed pv.2) fs →
  allFields tidy fs = true →
  (∀ k c, asg = Some (k, c) → idle c ∧ ∀ v, ("id", v) ∈ fs → inert v = true) →
  (∀ k c, vasg = Some (k, c) →
     idle c ∧ ∀ v, ("value", v) ∈ fs → inert (get v "id") = true) →
  ∀ st st', visitChildren doVisit ndv asg vasg kvc fs st = Some st' →
    console st' = console st ++ warnFields warnings ndv fs.
Proof.
  intros Hfs Htidy Hasg Hvasg st st' Hrun. unfold visitChildren in Hrun.
  apply bind_Some in Hrun as (st1 & Hloop & Hrest).
  pose proof (visitFields_prints fs Hfs Htidy Hasg Hvasg st st1 Hloop) as Hprints.
  destruct asg as [[k visitId]|] eqn:Easg; [|by injection Hrest as <-].
  destruct (has_prop "id" fs); [by injection Hrest as <-|].
  destruct (Hasg k visitId eq_refl) as [Hidle _].
  by rewrite (Hidle _ _ _ _ Hrest).
Qed.
End printingLoops.

Lemma visitElements_prints arr xs :
  Forall printed xs →
  allElements tidy xs = true →
  ∀ i st st', visitElements doVisit arr i xs st = Some st' →
    console st' = console st ++ warnElements warnings arr xs.
Proof.
  induction 1 as [|x xs Hx _ IH]; intros Htidy i st st' Hrun; simpl in *.
  { injection Hrun as <-. by rewrite app_nil_r. }
  apply andb_true_iff in Htidy as [Htx Htidy].
  apply bind_Some in Hrun as (st1 & Hchild & Hrest).
  assert (console st1 = console st ++ warnings x arr) as Hhere.
  { eapply Hx; [done|apply idleAssignment_None|apply idleKeys_noKey|exact Hchild]. }
  rewrite (IH Htidy _ st1 st' Hrest), Hhere. by rewrite <- app_assoc.
Qed.

Lemma visitArray_printed xs : Forall printed xs → printed (VArr xs).
Proof.
  intros Hxs asg pk parent cp st st' Htidy Hasg Hpk Hrun.
  simpl in Hrun, Htidy |- *. unfold visitArray in Hrun.
  apply bind_Some in Hrun as (st1 & Hloop & Hrest).
  pose proof (visitElements_prints _ xs Hxs Htidy 0 st st1 Hloop) as Hprints.
  destruct asg as [[k visitId]|] eqn:Easg; [|by injection Hrest as <-].
  destruct (Hasg k visitId eq_refl) as [Hidle _].
  by rewrite (Hidle _ _ _ _ Hrest).
Qed.

Lemma propertyNaming_warning nd parent pn :
  propertyNaming nd parent = Some pn →
  match pn with NameWarn msg => [msg] | _ => [] end = keyWarning nd parent.
Proof.
  unfold propertyNaming, keyWarning.
  destruct (strictEqStr (get nd "type") "FunctionExpression" && truthy parent
            && strictEqStr (get parent "type") "Property"); [|by intros [= <-]].
  destruct (truthy (get parent "computed")); simpl; [by intros [= <-]|].
  intros H. apply bind_Some in H as (kt & Hkt & H).
  assert (get (get parent "key") "type" = kt) as ->.
  { unfold getx in Hkt. by destruct (get parent "key"); simplify_eq. }
  destruct (strictEqStr kt "Identifier"); [by injection H as <-|].
  destruct (strictEqStr kt "Literal"); by injection H as <-.
Qed.

Lemma methodNaming_warning nd mn :
  methodNaming nd = Some mn →
  match mn with NameWarn msg => [msg] | _ => [] end = methodWarnings nd.
Proof.
  intros H. apply methodNaming_inv in H. unfold methodWarnings.
  destruct mn; try done; by destruct H as [_ ->].
Qed.

Lemma keyWarning_pending asg fs parent :
  keyWarning (pendingNode asg fs) parent = keyWarning (VObj fs) parent.
Proof. unfold keyWarning. by rewrite pendingNode_type. Qed.

Lemma methodWarnings_same nd nd' :
  get nd "type" = get nd' "type" → get nd "computed" = get nd' "computed" →
  get nd "key" = get nd' "key" → methodWarnings nd = methodWarnings nd'.
Proof. intros Ht Hc Hk. unfold methodWarnings, methodWarning. by rewrite Ht, Hc, Hk. Qed.

Lemma visitObject_printed fs :
  Forall (λ pv, printed pv.2) fs → printed (VObj fs).
Proof.
  intros Hfs asg pk parent cp st st' Htidy Hasg Hpk Hrun.
  cbn [tidy] in Htidy. rewrite !andb_true_iff in Htidy.
  destruct Htidy as ((((Hdist & Hfunid) & Hkey) & Hmeth) & Hall).
  assert (∀ k c, asg = Some (k, c) → idle c ∧ ∀ v, ("id", v) ∈ fs → inert v = true)
    as Hasg'.
  { intros k c E. destruct (Hasg k c E) as [Hc Hid]. split; [done|].
    intros v Hv. by rewrite <- (distinct_lookup fs "id" v Hdist Hv). }
  simpl in Hrun. unfold visitObject in Hrun. cbv zeta in Hrun.
  change (match asg with
          | Some (k, _) => VObj (assign_prop "id" k fs)
          | None => VObj fs
          end) with (pendingNode asg fs) in Hrun.
  set (nd0 := pendingNode asg fs) in *.
  set (kvc := {| kv_key := visitProp doVisit "key" fs;
                 kv_value := visitKeyValue doVisit fs |}) in *.
  assert (∀ ndv, get ndv "computed" = get (VObj fs) "computed" → idleKeys kvc ndv) as Hkvc.
  { intros ndv E Hc. rewrite E in Hc. rewrite Hc in Hkey. by apply idle_key. }
  assert (get nd0 "type" = get (VObj fs) "type") as Htype by apply pendingNode_type.
  assert (∀ p, p ≠ "id" → get nd0 p = get (VObj fs) p) as Hsame.
  { intros p Hp. by apply pendingNode_get. }
  assert (∃ fs0, nd0 = VObj fs0) as [fs0 Hnd0].
  { subst nd0. unfold pendingNode. destruct asg as [[? ?]|]; eauto. }
  assert (sameContext nd0 (VObj fs)) as Hc0.
  { split; [by rewrite Hnd0|]. by split; [|split]; apply Hsame. }
  cbn [warnings]. unfold warnObject. cbv zeta.
  destruct (truthy (get nd0 "type")) eqn:Htruthy; cycle 1.
  { rewrite Htype in Htruthy. destruct (untyped_plain _ Htruthy) as [Hfun _].
    rewrite Hfun.
    rewrite keyWarning_other by (by apply untyped_strictEqStr).
    assert (methodWarnings (VObj fs) = []) as ->.
    { unfold methodWarnings, methodWarning. by rewrite (untyped_strictEqStr _ _ Htruthy). }
    simpl.
    rewrite (visitChildren_prints nd0 asg None kvc (Hkvc nd0 (Hsame "computed" ltac:(done)))
               fs Hfs Hall Hasg' ltac:(by intros k c [=]) st st' Hrun).
    f_equal. by apply warnFields_context. }
  set (sta := if strictEqStr (get nd0 "type") "Program"
              then setEnclosingFile (get (get nd0 "attr") "filename") st else st) in *.
  assert (console sta = console st) as Hca.
  { subst sta. by destruct (strictEqStr (get nd0 "type") "Program"). }
  clearbody sta.
  apply bind_Some in Hrun as (pn & Hpn & Hrun).
  set (visitId0 := match asg with
                   | Some (_, visitId) => visitId
                   | None => visitProp doVisit "id" fs
                   end) in *.
  destruct (match pn with
            | NameKey k => (setId k nd0, kv_key pk, sta)
            | NameLiteral k =>
                (setId (identifierOfLiteral k) nd0,
                 (λ _ _, kv_value pk (identifierOfLiteral k) (VStr "name")) : visit_t, sta)
            | NameWarn msg => (nd0, visitId0, log msg sta)
            | NameNone => (nd0, visitId0, sta)
            end) as [[nd1 visitId] stb] eqn:Etriple.
  assert (nd1 = namedNode pn nd0
          ∧ console stb = console st ++ keyWarning (VObj fs) parent
          ∧ (isFunctionType (VObj fs) = true → idle visitId))
    as (-> & Hcb & Hvid).
  { pose proof (propertyNaming_keyed _ _ _ Hpn) as Hkeyed.
    pose proof (propertyNaming_warning _ _ _ Hpn) as Hwarn.
    unfold nd0 in Hwarn. rewrite keyWarning_pending in Hwarn. rewrite <- Hwarn.
    assert (isFunctionType (VObj fs) = true → idle visitId0) as Hid0.
    { intros Hfun. subst visitId0. destruct asg as [[k c]|] eqn:E.
      - by destruct (Hasg k c eq_refl).
      - rewrite Hfun in Hfunid. intros parent' cp' st1 st2 Hgo.
        rewrite visitProp_lookup in Hgo. by eapply (inert_idle _ Hfunid). }
    destruct pn; injection Etriple as <- <- <-; simpl; rewrite ?app_nil_r, ?Hca;
      (split; [done|]); (split; [done|]); try done.
    - intros _. by destruct (Hpk Hkeyed).
    - intros _ parent' cp' st1 st2 Hgo. destruct (Hpk Hkeyed) as [_ Hv]. by eapply Hv. }
  clear Etriple Hca sta.
  assert (isFunctionType (namedNode pn nd0) = isFunctionType (VObj fs)) as Hfun1.
  { rewrite isFunctionType_namedNode. apply isFunctionType_pendingNode. }
  rewrite Hfun1 in Hrun.
  destruct (isFunctionType (VObj fs)) eqn:Hfun.
  - (* a function *)
    destruct (register (VObj fs) (namedNode pn nd0) parent cp stb) as [f stc] eqn:Ereg.
    assert (console stc = console stb) as Hcc.
    { replace stc with (register (VObj fs) (namedNode pn nd0) parent cp stb).2
        by (by rewrite Ereg). done. }
    clear Ereg.
    apply bind_Some in Hrun as (st1 & Hrun1 & Hrun).
    apply bind_Some in Hrun as (st2 & Hrun2 & Hrun).
    apply bind_Some in Hrun as (st3 & Hrun3 & Hrun).
    injection Hrun as <-.
    rewrite (Hvid eq_refl _ _ _ _ Hrun1) in Hrun2. clear Hrun1 st1.
    rewrite visitProp_lookup in Hrun2, Hrun3.
    pose proof (printed_lookup "params" fs Hfs None noKey VUndef VUndef _ st2
                  (allFields_lookup tidy "params" fs eq_refl Hall eq_refl)
                  (idleAssignment_None _) (idleKeys_noKey _) Hrun2) as Hparams.
    pose proof (printed_lookup "body" fs Hfs None noKey VUndef VUndef st2 st3
                  (allFields_lookup tidy "body" fs eq_refl Hall eq_refl)
                  (idleAssignment_None _) (idleKeys_noKey _) Hrun3) as Hbody.
    cbn [console setEnclosingFunction] in Hparams |- *.
    rewrite !warnProp_lookup, (inert_warnings _ Hfunid).
    rewrite Hbody, Hparams, Hcc, Hcb. cbn [app]. by rewrite <- !app_assoc.
  - (* any other node *)
    assert (pn = NameNone) as ->.
    { eapply propertyNaming_function; [exact Hpn|].
      unfold nd0. by rewrite isFunctionType_pendingNode. }
    cbn [namedNode] in *.
    apply bind_Some in Hrun as (mn & Hmn & Hrun).
    destruct (match mn with
              | NameKey k =>
                  (match nd0 with
                   | VObj fs1 => VObj (assign_prop "value" (setId k (get nd0 "value")) fs1)
                   | _ => nd0
                   end, Some (k, visitProp doVisit "key" fs), stb)
              | NameWarn msg => (nd0, None, log msg stb)
              | _ => (nd0, None, stb)
              end) as [[ndv vasg] stc] eqn:Etriple.
    assert (sameContext ndv (VObj fs)
            ∧ console stc = console stb ++ methodWarnings (VObj fs)
            ∧ (∀ k c, vasg = Some (k, c) →
                 idle c ∧ ∀ v, ("value", v) ∈ fs → inert (get v "id") = true))
      as (Hcontext & Hcc & Hvasg).
    { assert (∀ k c, @None (value * visit_t) = Some (k, c) →
                idle c ∧ ∀ v, ("value", v) ∈ fs → inert (get v "id") = true) as Hnone
        by (by intros k c [=]).
      pose proof (methodNaming_warning _ _ Hmn) as Hwarn.
      rewrite (methodWarnings_same nd0 (VObj fs)) in Hwarn by (by apply Hsame).
      rewrite <- Hwarn.
      destruct mn as [k|k|msg|]; injection Etriple as <- <- <-; simpl;
        rewrite ?app_nil_r; try done.
      destruct (methodNaming_key _ _ Hmn) as [Hm Hc].
      rewrite (Hsame "type") in Hm by done. rewrite (Hsame "computed") in Hc by done.
      rewrite Hm in Hmeth. rewrite Hc in Hkey.
      split.
      { rewrite Hnd0. split; [done|]. simpl.
        rewrite !lookup_assign_ne by done.
        pose proof Hsame as Hsame0. rewrite Hnd0 in Hsame0.
        by split; [|split]; apply Hsame0. }
      split; [done|].
      intros k' c' [= <- <-]. split; [by apply idle_key|].
      intros v Hv. by rewrite <- (distinct_lookup fs "value" v Hdist Hv). }
    clear Etriple.
    set (std := if isCallType nd0 then pushCall ndv stc else stc) in *.
    assert (console std = console stc) as Hcd.
    { subst std. by destruct (isCallType nd0). }
    destruct Hcontext as (Ht & Hty & Hc & Hk).
    rewrite (visitChildren_prints ndv asg vasg kvc (Hkvc ndv Hc) fs Hfs Hall
               Hasg' Hvasg std st' Hrun).
    rewrite Hcd, Hcc, Hcb, <- !app_assoc.
    by rewrite (warnFields_context fs ndv (VObj fs)).
Qed.

Lemma doVisit_printed nd : printed nd.
Proof.
  induction nd as [| | | | |xs IH|fs IH] using value_nested_ind.
  1-5: intros asg pk parent cp st st' _ _ _ [= <-]; by rewrite app_nil_r.
  - by apply visitArray_printed.
  - by apply visitObject_printed.
Qed.

Lemma init_prints root st :
  tidy root = true → init root = Some st → console st = warnings root VUndef.
Proof.
  intros Htidy Hinit.
  assert (∀ st', doVisit root None noKey VUndef VUndef initial = Some st' →
                 console st' = warnings root VUndef) as Hrun.
  { intros st' H.
    by rewrite (doVisit_printed root None noKey VUndef VUndef initial st' Htidy
                  (idleAssignment_None _) (idleKeys_noKey _) H). }
  unfold init in Hinit.
  destruct (get root "attr"); try done; try by apply Hrun.
  all: apply bind_Some in Hinit as (st1 & H1 & H2); apply Hrun;
    destruct (functions st1), (calls st1); by simplify_eq.
Qed.

(** C5, as the code has it.  For every function on the registry, with
    [key] the key of its parent:
    - a [FunctionExpression] whose parent is a [Property]: a computed
      key gives a warning and leaves the node as parsed; an [Identifier]
      key becomes the id; a [Literal] key, whatever its spelling, gives
      the id [{type: 'Identifier', name: key.value, ..}]; any other key
      gives a warning and leaves the node as parsed;
    - the [value] of a [MethodDefinition]: a computed key gives a
      warning and leaves the node as parsed; an [Identifier] key becomes
      the id; a [Literal] key, whatever its spelling, and any other key
      give a warning and leave the node as parsed.
    And on a tree as the parser gives it ([tidy]) the console holds
    these warnings and nothing else, in the order of the walk: one for
    each function expression below a [Property] whose key is computed
    or neither an [Identifier] nor a [Literal], one for each
    [MethodDefinition] whose key is computed or not an [Identifier].
    A [Literal] key of a [Property] gives no warning. *)
Theorem names_from_keys root st f :
  init root = Some st → f ∈ functions st →
  let parent := f_parent f in
  let key := get parent "key" in
  (strictEqStr (get (f_source f) "type") "FunctionExpression" = true →
   strictEqStr (get parent "type") "Property" = true →
   if truthy (get parent "computed") then
     f_node f = f_source f ∧ warnComputed ∈ console st
   else if strictEqStr (get key "type") "Identifier" then
     f_node f = setId key (f_source f)
   else if strictEqStr (get key "type") "Literal" then
     f_node f = setId (identifierOfLiteral key) (f_source f)
   else f_node f = f_source f ∧ warnPropertyKey ∈ console st)
  ∧
  (strictEqStr (get parent "type") "MethodDefinition" = true →
   f_childProp f = VStr "value" →
   if truthy (get parent "computed") then
     f_node f = f_source f ∧ warnComputed ∈ console st
   else if strictEqStr (get key "type") "Identifier" then
     f_node f = setId key (f_source f)
   else if strictEqStr (get key "type") "Literal" then
     f_node f = f_source f ∧ warnMethodLiteral ∈ console st
   else f_node f = f_source f ∧ warnMethodKey ∈ console st)
  ∧
  (tidy root = true → console st = warnings root VUndef).
Proof.
  intros Hinit Hf.
  destruct (inv_named st (init_invariant root st Hinit) f Hf) as [H1 H2].
  split; [exact H1|]. split; [exact H2|].
  intros Htidy. by apply init_prints.
Qed.

Lemma names_from_keys_witness :
  ∃ st f, init Sample.objectLiteral = Some st ∧ functions st !! 1 = Some f
          ∧ f_node f = setId (identifierOfLiteral (get (f_parent f) "key")) (f_source f)
          ∧ funcname f = Some (VStr "foo-bar")
          ∧ console st = [warnComputed].
Proof.
  destruct (init Sample.objectLiteral) as [st|] eqn:E;
    [|vm_compute in E; discriminate E].
  destruct (functions st !! 1) as [f|] eqn:Ef;
    [|exfalso; revert Ef; vm_compute in E; injection E as <-; discriminate].
  exists st, f. split; [reflexivity|]. split; [exact Ef|].
  assert (f ∈ functions st) as Hin by (by eapply list_elem_of_lookup_2).
  destruct (names_from_keys Sample.objectLiteral st f E Hin) as (H & _ & Hconsole).
  assert (strictEqStr (get (f_source f) "type") "FunctionExpression" = true
          ∧ strictEqStr (get (f_parent f) "type") "Property" = true
          ∧ truthy (get (f_parent f) "computed") = false
          ∧ strictEqStr (get (get (f_parent f) "key") "type") "Identifier" = false
          ∧ strictEqStr (get (get (f_parent f) "key") "type") "Literal" = true
          ∧ funcname f = Some (VStr "foo-bar"))
    as (Hfe & Hp & Hc & Hk & Hl & Hname).
  { revert Ef. vm_compute in E. injection E as <-. intros [= <-]. by vm_compute. }
  specialize (H Hfe Hp). rewrite Hc, Hk, Hl in H.
  split; [exact H|]. split; [exact Hname|].
  rewrite Hconsole by (vm_compute; reflexivity). vm_compute. reflexivity.
Defined.

(** *** Anonymous indices, scope by scope *)

#[local] Existing Instance func_eq_decision.






End AstutilFacts.

(** ** [visit] on the object store *)

Module StoreFacts.
Import Store.

Lemma existsb_eqb_false k (r : list string) :
  existsb (String.eqb k) r = false → k ∉ r.
Proof.
  intros H Hin. apply not_true_iff_false in H. apply H.
  apply existsb_exists. exists k. split; [by apply list_elem_of_In|apply String.eqb_refl].
Qed.

Lemma distinct_cons k r :
  distinct (k :: r) = true → (k ∉ r) ∧ distinct r = true.
Proof.
  simpl. intros H. apply andb_true_iff in H as [H1 H2]. split; [|done].
  apply existsb_eqb_false. by apply negb_true_iff.
Qed.

Lemma below_within here ks x : below here ks x → within here x.
Proof.
  intros (p & rest & -> & _ & Hp & Hrest). exists (p :: rest).
  split; [done|by constructor].
Qed.

Lemma within_below here p ks x : plain p → p ∈ ks → within (here ++ [p]) x → below here ks x.
Proof.
  intros Hp Hin (rest & -> & Hrest). exists p, rest.
  split; [by rewrite <- app_assoc|done].
Qed.

Lemma below_mono here ks ks' x : ks ⊆ ks' → below here ks x → below here ks' x.
Proof.
  intros Hsub (p & rest & -> & Hin & Hp & Hrest). exists p, rest. split; [done|].
  split; [by apply Hsub|done].
Qed.

Lemma below_first here p ks rest :
  below here ks (here ++ p :: rest) → p ∈ ks.
Proof.
  intros (q & rest' & Heq & Hin & _). apply app_inv_head in Heq. by injection Heq as -> _.
Qed.

Lemma below_not_here here ks : ¬ below here ks here.
Proof.
  intros (p & rest & Heq & _).
  apply (f_equal length) in Heq. rewrite length_app in Heq. simpl in Heq. lia.
Qed.

(** Logs of two groups of properties with no name in common do not meet. *)
Lemma NoDup_groups here p ks (new1 new2 : list path) :
  p ∉ ks → NoDup new1 → NoDup new2 →
  (∀ x, x ∈ new1 → below here [p] x) → (∀ x, x ∈ new2 → below here ks x) →
  NoDup (new1 ++ new2).
Proof.
  intros Hp H1 H2 Hb1 Hb2. apply NoDup_app. split; [done|]. split; [|done].
  intros x Hx1 Hx2. destruct (Hb1 x Hx1) as (q & rest & -> & Hq & _).
  apply list_elem_of_singleton in Hq as ->.
  apply Hp. by eapply below_first, Hb2.
Qed.

Section run.
Context {S : Type}.
Variable visitor : S → loc → option loc → option string → S * reply S.
Variable h : store.
Hypothesis Hvisitor : disciplined visitor.

Lemma runs_prim fuel p : runs visitor h fuel (Prim p).
Proof.
  intros here parent cp s log. exists s, []. rewrite app_nil_r.
  split; [by destruct fuel|]. split; [constructor|].
  intros x Hx. by apply elem_of_nil in Hx.
Qed.

Lemma astUpTo_prop n p o :
  forallb (λ pv, Astutil.magic pv.1 || astUpTo h n pv.2) o = true →
  plain p → astUpTo h n (prop p o) = true.
Proof.
  intros Ho Hp. induction o as [|[q v] o IH]; simpl in *; [by destruct n|].
  apply andb_true_iff in Ho as [Hq Ho].
  destruct (String.eqb_spec q p) as [->|Hne]; [|by apply IH].
  unfold plain in Hp. by rewrite Hp in Hq.
Qed.

Section loops.
Variable rec : path → val → option loc → option string → S * list path → option (S * list path).
Variable n : nat.
Hypothesis Hrec : ∀ nd, astUpTo h n nd = true →
  ∀ here parent childProp s log,
    ∃ s' new, rec here nd parent childProp (s, log) = Some (s', log ++ new)
              ∧ NoDup new ∧ ∀ x, x ∈ new → within here x.

Lemma visitProperties_runs here l ps :
  distinct (map fst ps) = true →
  forallb (λ pv, Astutil.magic pv.1 || astUpTo h n pv.2) ps = true →
  ∀ s log,
    ∃ s' new, visitProperties rec here l ps (s, log) = Some (s', log ++ new)
              ∧ NoDup new ∧ ∀ x, x ∈ new → below here (map fst ps) x.
Proof.
  induction ps as [|[p v] r IH]; intros Hd Ha s log.
  { exists s, []. simpl. rewrite app_nil_r. split; [done|]. split; [constructor|].
    intros x Hx. by apply elem_of_nil in Hx. }
  simpl in Hd, Ha. apply distinct_cons in Hd as [Hp Hd].
  apply andb_true_iff in Ha as [Hv Ha]. simpl in Hv.
  simpl. destruct (Astutil.magic p) eqn:Hmagic.
  - destruct (IH Hd Ha s log) as (s' & new & Hrun & Hnd & Hbelow).
    exists s', new. split; [done|]. split; [done|].
    intros x Hx. eapply below_mono; [|by apply Hbelow].
    intros y Hy. apply elem_of_cons. by right.
  - simpl in Hv.
    destruct (Hrec v Hv (here ++ [p]) (Some l) (Some p) s log)
      as (s1 & new1 & Hrun1 & Hnd1 & Hin1).
    destruct (IH Hd Ha s1 (log ++ new1)) as (s2 & new2 & Hrun2 & Hnd2 & Hbelow2).
    exists s2, (new1 ++ new2). rewrite Hrun1. simpl. rewrite Hrun2, app_assoc.
    split; [done|].
    assert (∀ x, x ∈ new1 → below here [p] x) as Hbelow1.
    { intros x Hx. eapply within_below; [done| |by apply Hin1].
    by apply list_elem_of_singleton. }
    split; [by eapply NoDup_groups|].
    intros x Hx. apply elem_of_app in Hx as [Hx|Hx].
    + eapply below_mono; [|by apply Hbelow1].
      intros y Hy. apply list_elem_of_singleton in Hy as ->. apply elem_of_cons. by left.
    + eapply below_mono; [|by apply Hbelow2].
      intros y Hy. apply elem_of_cons. by right.
Qed.

Lemma visitOwn_runs here o ps :
  forallb (λ pv, Astutil.magic pv.1 || astUpTo h n pv.2) o = true →
  distinct ps = true → forallb (λ p, negb (Astutil.magic p)) ps = true →
  ∀ s log,
    ∃ s' new, visitOwn rec here o ps (s, log) = Some (s', log ++ new)
              ∧ NoDup new ∧ ∀ x, x ∈ new → below here ps x.
Proof.
  intros Ho. induction ps as [|p r IH]; intros Hd Hplain s log.
  { exists s, []. simpl. rewrite app_nil_r. split; [done|]. split; [constructor|].
    intros x Hx. by apply elem_of_nil in Hx. }
  apply distinct_cons in Hd as [Hp Hd]. simpl in Hplain.
  apply andb_true_iff in Hplain as [Hplainp Hplain]. apply negb_true_iff in Hplainp.
  destruct (Hrec (prop p o) (astUpTo_prop n p o Ho Hplainp) (here ++ [p]) None None s log)
    as (s1 & new1 & Hrun1 & Hnd1 & Hin1).
  destruct (IH Hd Hplain s1 (log ++ new1)) as (s2 & new2 & Hrun2 & Hnd2 & Hbelow2).
  exists s2, (new1 ++ new2). simpl. rewrite Hrun1. simpl. rewrite Hrun2, app_assoc.
  split; [done|].
  assert (∀ x, x ∈ new1 → below here [p] x) as Hbelow1.
  { intros x Hx. eapply within_below; [done| |by apply Hin1].
    by apply list_elem_of_singleton. }
  split; [by eapply NoDup_groups|].
  intros x Hx. apply elem_of_app in Hx as [Hx|Hx].
  + eapply below_mono; [|by apply Hbelow1].
    intros y Hy. apply list_elem_of_singleton in Hy as ->. apply elem_of_cons. by left.
  + eapply below_mono; [|by apply Hbelow2].
    intros y Hy. apply elem_of_cons. by right.
Qed.
End loops.

Lemma NoDup_here here ks (new : list path) :
  NoDup new → (∀ x, x ∈ new → below here ks x) →
  NoDup (here :: new) ∧ ∀ x, x ∈ here :: new → within here x.
Proof.
  intros Hnd Hbelow. split.
  - constructor; [|done]. intros Hin. by eapply below_not_here, Hbelow.
  - intros x Hx. apply elem_of_cons in Hx as [->|Hx].
    + exists []. by rewrite app_nil_r.
    + by eapply below_within, Hbelow.
Qed.

Lemma doVisit_runs n : ∀ nd fuel, astUpTo h n nd = true → (n ≤ fuel)%nat → runs visitor h fuel nd.
Proof.
  induction n as [|n IH]; intros nd fuel Hast Hfuel.
  { destruct nd; [apply runs_prim|done]. }
  destruct nd as [p|l]; [apply runs_prim|].
  destruct fuel as [|fuel]; [lia|].
  assert (n ≤ fuel)%nat as Hle by lia.
  intros here parent cp s log. simpl in Hast |- *.
  destruct (h !! l) as [o|] eqn:Ho; cycle 1.
  { exists s, []. rewrite app_nil_r. split; [done|]. split; [constructor|].
    intros x Hx. by apply elem_of_nil in Hx. }
  apply andb_true_iff in Hast as [Hd Hast].
  assert (∀ nd, astUpTo h n nd = true →
          ∀ here parent childProp s log,
            ∃ s' new, doVisit visitor h fuel here nd parent childProp (s, log)
                      = Some (s', log ++ new)
                      ∧ NoDup new ∧ ∀ x, x ∈ new → within here x) as Hrec.
  { intros nd' Hnd'. by apply IH. }
  assert (∀ s0, ∃ s' new,
            visitProperties (doVisit visitor h fuel) here l o (s0, log ++ [here])
            = Some (s', log ++ here :: new)
            ∧ NoDup (here :: new) ∧ ∀ x, x ∈ here :: new → within here x) as Hloop.
  { intros s0.
    destruct (visitProperties_runs _ n Hrec here l o Hd Hast s0 (log ++ [here]))
      as (s' & new & Hrun & Hnd & Hbelow).
    exists s', new. rewrite Hrun, <- app_assoc. split; [done|]. by eapply NoDup_here. }
  destruct (truthy (prop "type" o)).
  2: { destruct (Hloop s) as (s' & new & H1 & H2 & H3). by exists s', (here :: new). }
  destruct (visitor s l parent cp) as [s0 [|ps leave]] eqn:Hv.
  { destruct (Hloop s0) as (s' & new & H1 & H2 & H3). by exists s', (here :: new). }
  destruct (Hvisitor _ _ _ _ _ _ _ Hv) as [Hdps Hplain].
  destruct (visitOwn_runs _ n Hrec here o ps Hast Hdps Hplain s0 (log ++ [here]))
    as (s' & new & Hrun & Hnd & Hbelow).
  exists (leave s'), (here :: new). rewrite Hrun. simpl. rewrite <- app_assoc.
  split; [done|]. by eapply NoDup_here.
Qed.

End run.

(** C10. Let the AST below [root], without what [range], [loc], [attr],
    [comments] and [raw] hold, be at most [n] objects deep, whatever
    these five properties hold (back-pointers into the tree, cycles).
    Then [visit] returns with any recursion depth [fuel] of [n] or more;
    it enters every path from the root at most once; and no path it
    enters crosses one of the five properties. *)
Theorem visit_terminates {S : Type}
    (visitor : S → loc → option loc → option string → S * reply S)
    (h : store) (root : loc) (n : nat) (s : S) :
  disciplined visitor →
  astUpTo h n (Ref root) = true →
  ∀ fuel, (n ≤ fuel)%nat →
    ∃ s' log, visit visitor h fuel root s = Some (s', log)
              ∧ NoDup log
              ∧ ∀ x p, x ∈ log → p ∈ x → Astutil.magic p = false.
Proof.
  intros Hvisitor Hast fuel Hfuel.
  destruct (doVisit_runs visitor h Hvisitor n (Ref root) fuel Hast Hfuel [] None None s [])
    as (s' & new & Hrun & Hnd & Hwithin).
  exists s', new. split; [exact Hrun|]. split; [done|].
  intros x p Hx Hp. destruct (Hwithin x Hx) as (rest & -> & Hrest).
  simpl in Hp. rewrite Forall_forall in Hrest. by apply Hrest.
Qed.

Lemma counting_disciplined h : disciplined (counting h).
Proof.
  intros s l parent cp s' ps leave. unfold counting.
  destruct (prop "type" (default [] (h !! l))) as [[| | | |t]|]; try done.
  destruct (String.eqb_spec t "FunctionDeclaration") as [->|Hne].
  - intros [= <- <- <-]. by vm_compute.
  - intros H. exfalso. revert H.
    repeat (case_match; try done).
Qed.

Lemma visit_terminates_witness :
  ∃ s' log, visit (counting decorated) decorated 7 0 0 = Some (s', log)
            ∧ NoDup log
            ∧ ∀ x p, x ∈ log → p ∈ x → Astutil.magic p = false.
Proof.
  apply (visit_terminates (counting decorated) decorated 0 7 0).
  - apply counting_disciplined.
  - vm_compute. reflexivity.
  - lia.
Defined.

Section withState.
Context {S : Type}.
Variable visitor :
  S → object → loc → option loc → option string → (S * object) * reply (S * object).
Variable h : store.

Lemma visitProperties_ext {T} (rec rec' : path → val → option loc → option string →
                                               T * list path → option (T * list path))
    here l o :
  (∀ here nd parent cp st, rec here nd parent cp st = rec' here nd parent cp st) →
  ∀ st, visitProperties rec here l o st = visitProperties rec' here l o st.
Proof.
  intros Hext. induction o as [|[p v] o IH]; intros st; simpl; [done|].
  destruct (Astutil.magic p); [done|]. rewrite Hext.
  destruct (rec' (here ++ [p]) v (Some l) (Some p) st); simpl; [apply IH|done].
Qed.

Lemma visitOwn_ext {T} (rec rec' : path → val → option loc → option string →
                                        T * list path → option (T * list path))
    here o ps :
  (∀ here nd parent cp st, rec here nd parent cp st = rec' here nd parent cp st) →
  ∀ st, visitOwn rec here o ps st = visitOwn rec' here o ps st.
Proof.
  intros Hext. induction ps as [|p ps IH]; intros st; simpl; [done|].
  rewrite Hext. destruct (rec' (here ++ [p]) (prop p o) None None st); simpl; [apply IH|done].
Qed.

Lemma doVisitWithState_visit fuel : ∀ here nd parent cp st,
  doVisitWithState visitor h fuel here nd parent cp st
  = doVisit (closing visitor) h fuel here nd parent cp st.
Proof.
  induction fuel as [|fuel IH]; intros here nd parent cp st; [by destruct nd|].
  destruct nd as [p|l]; [done|]. simpl.
  destruct (h !! l) as [o|]; [|done].
  destruct (truthy (prop "type" o)); [|by apply visitProperties_ext].
  unfold closing at 1.
  destruct (visitor st.1.1 st.1.2 l parent cp) as [s [|ps leave]].
  - by apply visitProperties_ext.
  - by rewrite (visitOwn_ext _ _ here o ps IH).
Qed.

(** X20. [visitWithState] is [visit] with the visitor closed over the
    object [state], which starts with both flags [false]: on an AST
    of finite depth outside the magic properties, with a visitor that
    prunes to distinct properties that are not magic, it returns,
    enters each path at most once and never crosses [range], [loc],
    [attr], [comments] or [raw]. *)
Theorem visitWithState_terminates (root : loc) (n : nat) (s : S) :
  (∀ s state l parent childProp s' ps leave,
     visitor s state l parent childProp = (s', Prune ps leave) →
     distinct ps = true ∧ forallb (λ p, negb (Astutil.magic p)) ps = true) →
  astUpTo h n (Ref root) = true →
  ∀ fuel, (n ≤ fuel)%nat →
    visitWithState visitor h fuel root s = visit (closing visitor) h fuel root (s, initialState)
    ∧ ∃ s' log, visitWithState visitor h fuel root s = Some (s', log)
                ∧ NoDup log
                ∧ ∀ x p, x ∈ log → p ∈ x → Astutil.magic p = false.
Proof.
  intros Hvisitor Hast fuel Hfuel. unfold visitWithState, visit.
  rewrite doVisitWithState_visit. split; [done|].
  assert (disciplined (closing visitor)) as Hd.
  { intros [s0 o0] l parent cp s' ps leave Hv. by eapply Hvisitor. }
  destruct (doVisit_runs (closing visitor) h Hd n (Ref root) fuel Hast Hfuel [] None None
              (s, initialState) [])
    as (s' & new & Hrun & Hnd & Hwithin).
  exists s', new. split; [exact Hrun|]. split; [done|].
  intros x p Hx Hp. destruct (Hwithin x Hx) as (rest & -> & Hrest).
  simpl in Hp. rewrite Forall_forall in Hrest. by apply Hrest.
Qed.

End withState.

Lemma visitWithState_terminates_witness :
  ∃ s' log, visitWithState (flagging decorated) decorated 7 0 0 = Some (s', log)
            ∧ NoDup log.
Proof.
  destruct (visitWithState_terminates (flagging decorated) decorated 0 7 0)
    with (fuel := 7) as (_ & s' & log & Hrun & Hnd & _).
  - intros s state l parent cp s' ps leave. unfold flagging.
    destruct (prop "type" (default [] (decorated !! l))) as [[| | | |t]|]; try done.
    destruct (String.eqb_spec t "FunctionDeclaration") as [->|Hne].
    + intros [= <- <- <-]. by vm_compute.
    + intros H. exfalso. revert H. repeat (case_match; try done).
  - vm_compute. reflexivity.
  - lia.
  - by exists s', log.
Defined.

End StoreFacts.

(** ** The native model *)

Module NativesFacts.
Import Js Natives.

(** C6, as the code has it. [addNativeFlowEdges] adds, for every entry
    [native: target] of the table and in the order of the table, exactly
    one edge, from the Native vertex of the entry's name to the Prop
    vertex of the entry's target (the property under which the native is
    reached, as in [Math_log: 'log']), and nothing else. *)
Theorem addNativeFlowEdges_edges nativeFlows flow_graph :
  addNativeFlowEdges nativeFlows flow_graph =
  flow_graph ++ map (λ entry, (NativeVertex entry.1, PropVertex entry.2)) nativeFlows.
Proof.
  unfold addNativeFlowEdges. revert flow_graph.
  induction nativeFlows as [|[native target] rest IH]; intros fg; simpl.
  - by rewrite app_nil_r.
  - rewrite IH. unfold addEdge. by rewrite <- app_assoc.
Qed.

(** C6 as stated fails on a table whose entry maps a name to another
    target: the edge goes to the Prop vertex of the target, and the Prop
    vertex of the name gets none. *)
Lemma native_edge_goes_to_target :
  addNativeFlowEdges [("Math_log", "log")] [] =
    [(NativeVertex "Math_log", PropVertex "log")]
  ∧ (NativeVertex "Math_log", PropVertex "Math_log")
      ∉ addNativeFlowEdges [("Math_log", "log")] [].
Proof.
  split; [reflexivity|]. vm_compute. intros H.
  apply list_elem_of_singleton in H. discriminate H.
Qed.

Section step.
Variable vertexFor : value → vertex.
Variable scopeGet : value → value → value.
Variable sameNode : value → value → bool.

Lemma functionValue_object arg : functionValue arg → ∃ fs, arg = VObj fs.
Proof. intros [H|H]; destruct arg; try done; eauto. Qed.

Lemma functionValue_isStep arg : functionValue arg → isStep arg = Some true.
Proof.
  intros H. destruct (functionValue_object arg H) as [fs ->].
  unfold isStep. simpl. by destruct H as [H|H]; simpl in H; rewrite H.
Qed.

Lemma functionValue_stepVertex arg :
  functionValue arg → stepVertex vertexFor arg = FuncVertex arg.
Proof. intros H. unfold stepVertex. by destruct H as [H|H]; rewrite H. Qed.

Lemma functionValue_resolve functions arg :
  functionValue arg →
  resolveFunctionNode scopeGet sameNode functions arg = Some arg.
Proof. intros H. unfold resolveFunctionNode. by destruct H as [H|H]; rewrite H. Qed.

Lemma filterSteps_functionValues args :
  Forall functionValue args → filterSteps args = Some args.
Proof.
  induction 1 as [|arg args Harg _ IH]; [done|].
  simpl. by rewrite (functionValue_isStep arg Harg), IH.
Qed.

Lemma pseudoCallSite_mono pc current next fg fg' :
  fg `prefix_of` fg' → pseudoCallSite pc current next fg → pseudoCallSite pc current next fg'.
Proof.
  intros [l ->] (H1 & H2 & H3 & H4 & H5). repeat split; try done.
  - apply elem_of_app. by left.
  - apply elem_of_app. by left.
Qed.

Lemma linkSteps_cons functions call current next rest fg :
  linkSteps vertexFor scopeGet sameNode functions call (current :: next :: rest) fg =
  (currentStepFunc ← resolveFunctionNode scopeGet sameNode functions current;
   pseudo ← pseudoCall call current next currentStepFunc;
   currentStepFuncNode ← resolveFunctionNode scopeGet sameNode functions current;
   ret ← retVertex currentStepFuncNode;
   linkSteps vertexFor scopeGet sameNode functions call (next :: rest)
     (addEdge (addEdge fg (stepVertex vertexFor next) (CalleeVertex pseudo))
              ret (CalleeVertex pseudo))).
Proof. reflexivity. Qed.

Lemma functionValue_retVertex arg : functionValue arg → retVertex arg = Some (RetVertex arg).
Proof.
  intros H. unfold retVertex, Astutil.isFunctionType.
  destruct H as [H|H]; rewrite H; simpl; by rewrite ?orb_true_r.
Qed.

Lemma retVertex_Some fn v : retVertex fn = Some v → v = RetVertex fn.
Proof. unfold retVertex. destruct (Astutil.isFunctionType fn); congruence. Qed.

Lemma linkSteps_functionValues functions call file steps :
  getx (get call "attr") "enclosingFile" = Some file →
  Forall functionValue steps →
  ∀ fg, ∃ fg',
    linkSteps vertexFor scopeGet sameNode functions call steps fg = Some fg'
    ∧ fg `prefix_of` fg'
    ∧ length fg' = length fg + 2 * (length steps - 1)
    ∧ ∀ k current next,
        steps !! k = Some current → steps !! S k = Some next →
        ∃ pc, pseudoCallSite pc current next fg'.
Proof.
  intros Hfile. induction 1 as [|current steps Hcur Hsteps IH]; intros fg.
  { exists fg. simpl. split; [done|]. split; [done|]. split; [lia|]. by intros k. }
  destruct steps as [|next rest].
  { exists fg. simpl. split; [done|]. split; [done|]. split; [lia|].
    intros [|k] c n' _ Hn; by simpl in Hn. }
  pose proof (Forall_inv Hsteps) as Hnext.
  rewrite linkSteps_cons, (functionValue_resolve functions current Hcur).
  cbn [mbind option_bind]. unfold pseudoCall. rewrite Hfile. cbn [mbind option_bind].
  rewrite (functionValue_retVertex current Hcur). cbn [mbind option_bind].
  rewrite (functionValue_stepVertex next Hnext).
  match goal with
  | |- context [CalleeVertex ?pc] => set (pseudo := pc)
  end.
  set (fg1 := addEdge (addEdge fg (FuncVertex next) (CalleeVertex pseudo))
                      (RetVertex current) (CalleeVertex pseudo)).
  destruct (IH fg1) as (fg' & Hrun & Hpre & Hlen & Hpairs).
  exists fg'. split; [exact Hrun|].
  assert (fg `prefix_of` fg1) as Hfg1.
  { subst fg1. unfold addEdge. rewrite <- app_assoc. by apply prefix_app_r. }
  split; [by etrans|]. split.
  { rewrite Hlen. subst fg1. unfold addEdge. rewrite !length_app. simpl. lia. }
  intros [|k] c n' Hc Hn.
  - simpl in Hc, Hn. injection Hc as <-. injection Hn as <-.
    exists pseudo. eapply pseudoCallSite_mono; [exact Hpre|].
    subst fg1 pseudo. unfold addEdge. repeat split; try done.
    + apply elem_of_app. left. apply elem_of_app. right. by apply list_elem_of_singleton.
    + apply elem_of_app. right. by apply list_elem_of_singleton.
  - simpl in Hc, Hn. by apply (Hpairs k).
Qed.

(** C4. For a call [Step(f_1, .., f_n)] whose arguments are function
    values, the handler adds [2n - 1] edges to the flow graph: the edge
    from [Func(f_1)] to the callee vertex of the call and, for every
    adjacent pair [(f_k, f_k+1)], a pseudo call-site (a [CallExpression]
    with callee [f_k+1]) whose enclosing-function attribute is [f_k] and
    whose callee vertex gets an edge from [Func(f_k+1)] and one from
    [Ret(f_k)]. *)
Theorem step_edges call first rest file fg functions :
  isStepCall call = Some true →
  get call "arguments" = VArr (first :: rest) →
  Forall functionValue (first :: rest) →
  getx (get call "attr") "enclosingFile" = Some file →
  ∃ fg',
    stepFlowEdges vertexFor scopeGet sameNode call fg functions = Some fg'
    ∧ fg `prefix_of` fg'
    ∧ length fg' = length fg + (2 * length (first :: rest) - 1)
    ∧ (FuncVertex first, CalleeVertex call) ∈ fg'
    ∧ ∀ k current next,
        (first :: rest) !! k = Some current → (first :: rest) !! S k = Some next →
        ∃ pc, pseudoCallSite pc current next fg'.
Proof.
  intros Hstep Hargs Hfun Hfile.
  unfold stepFlowEdges, handleStepCall. rewrite Hstep. cbn [mbind option_bind].
  rewrite Hargs, (filterSteps_functionValues _ Hfun). cbn [mbind option_bind].
  rewrite (functionValue_stepVertex first (Forall_inv Hfun)).
  set (fg0 := addEdge fg (FuncVertex first) (CalleeVertex call)).
  destruct (linkSteps_functionValues functions call file (first :: rest) Hfile Hfun fg0)
    as (fg' & Hrun & Hpre & Hlen & Hpairs).
  exists fg'. split; [exact Hrun|].
  assert (fg `prefix_of` fg0) as Hfg0 by by apply prefix_app_r.
  split; [by etrans|]. split.
  { rewrite Hlen. subst fg0. unfold addEdge. rewrite length_app. simpl. lia. }
  split; [|done].
  destruct Hpre as [l ->]. apply elem_of_app. left.
  apply elem_of_app. right. by apply list_elem_of_singleton.
Qed.

End step.

Lemma step_edges_witness :
  ∃ fg',
    stepFlowEdges (λ _, UnknownVertex) (λ _ _, VUndef) (λ _ _, false) stepCall [] []
      = Some fg'
    ∧ length fg' = 5
    ∧ ∃ pc, pseudoCallSite pc
              (Astutil.Sample.functionExpression (Astutil.Sample.ident "first" 14 19) [] 5 24)
              (Astutil.Sample.functionExpression (Astutil.Sample.ident "second" 35 41) [] 26 46)
              fg'.
Proof.
  destruct (step_edges (λ _, UnknownVertex) (λ _ _, VUndef) (λ _ _, false) stepCall
              (Astutil.Sample.functionExpression (Astutil.Sample.ident "first" 14 19) [] 5 24)
              [Astutil.Sample.functionExpression (Astutil.Sample.ident "second" 35 41) [] 26 46;
               Astutil.Sample.arrow [] 48 56]
              (VStr "a.js") [] [])
    as (fg' & Hrun & _ & Hlen & _ & Hpairs).
  - reflexivity.
  - reflexivity.
  - repeat constructor; by vm_compute; auto.
  - reflexivity.
  - exists fg'. split; [exact Hrun|]. split; [exact Hlen|].
    by apply (Hpairs 0).
Defined.

(** *** Step calls in general *)

Section handler.
Variable vertexFor : value → vertex.
Variable scopeGet : value → value → value.
Variable sameNode : value → value → bool.

Lemma isStep_isStepType arg b : isStep arg = Some b → b = isStepType arg.
Proof.
  unfold isStep, isStepType. intros H. apply bind_Some in H as (t & Ht & [= <-]).
  by destruct arg; simplify_eq/=.
Qed.

Lemma filterSteps_filter args steps :
  filterSteps args = Some steps → steps = List.filter isStepType args.
Proof.
  revert steps. induction args as [|arg args IH]; intros steps H; simpl in H.
  { by injection H as <-. }
  apply bind_Some in H as (b & Hb & H). apply bind_Some in H as (rest & Hrest & [= <-]).
  simpl. rewrite <- (isStep_isStepType arg b Hb), <- (IH rest Hrest). done.
Qed.

Lemma linkSteps_length functions call steps : ∀ fg fg',
  linkSteps vertexFor scopeGet sameNode functions call steps fg = Some fg' →
  ∃ new, fg' = fg ++ new ∧ length new = 2 * (length steps - 1).
Proof.
  induction steps as [|current steps IH]; intros fg fg' H.
  { injection H as <-. exists []. by rewrite app_nil_r. }
  destruct steps as [|next rest].
  { injection H as <-. exists []. by rewrite app_nil_r. }
  rewrite linkSteps_cons in H.
  apply bind_Some in H as (f1 & H1 & H). apply bind_Some in H as (pc & Hpc & H).
  apply bind_Some in H as (f2 & H2 & H). apply bind_Some in H as (ret & Hret & H).
  destruct (IH _ _ H) as (new & -> & Hlen). unfold addEdge.
  eexists. rewrite <- !app_assoc. split; [reflexivity|].
  rewrite !length_app, Hlen. simpl. lia.
Qed.

Lemma handleStepCall_grows call fg functions fg' :
  handleStepCall vertexFor scopeGet sameNode call fg functions = Some fg' →
  ∃ new, fg' = fg ++ new ∧ length new = edgesOf call.
Proof.
  unfold handleStepCall, edgesOf, stepsOf. intros H.
  destruct (get call "arguments") as [| | | | |args|]; try done.
  apply bind_Some in H as (steps & Hsteps & H).
  rewrite <- (filterSteps_filter args steps Hsteps).
  destruct steps as [|first rest].
  { injection H as <-. exists []. by rewrite app_nil_r. }
  destruct (linkSteps_length _ _ _ _ _ H) as (new & -> & Hlen). unfold addEdge.
  eexists. rewrite <- app_assoc. split; [reflexivity|].
  rewrite length_app, Hlen. simpl. lia.
Qed.

(** X7. Whenever [handleStepCall] returns, it has left the edges of
    the flow graph in place and added [2k - 1] edges after them, [k]
    being the number of arguments of the call that are function
    expressions, arrow functions or identifiers; without such an
    argument it adds nothing.  The other arguments are passed over. *)
Theorem handleStepCall_edges call fg functions fg' :
  handleStepCall vertexFor scopeGet sameNode call fg functions = Some fg' →
  ∃ new, fg' = fg ++ new ∧ length new = 2 * length (stepsOf call) - 1.
Proof. apply handleStepCall_grows. Qed.

Lemma linked_mono pc current next resolved fg fg' :
  fg `prefix_of` fg' →
  linked vertexFor pc current next resolved fg → linked vertexFor pc current next resolved fg'.
Proof.
  intros [l ->] (H1 & H2 & H3 & H4 & H5 & H6 & H7 & H8).
  repeat split; try done; apply elem_of_app; by left.
Qed.

Lemma linkSteps_linked functions call steps : ∀ fg fg',
  linkSteps vertexFor scopeGet sameNode functions call steps fg = Some fg' →
  ∀ k current next,
    steps !! k = Some current → steps !! S k = Some next →
    ∃ pc resolved,
      resolveFunctionNode scopeGet sameNode functions current = Some resolved
      ∧ linked vertexFor pc current next resolved fg'.
Proof.
  induction steps as [|current steps IH]; intros fg fg' H k c n Hc Hn; [done|].
  destruct steps as [|next rest]; [by destruct k|].
  rewrite linkSteps_cons in H.
  apply bind_Some in H as (f1 & H1 & H). apply bind_Some in H as (pc & Hpc & H).
  apply bind_Some in H as (f2 & H2 & H). apply bind_Some in H as (ret & Hret & H).
  assert (f2 = f1) as -> by congruence.
  apply retVertex_Some in Hret as ->.
  destruct k as [|k]; [|by eapply IH].
  simpl in Hc, Hn. injection Hc as <-. injection Hn as <-.
  exists pc, f1. split; [done|].
  destruct (linkSteps_length _ _ _ _ _ H) as (new & -> & _).
  eapply linked_mono; [by apply prefix_app_r|].
  unfold pseudoCall in Hpc. apply bind_Some in Hpc as (file & Hfile & [= <-]).
  unfold addEdge. repeat split; try done.
  - apply elem_of_app. left. apply elem_of_app. right. by apply list_elem_of_singleton.
  - apply elem_of_app. right. by apply list_elem_of_singleton.
Qed.

(** X8. Whenever [handleStepCall] returns on a call with the steps
    [first :: rest] (functions or identifiers), the flow graph has an
    edge from the vertex of the first step to the callee vertex of the
    call and, for every two adjacent steps [current] and [next], a
    synthetic call-site whose callee is [next], whose range is that of
    [current] ([[0, 0]] when it has none) and whose enclosing function is what
    [resolveFunctionNode] makes of [current], with an edge from the
    vertex of [next] and an edge from the return vertex of the resolved
    function to its callee vertex. *)
Theorem handleStepCall_pairs call fg functions fg' first rest :
  handleStepCall vertexFor scopeGet sameNode call fg functions = Some fg' →
  stepsOf call = first :: rest →
  (stepVertex vertexFor first, CalleeVertex call) ∈ fg'
  ∧ ∀ k current next,
      (first :: rest) !! k = Some current → (first :: rest) !! S k = Some next →
      ∃ pc resolved,
        resolveFunctionNode scopeGet sameNode functions current = Some resolved
        ∧ linked vertexFor pc current next resolved fg'.
Proof.
  unfold handleStepCall, stepsOf. intros H Hsteps.
  destruct (get call "arguments") as [| | | | |args|]; try done.
  apply bind_Some in H as (steps & Hf & H).
  rewrite <- (filterSteps_filter args steps Hf) in Hsteps. subst steps.
  split.
  - destruct (linkSteps_length _ _ _ _ _ H) as (new & -> & _). unfold addEdge.
    apply elem_of_app. left. apply elem_of_app. right. by apply list_elem_of_singleton.
  - by eapply linkSteps_linked.
Qed.

Lemma findFunction_spec declId step functions found :
  findFunction sameNode declId step functions = Some found →
  match found with
  | Some r =>
      ∃ pre f post,
        functions = pre ++ f :: post ∧ r = Astutil.f_node f
        ∧ (byDeclaration sameNode declId f ∨ byName sameNode step f)
        ∧ Forall (unresolved sameNode declId step) pre
  | None => Forall (unresolved sameNode declId step) functions
  end.
Proof.
  revert found. induction functions as [|f functions IH]; intros found H; simpl in H.
  { by injection H as <-. }
  destruct (strictEq sameNode (get (Astutil.f_node f) "id") declId) eqn:Eid.
  { injection H as <-. exists [], f, functions. split; [done|]. split; [done|].
    split; [by left|constructor]. }
  assert (¬ byDeclaration sameNode declId f) as Hdecl.
  { unfold byDeclaration. by rewrite Eid. }
  assert (∀ found',
            findFunction sameNode declId step functions = Some found' →
            unresolved sameNode declId step f →
            match found' with
            | Some r =>
                ∃ pre f0 post,
                  f :: functions = pre ++ f0 :: post ∧ r = Astutil.f_node f0
                  ∧ (byDeclaration sameNode declId f0 ∨ byName sameNode step f0)
                  ∧ Forall (unresolved sameNode declId step) pre
            | None => Forall (unresolved sameNode declId step) (f :: functions)
            end) as Hnext.
  { intros found' Hrest Hf. specialize (IH found' Hrest). destruct found' as [r|].
    - destruct IH as (pre & f0 & post & -> & -> & Hhow & Hpre).
      exists (f :: pre), f0, post. split; [done|]. split; [done|]. split; [done|].
      by constructor.
    - by constructor. }
  destruct (negb (truthy (get (Astutil.f_node f) "id"))
            && bool_decide (Astutil.f_enclosingFunction f = None)) eqn:Etop.
  - apply andb_true_iff in Etop as [Hid Henc].
    apply negb_true_iff in Hid. apply bool_decide_eq_true in Henc.
    apply bind_Some in H as (fname & Hfname & H).
    destruct (strictEq sameNode fname (get step "name")) eqn:Ename.
    + injection H as <-. exists [], f, functions. split; [done|]. split; [done|].
      split; [|constructor]. right. split; [done|]. split; [done|]. by exists fname.
    + apply Hnext; [done|]. split; [done|].
      intros (_ & _ & fname' & Hf' & Hn'). congruence.
  - apply Hnext; [done|]. split; [done|].
    intros (Hid & Henc & _). rewrite Hid in Etop. simpl in Etop.
    by apply bool_decide_eq_false in Etop.
Qed.

(** X9. [resolveFunctionNode] returns either the step itself or the
    node of a registered function.  It returns a function only for an
    identifier, and then the first one of the registry whose id is the
    declaration the scope gives for the identifier or which, being
    without id and at top level, is labelled with the identifier's
    name.  When it returns an identifier that the scope resolves to a
    declaration of the same name, the registry holds no such function. *)
Theorem resolveFunctionNode_spec functions step r :
  resolveFunctionNode scopeGet sameNode functions step = Some r →
  let declId := scopeGet (get (get step "attr") "scope") (get step "name") in
  (r = step
   ∧ (strictEqStr (get step "type") "Identifier" = true →
      truthy (get (get step "attr") "scope") = true →
      truthy declId = true →
      strictEq sameNode (get declId "name") (get step "name") = true →
      Forall (unresolved sameNode declId step) functions))
  ∨ (strictEqStr (get step "type") "Identifier" = true
     ∧ ∃ pre f post,
         functions = pre ++ f :: post ∧ r = Astutil.f_node f
         ∧ (byDeclaration sameNode declId f ∨ byName sameNode step f)
         ∧ Forall (unresolved sameNode declId step) pre).
Proof.
  intros H declId. unfold resolveFunctionNode in H.
  destruct (strictEqStr (get step "type") "Identifier") eqn:Etype; simpl in H;
    [|injection H as <-; by left].
  destruct (truthy (get step "attr")) eqn:Eattr; simpl in H; cycle 1.
  { injection H as <-. left. split; [done|]. intros _ Hscope.
    by destruct (get step "attr"). }
  destruct (truthy (get (get step "attr") "scope")) eqn:Escope; simpl in H;
    [|injection H as <-; by left].
  fold declId in H.
  destruct (truthy declId && strictEq sameNode (get declId "name") (get step "name")) eqn:Edecl;
    cycle 1.
  { injection H as <-. left. split; [done|]. intros _ _ H1 H2. by rewrite H1, H2 in Edecl. }
  apply bind_Some in H as (found & Hfound & [= <-]).
  pose proof (findFunction_spec _ _ _ _ Hfound) as Hspec.
  destruct found as [r|]; simpl.
  - right. by split.
  - left. by split.
Qed.

Lemma visitSteps_grows functions nd : ∀ fg fg',
  visitSteps vertexFor scopeGet sameNode functions nd fg = Some fg' →
  ∃ new, fg' = fg ++ new ∧ length new = sum_list_with edgesOf (stepCalls nd).
Proof.
  induction nd as [| | | | |xs IH|fs IH] using value_nested_ind; intros fg fg' H.
  1-5: injection H as <-; exists []; by rewrite app_nil_r.
  - simpl in H |- *. revert fg H. induction IH as [|x xs Hx _ IHxs]; intros fg H.
    { injection H as <-. exists []. by rewrite app_nil_r. }
    apply bind_Some in H as (fg1 & H1 & H).
    destruct (Hx _ _ H1) as (new1 & -> & Hlen1).
    destruct (IHxs _ H) as (new2 & -> & Hlen2).
    exists (new1 ++ new2). rewrite <- app_assoc. split; [done|].
    rewrite sum_list_with_app, length_app. lia.
  - cbn [visitSteps] in H. apply bind_Some in H as (fg1 & Hhead & H).
    cbn [stepCalls]. rewrite sum_list_with_app.
    assert (∃ new1, fg1 = fg ++ new1
                    ∧ length new1 =
                      sum_list_with edgesOf
                        (if truthy (get (VObj fs) "type")
                            && bool_decide (isStepCall (VObj fs) = Some true)
                         then [VObj fs] else [])) as (new1 & -> & Hlen1).
    { destruct (truthy (get (VObj fs) "type")); cycle 1.
      { injection Hhead as <-. exists []. by rewrite app_nil_r. }
      unfold stepFlowEdges in Hhead. apply bind_Some in Hhead as (b & Hb & Hhead).
      rewrite Hb. destruct b.
      - destruct (handleStepCall_grows _ _ _ _ Hhead) as (new & -> & Hlen).
        exists new. split; [done|]. simpl. lia.
      - injection Hhead as <-. exists []. by rewrite app_nil_r. }
    rewrite <- Hlen1. clear Hlen1.
    assert (∀ fg1, (fix loop (fs : list (string * value)) (fg : flowgraph) : option flowgraph :=
                      match fs with
                      | [] => Some fg
                      | (p, v) :: r =>
                          if Astutil.magic p then loop r fg
                          else fg' ← visitSteps vertexFor scopeGet sameNode functions v fg;
                               loop r fg'
                      end) fs fg1 = Some fg' →
            ∃ new2, fg' = fg1 ++ new2
                    ∧ length new2 =
                      sum_list_with edgesOf
                        ((fix loop (fs : list (string * value)) : list value :=
                           match fs with
                           | [] => []
                           | (p, v) :: r =>
                               if Astutil.magic p then loop r else stepCalls v ++ loop r
                           end) fs)) as Hloop.
    { clear H Hhead. induction IH as [|[p v] fs Hv _ IHfs]; intros fg1 H.
      { injection H as <-. exists []. by rewrite app_nil_r. }
      simpl in H, Hv |- *. destruct (Astutil.magic p); [by apply IHfs|].
      apply bind_Some in H as (fg2 & H2 & H).
      destruct (Hv _ _ H2) as (newv & -> & Hlenv).
      destruct (IHfs _ H) as (newr & -> & Hlenr).
      exists (newv ++ newr). rewrite <- app_assoc. split; [done|].
      rewrite sum_list_with_app, length_app. lia. }
    destruct (Hloop _ H) as (new2 & -> & Hlen2).
    exists (new1 ++ new2). rewrite <- app_assoc. split; [done|].
    rewrite length_app. lia.
Qed.

(** X10. Whenever [addStepFlowEdges] returns, it has left the edges of
    the flow graph in place and added, after them, [2k - 1] edges for
    every Step call of the tree that has [k > 0] steps, the calls being
    those a walk of the tree outside the magic properties meets. *)
Theorem addStepFlowEdges_edges functions ast fg fg' :
  addStepFlowEdges vertexFor scopeGet sameNode functions ast fg = Some fg' →
  ∃ new, fg' = fg ++ new ∧ length new = sum_list_with edgesOf (stepCalls ast).
Proof. apply visitSteps_grows. Qed.

End handler.

Lemma handleStepCall_edges_witness :
  ∃ fg' new,
    handleStepCall (λ _, UnknownVertex) (λ _ _, Astutil.Sample.ident "first" 39 44) sameRange
      stepByName [] [firstDeclaration] = Some fg'
    ∧ fg' = [] ++ new ∧ length new = 3.
Proof.
  destruct (handleStepCall (λ _, UnknownVertex) (λ _ _, Astutil.Sample.ident "first" 39 44)
              sameRange stepByName [] [firstDeclaration])
    as [fg'|] eqn:E; [|vm_compute in E; discriminate E].
  destruct (handleStepCall_edges _ _ _ _ _ _ _ E) as (new & Hnew & Hlen).
  exists fg', new. split; [reflexivity|]. split; [exact Hnew|exact Hlen].
Defined.

Lemma handleStepCall_pairs_witness :
  ∃ fg' pc,
    handleStepCall (λ _, UnknownVertex) (λ _ _, Astutil.Sample.ident "first" 39 44) sameRange
      stepByName [] [firstDeclaration] = Some fg'
    ∧ linked (λ _, UnknownVertex) pc firstReference
        (Astutil.Sample.functionExpression VNull [] 12 24)
        (Astutil.f_node firstDeclaration) fg'.
Proof.
  destruct (handleStepCall (λ _, UnknownVertex) (λ _ _, Astutil.Sample.ident "first" 39 44)
              sameRange stepByName [] [firstDeclaration])
    as [fg'|] eqn:E; [|vm_compute in E; discriminate E].
  destruct (handleStepCall_pairs _ _ _ _ _ _ _ firstReference
              [Astutil.Sample.functionExpression VNull [] 12 24] E eq_refl) as [_ Hpairs].
  destruct (Hpairs 0 firstReference (Astutil.Sample.functionExpression VNull [] 12 24)
              eq_refl eq_refl) as (pc & resolved & Hres & Hlinked).
  exists fg', pc. split; [reflexivity|].
  vm_compute in Hres. injection Hres as <-. exact Hlinked.
Defined.

Lemma resolveFunctionNode_spec_witness :
  resolveFunctionNode (λ _ _, Astutil.Sample.ident "first" 39 44) sameRange
    [firstDeclaration] firstReference = Some (Astutil.f_node firstDeclaration)
  ∧ byDeclaration sameRange (Astutil.Sample.ident "first" 39 44) firstDeclaration.
Proof.
  split; [reflexivity|].
  destruct (resolveFunctionNode_spec (λ _ _, Astutil.Sample.ident "first" 39 44) sameRange
              [firstDeclaration] firstReference (Astutil.f_node firstDeclaration) eq_refl)
    as [[Hsame _]|(_ & pre & f & post & Hsplit & _ & Hhow & _)].
  - vm_compute in Hsame. discriminate Hsame.
  - reflexivity.
Defined.

Lemma addStepFlowEdges_edges_witness :
  ∃ fg' new,
    addStepFlowEdges (λ _, UnknownVertex) (λ _ _, Astutil.Sample.ident "first" 39 44)
      sameRange [firstDeclaration]
      (Astutil.Sample.program "a.js" [Astutil.Sample.statement stepCall;
                                      Astutil.Sample.statement stepByName]) []
      = Some fg'
    ∧ fg' = [] ++ new ∧ length new = 8.
Proof.
  destruct (addStepFlowEdges (λ _, UnknownVertex) (λ _ _, Astutil.Sample.ident "first" 39 44)
              sameRange [firstDeclaration]
              (Astutil.Sample.program "a.js" [Astutil.Sample.statement stepCall;
                                              Astutil.Sample.statement stepByName]) [])
    as [fg'|] eqn:E; [|vm_compute in E; discriminate E].
  destruct (addStepFlowEdges_edges _ _ _ _ _ _ _ E) as (new & Hnew & Hlen).
  exists fg', new. split; [reflexivity|]. split; [exact Hnew|exact Hlen].
Defined.

(** X6. On every node, [isStepCall] of natives.js is
    [isCallTo(nd, "Step")] of astutil.js: the two answer alike and
    throw alike (on a call whose callee is missing). *)
Theorem isStepCall_isCallTo fs :
  isStepCall (VObj fs) = Astutil.isCallTo (VObj fs) "Step".
Proof.
  unfold isStepCall, Astutil.isCallTo. cbn [getx mbind option_bind].
  destruct (strictEqStr (get (VObj fs) "type") "CallExpression"); [|done].
  cbn [negb]. destruct (getx (get (VObj fs) "callee") "type") as [t|]; [|done].
  cbn [mbind option_bind]. by destruct (strictEqStr t "Identifier").
Qed.

End NativesFacts.

(** ** The projections and the configuration checks *)

Module RunnerFacts.
Import Runner.

Lemma equals_spec new a : equals new a = true ↔ a = new.
Proof.
  unfold equals. rewrite !andb_true_iff, !bool_decide_eq_true.
  destruct a as [[f1 [r1 r2]] [f2 [r3 r4]]], new as [[g1 [s1 s2]] [g2 [s3 s4]]].
  simpl. split.
  - intros [[[[[-> ->] ->] ->] ->] ->]. done.
  - intros [= -> -> -> -> -> ->]. done.
Qed.

Lemma existsb_equals new entries : existsb (equals new) entries = true ↔ new ∈ entries.
Proof.
  rewrite existsb_exists. split.
  - intros (a & Ha & Heq). apply equals_spec in Heq as ->. by apply list_elem_of_In.
  - intros H. exists new. split; [by apply list_elem_of_In|by apply equals_spec].
Qed.

Lemma add_entry_elem entries new x :
  x ∈ add_entry entries new ↔ x ∈ entries ∨ x = new.
Proof.
  unfold add_entry. destruct (existsb (equals new) entries) eqn:E.
  - apply existsb_equals in E. split; [by left|]. by intros [H| ->].
  - rewrite elem_of_app, list_elem_of_singleton. done.
Qed.

Lemma add_entry_NoDup entries new : NoDup entries → NoDup (add_entry entries new).
Proof.
  intros H. unfold add_entry. destruct (existsb (equals new) entries) eqn:E; [done|].
  apply NoDup_app. split; [done|]. split; [|apply NoDup_singleton].
  intros x Hx Hnew. apply list_elem_of_singleton in Hnew as ->.
  apply existsb_equals in Hx. congruence.
Qed.

Lemma handle_function_argument_attributes entries call arg x :
  x ∈ handle_function_argument entries call arg ↔ x ∈ entries ∨ attributes call arg x.
Proof.
  unfold handle_function_argument. rewrite add_entry_elem. unfold attributes.
  split; (intros [H|H]; [by left|right]).
  - by subst x.
  - destruct x as [c d]. simpl in H. by destruct H as [-> ->].
Qed.

Lemma native_arguments call args : ∀ entries,
  let out := fold_left (λ functions_called arg,
                          if String.eqb (nd_type arg) "FunctionExpression"
                          then handle_function_argument functions_called call arg
                          else functions_called) args entries in
  (∀ x, x ∈ out ↔ x ∈ entries ∨ nativeArguments call args x)
  ∧ (NoDup entries → NoDup out).
Proof.
  induction args as [|arg args IH]; intros entries; simpl.
  { split; [|done]. intros x. split; [by left|].
    intros [H|(arg & Harg & _)]; [done|]. by apply elem_of_nil in Harg. }
  destruct (IH (if String.eqb (nd_type arg) "FunctionExpression"
                then handle_function_argument entries call arg else entries))
    as [Helem Hnodup].
  split.
  - intros x. rewrite Helem. clear Helem Hnodup.
    destruct (String.eqb_spec (nd_type arg) "FunctionExpression") as [Ht|Ht].
    + rewrite handle_function_argument_attributes. split.
      * intros [[H|H]|(a & Ha & Hta & Hattr)]; [by left| |].
        -- right. exists arg. split; [by left|done].
        -- right. exists a. split; [by right|done].
      * intros [H|(a & Ha & Hta & Hattr)]; [by left; left|].
        apply elem_of_cons in Ha as [->|Ha]; [by left; right|].
        right. by exists a.
    + split.
      * intros [H|(a & Ha & Hta & Hattr)]; [by left|].
        right. exists a. split; [by right|done].
      * intros [H|(a & Ha & Hta & Hattr)]; [by left|].
        apply elem_of_cons in Ha as [->|Ha]; [done|].
        right. by exists a.
  - intros H. apply Hnodup. destruct (String.eqb _ _); [|done].
    by apply add_entry_NoDup.
Qed.

Lemma native_fold cg : ∀ entries,
  let out := fold_left (λ functions_called e,
               match e.2 with
               | NativeVertex _ =>
                   fold_left (λ functions_called arg,
                                if String.eqb (nd_type arg) "FunctionExpression"
                                then handle_function_argument functions_called e.1 arg
                                else functions_called)
                             (call_arguments e.1) functions_called
               | FuncVertex _ => functions_called
               end) cg entries in
  (∀ x, x ∈ out ↔ x ∈ entries ∨ nativeEdges cg x)
  ∧ (NoDup entries → NoDup out).
Proof.
  induction cg as [|[call tgt] cg IH]; intros entries; simpl.
  { split; [|done]. intros x. split; [by left|].
    intros [H|(c & n & a & Hc & _)]; [done|]. by apply elem_of_nil in Hc. }
  destruct tgt as [func|name]; simpl.
  - destruct (IH entries) as [Helem Hnodup]. split; [|done].
    intros x. rewrite Helem. split.
    + intros [H|(c & n & a & Hc & Hrest)]; [by left|].
      right. exists c, n, a. split; [by right|done].
    + intros [H|(c & n & a & Hc & Hrest)]; [by left|].
      apply elem_of_cons in Hc as [[=]|Hc]. right. by exists c, n, a.
  - destruct (native_arguments call (call_arguments call) entries) as [Hargs Hargsnd].
    simpl in Hargs, Hargsnd.
    match goal with |- context [fold_left _ cg ?acc] => destruct (IH acc) as [Helem Hnodup] end.
    split; [|by intros H; apply Hnodup, Hargsnd].
    intros x. rewrite Helem, Hargs. split.
    + intros [[H|(a & Ha & Hta & Hattr)]|(c & n & a & Hc & Hrest)]; [by left| |].
      * right. exists call, name, a. split; [by left|done].
      * right. exists c, n, a. split; [by right|done].
    + intros [H|(c & n & a & Hc & Ha & Hrest)]; [by left; left|].
      apply elem_of_cons in Hc as [[= -> ->]|Hc].
      * left. right. by exists a.
      * right. by exists c, n, a.
Qed.

(** C7, as the code has it. The [nativecalls] projection emits an
    entry exactly for every edge of the call graph into a Native vertex
    and every argument of its call-site whose type is
    [FunctionExpression] (an arrow function is passed over): the callee
    is that argument, the caller is the enclosing function of the call,
    or the file of the call with a null range at global scope.  No
    entry is emitted twice. *)
Theorem native_projection cg :
  (∀ e, e ∈ retrieveAllCalledFunctionsNative cg ↔
        ∃ call name arg,
          (call, NativeVertex name) ∈ cg ∧ arg ∈ call_arguments call
          ∧ nd_type arg = "FunctionExpression"
          ∧ callee e = {| file := nd_enclosingFile arg;
                          range := (Some (nd_range arg).1, Some (nd_range arg).2) |}
          ∧ caller e = match call_enclosingFunction call with
                       | Some f => {| file := nd_enclosingFile f;
                                      range := (Some (nd_range f).1, Some (nd_range f).2) |}
                       | None => {| file := call_enclosingFile call; range := (None, None) |}
                       end)
  ∧ NoDup (retrieveAllCalledFunctionsNative cg).
Proof.
  destruct (native_fold cg []) as [Helem Hnodup]. split.
  - intros e. unfold retrieveAllCalledFunctionsNative. rewrite Helem. split.
    + intros [H|H]; [by apply elem_of_nil in H|exact H].
    + intros H. right. exact H.
  - apply Hnodup. constructor.
Qed.

(** C7 as stated fails on [[1].forEach(x => x)]: the edge into the
    native has a call-site with a function-typed argument, an arrow
    function, and nothing is emitted for it. *)
Lemma arrow_argument_not_attributed :
  call_arguments forEachCall
    = [ {| nd_type := "ArrowFunctionExpression"; nd_range := (12, 18)%Z;
           nd_enclosingFile := Some "a.js" |} ]
  ∧ retrieveAllCalledFunctionsNative [(forEachCall, NativeVertex "Array_prototype_forEach")]
    = [].
Proof. split; reflexivity. Qed.

(** What the [static] projection emits: nothing for an edge into a
    Native vertex; for an edge into a function, the file of the
    call-site with the range of the enclosing function recorded on the
    callee node of the call-site. *)
Lemma static_projection cg e :
  e ∈ retrieveAllCalledFunctionsStatic cg ↔
  ∃ call func, (call, FuncVertex func) ∈ cg ∧ e = staticEdge call func.
Proof.
  unfold retrieveAllCalledFunctionsStatic.
  assert (∀ entries,
            e ∈ fold_left (λ calledFunctions e,
                             match e.2 with
                             | NativeVertex _ => calledFunctions
                             | FuncVertex func => add_entry calledFunctions (staticEdge e.1 func)
                             end) cg entries
            ↔ e ∈ entries ∨ ∃ call func, (call, FuncVertex func) ∈ cg ∧ e = staticEdge call func)
    as H.
  { induction cg as [|[call tgt] cg IH]; intros entries; simpl.
    { split; [by left|]. intros [H|(c & f & Hc & _)]; [done|]. by apply elem_of_nil in Hc. }
    rewrite IH. destruct tgt as [func|name]; simpl.
    - rewrite add_entry_elem. split.
      + intros [[H| ->]|(c & f & Hc & Heq)]; [by left| |].
        * right. exists call, func. split; [by left|done].
        * right. exists c, f. split; [by right|done].
      + intros [H|(c & f & Hc & Heq)]; [by left; left|].
        apply elem_of_cons in Hc as [[= -> ->]|Hc]; [by left; right|].
        right. by exists c, f.
    - split.
      + intros [H|(c & f & Hc & Heq)]; [by left|].
        right. exists c, f. split; [by right|done].
      + intros [H|(c & f & Hc & Heq)]; [by left|].
        apply elem_of_cons in Hc as [[=]|Hc]. right. by exists c, f. }
  rewrite H. split; [|by right]. intros [Hnil|Hex]; [by apply elem_of_nil in Hnil|done].
Qed.

(** For a call graph whose call-sites all come from the decorator (the
    callee node of a call has the enclosing function of the call), the
    caller range of every emitted edge is the range of the enclosing
    function of its call-site, or null at global scope. *)
Lemma static_projection_decorated cg e :
  (∀ call tgt, (call, tgt) ∈ cg → callee_enclosingFunction call = call_enclosingFunction call) →
  e ∈ retrieveAllCalledFunctionsStatic cg →
  ∃ call func,
    (call, FuncVertex func) ∈ cg
    ∧ range (caller e) = match call_enclosingFunction call with
                         | Some f => (Some (nd_range f).1, Some (nd_range f).2)
                         | None => (None, None)
                         end.
Proof.
  intros Hdec He. apply static_projection in He as (call & func & Hin & ->).
  exists call, func. split; [done|]. simpl. by rewrite (Hdec call _ Hin).
Qed.

(** C8 at the pseudo call-site of a Step pair: the enclosing function
    of the call-site is [first], with range [5, 24]; the [static]
    projection emits the edge to [second] with a null caller range. *)
Lemma static_pseudo_call_site :
  call_enclosingFunction pseudoCallSite = Some first
  ∧ nd_range first = (5, 24)%Z
  ∧ retrieveAllCalledFunctionsStatic [(pseudoCallSite, FuncVertex second)]
    = [ {| caller := {| file := Some "a.js"; range := (None, None) |};
           callee := {| file := Some "a.js"; range := (Some 26%Z, Some 46%Z) |} |} ].
Proof. repeat split; reflexivity. Qed.

Section configuration.
Variable resolve : string → string.
Variable existsSync : string → bool.
Variable isDirectory : string → bool.
Variable collectFiles : string → list string → list string.
Variable compiles : string → bool.
Variable matches : string → string → bool.

Lemma applyRules_compiled file filter acc :
  (∀ elem, elem ∈ filter → compiles elem = true) →
  applyRules compiles matches file filter acc
  = Some (fold_left (λ filteredfiles elem,
                       let result := matches elem file in
                       let filteredfiles :=
                         if result && String.prefix "-" elem
                         then remove file filteredfiles else filteredfiles in
                       if result && String.prefix "+" elem
                       then filteredfiles ++ [file] else filteredfiles)
                    filter acc).
Proof.
  revert acc. induction filter as [|elem rest IH]; intros acc Hall; simpl; [done|].
  rewrite (Hall elem) by by left. apply IH. intros e He. apply Hall. by right.
Qed.

Lemma applyRules_throws file filter acc :
  (∃ elem, elem ∈ filter ∧ compiles elem = false) →
  applyRules compiles matches file filter acc = None.
Proof.
  revert acc. induction filter as [|elem rest IH]; intros acc (e & He & Hc).
  { by apply elem_of_nil in He. }
  simpl. destruct (compiles elem) eqn:E; [|done].
  apply IH. exists e. split; [|done].
  apply elem_of_cons in He as [->|He]; [congruence|done].
Qed.

Lemma filterFiles_compiled filter files acc :
  (∀ elem, elem ∈ filter → compiles elem = true) →
  filterFiles compiles matches filter files acc
  = Some (fold_left (λ filteredfiles file,
                       fold_left (λ filteredfiles elem,
                                    let result := matches elem file in
                                    let filteredfiles :=
                                      if result && String.prefix "-" elem
                                      then remove file filteredfiles else filteredfiles in
                                    if result && String.prefix "+" elem
                                    then filteredfiles ++ [file] else filteredfiles)
                                 filter (filteredfiles ++ [file]))
                    files acc).
Proof.
  intros Hall. revert acc. induction files as [|file rest IH]; intros acc; simpl; [done|].
  rewrite applyRules_compiled by done. simpl. apply IH.
Qed.

Lemma malformed_dec filter files :
  malformed compiles filter files ∨ ¬ malformed compiles filter files.
Proof.
  destruct files as [|file rest]; [right; by intros [? _]|].
  destruct filter as [rules|]; [|right; by intros (_ & ? & ? & ? & _)].
  destruct (forallb compiles rules) eqn:E.
  - right. intros (_ & rules' & elem & [= <-] & He & Hc).
    rewrite forallb_forall in E. rewrite (E elem) in Hc; [done|]. by apply list_elem_of_In.
  - left. split; [done|].
    assert (∃ elem, elem ∈ rules ∧ compiles elem = false) as (elem & He & Hc).
    { clear -E. induction rules as [|r rules IH]; [done|]. simpl in E.
      destruct (compiles r) eqn:Er.
      - destruct (IH E) as (elem & He & Hc). exists elem. split; [by right|done].
      - exists r. split; [by left|done]. }
    by exists rules, elem.
Qed.

Lemma filtered_throws rule rules files :
  malformed compiles (Some (rule :: rules)) files →
  filterFiles compiles matches (rule :: rules) files [] = None.
Proof.
  intros (Hfiles & rules' & elem & [= <-] & He & Hc).
  destruct files as [|file rest]; [done|].
  cbn [filterFiles]. rewrite applyRules_throws; [done|]. by exists elem.
Qed.

Lemma filtered_returns rule rules files :
  ¬ malformed compiles (Some (rule :: rules)) files →
  unique <$> filterFiles compiles matches (rule :: rules) files []
  = Some (applyFilter matches (rule :: rules) files).
Proof.
  intros H. destruct files as [|file rest]; [done|].
  assert (∀ elem, elem ∈ rule :: rules → compiles elem = true) as Hall.
  { intros elem He. destruct (compiles elem) eqn:E; [done|].
    exfalso. apply H. split; [done|]. by exists (rule :: rules), elem. }
  by rewrite filterFiles_compiled.
Qed.

(** What [build] does, case by case. *)
Lemma build_cases strategy filter files :
  let r := build compiles matches strategy filter files in
  (malformed compiles filter files ∧ r = ([], Throw))
  ∨ (¬ malformed compiles filter files
     ∧ (strategyInForce strategy ∉ ["NONE"; "ONESHOT"; "DEMAND"; "FULL"])
     ∧ r = ([Warn ("Unknown strategy: " +:+ strategyInForce strategy)], Exit (-1)))
  ∨ (¬ malformed compiles filter files
     ∧ strategyInForce strategy ∈ ["NONE"; "ONESHOT"; "DEMAND"; "FULL"]
     ∧ r.2 = Return
     ∧ ∃ warnings s, Forall warning warnings
                     ∧ r.1 = warnings ++ [Analyse s (analysed matches filter files)]).
Proof.
  intros r. subst r. unfold build. fold (strategyInForce strategy).
  set (s := strategyInForce strategy).
  assert (knownStrategy s = true ↔ s ∈ ["NONE"; "ONESHOT"; "DEMAND"; "FULL"]) as Hknown.
  { unfold knownStrategy. rewrite !orb_true_iff, !String.eqb_eq.
    rewrite !elem_of_cons, elem_of_nil. tauto. }
  assert (∀ fl, ¬ malformed compiles filter files → fl = analysed matches filter files →
            let r := if negb (knownStrategy s) then
                       ([Warn ("Unknown strategy: " +:+ s)], Exit (-1))
                     else if String.eqb s "FULL" then
                       ([Warn "strategy FULL not implemented yet; using DEMAND instead";
                         Analyse "DEMAND" fl], Return)
                     else ([Analyse s fl], Return) in
            (¬ malformed compiles filter files ∧ (s ∉ ["NONE"; "ONESHOT"; "DEMAND"; "FULL"])
             ∧ r = ([Warn ("Unknown strategy: " +:+ s)], Exit (-1)))
            ∨ (¬ malformed compiles filter files ∧ s ∈ ["NONE"; "ONESHOT"; "DEMAND"; "FULL"]
               ∧ r.2 = Return
               ∧ ∃ warnings s', Forall warning warnings
                                ∧ r.1 = warnings ++ [Analyse s' (analysed matches filter files)]))
    as Hrest.
  { intros fl Hok ->. destruct (knownStrategy s) eqn:E; simpl.
    - right. split; [done|]. split; [by apply Hknown|].
      destruct (String.eqb s "FULL"); simpl; (split; [done|]).
      + exists [Warn "strategy FULL not implemented yet; using DEMAND instead"], "DEMAND".
        split; [by repeat constructor|done].
      + by exists [], s.
    - left. split; [done|]. split; [|done]. intros Hin. apply Hknown in Hin. congruence. }
  destruct filter as [[|rule rules]|].
  - right. apply Hrest; [|done]. by intros (_ & ? & ? & [= <-] & ?%elem_of_nil & _).
  - destruct (malformed_dec (Some (rule :: rules)) files) as [Hbad|Hok].
    + left. split; [done|]. by rewrite filtered_throws.
    + right. rewrite filtered_returns by done. by apply Hrest.
  - right. apply Hrest; [|done]. by intros (_ & ? & ? & [=] & _).
Qed.

Lemma build_outcomes strategy filter files :
  let r := build compiles matches strategy filter files in
  (r.2 = Throw ↔ malformed compiles filter files)
  ∧ (r.2 = Exit (-1)
     ↔ ¬ malformed compiles filter files
       ∧ (strategyInForce strategy ∉ ["NONE"; "ONESHOT"; "DEMAND"; "FULL"]))
  ∧ (r.2 = Throw ∨ r.2 = Exit (-1) ∨ r.2 = Return)
  ∧ (r.2 = Throw → r.1 = [])
  ∧ (r.2 = Exit (-1) → Forall warning r.1)
  ∧ (r.2 = Return →
     ∃ warnings s, Forall warning warnings
                   ∧ r.1 = warnings ++ [Analyse s (analysed matches filter files)]).
Proof.
  intros r.
  destruct (build_cases strategy filter files)
    as [[Hbad Hr]|[(Hok & Hs & Hr)|(Hok & Hs & Hr & Hev)]]; fold r in Hr.
  - rewrite Hr. simpl. split; [done|]. split; [by split; [|intros [? _]]|].
    split; [by left|]. by split; [|split].
  - rewrite Hr. simpl. split; [by split|]. split; [done|].
    split; [by right; left|]. split; [done|]. split; [|done].
    intros _. by repeat constructor.
  - rewrite Hr. split; [by split|]. split; [by split; [|intros [_ ?]]|].
    split; [by right; right|]. by split; [|split].
Qed.

(** C9, as the code has it.  [build] tests every file against every
    rule of a filter that is not empty; a rule that is not a regular
    expression makes it throw, before the strategy is looked at and
    with nothing printed.  Otherwise [build] ends the program, with
    code -1, exactly when the strategy in force (ONESHOT when none is
    given) is not one of NONE, ONESHOT, DEMAND, FULL, having printed
    warnings only; and otherwise it returns, the analysis having run on
    the files the filter keeps.  [setFiles] ends the program, with code
    -1, exactly when the resolved list of input files is empty, and
    otherwise returns; it prints warnings only.  Code -1 is a non-zero
    exit status (255). *)
Theorem exits_on_configuration_failures :
  (∀ strategy filter files,
     let r := build compiles matches strategy filter files in
     (r.2 = Throw ↔ malformed compiles filter files)
     ∧ (r.2 = Exit (-1)
        ↔ ¬ malformed compiles filter files
          ∧ (strategyInForce strategy ∉ ["NONE"; "ONESHOT"; "DEMAND"; "FULL"]))
     ∧ (r.2 = Throw ∨ r.2 = Exit (-1) ∨ r.2 = Return)
     ∧ (r.2 = Throw → r.1 = [])
     ∧ (r.2 = Exit (-1) → Forall warning r.1)
     ∧ (r.2 = Return →
        ∃ warnings s, Forall warning warnings
                      ∧ r.1 = warnings ++ [Analyse s (analysed matches filter files)]))
  ∧ (∀ inputList,
       let r := setFiles resolve existsSync isDirectory collectFiles inputList in
       (fr_outcome r = Exit (-1) ↔ fr_files r = [])
       ∧ (fr_outcome r = Exit (-1) ∨ fr_outcome r = Return)
       ∧ Forall warning (fr_events r))
  ∧ exitStatus (-1) = 255%Z ∧ exitStatus (-1) ≠ 0%Z.
Proof.
  split; [|split; [|done]].
  - apply build_outcomes.
  - intros inputList. unfold setFiles.
    set (step := λ '(events, filelist) file, _).
    assert (∀ acc, Forall warning acc.1 →
                   Forall warning (fold_left step inputList acc).1) as Hwarn.
    { induction inputList as [|file rest IH]; intros [events filelist] Hacc; [done|].
      simpl. apply IH. subst step. simpl.
      destruct (existsSync (resolve file)); simpl.
      - by repeat case_match.
      - apply Forall_app. split; [done|]. by repeat constructor. }
    specialize (Hwarn ([], []) (Forall_nil_2 _)).
    destruct (fold_left step inputList ([], [])) as [events filelist]. simpl in Hwarn.
    destruct (unique filelist) as [|f l] eqn:Efiles; simpl.
    + split; [done|]. split; [by left|].
      apply Forall_app. split; [done|]. by repeat constructor.
    + split; [done|]. split; [by right|done].
Qed.

End configuration.

(** C9 as stated fails on a filter with a rule that is not a regular
    expression: with the strategy DEMAND and the input file [a.js],
    [build] neither returns nor calls [process.exit]; the exception
    leaves it.  With an unknown strategy it does the same: the strategy
    is not looked at. *)
Lemma malformed_filter_throws :
  build (λ elem, negb (String.eqb elem unclosed)) (λ _ _, false)
    (Some "DEMAND") (Some [unclosed]) ["a.js"] = ([], Throw)
  ∧ build (λ elem, negb (String.eqb elem unclosed)) (λ _ _, false)
      (Some "BOGUS") (Some [unclosed]) ["a.js"] = ([], Throw).
Proof. split; reflexivity. Qed.

Lemma indexOf_None what l : indexOf what l = None → what ∉ l.
Proof.
  induction l as [|x l IH]; simpl; [intros _; apply not_elem_of_nil|].
  destruct (String.eqb_spec x what) as [->|Hne]; [done|].
  destruct (indexOf what l); [done|]. intros _.
  apply not_elem_of_cons. split; [done|by apply IH].
Qed.

Lemma indexOf_Some what l ax :
  indexOf what l = Some ax →
  (length (splice ax l) < length l)%nat
  ∧ filter (λ x, x ≠ what) (splice ax l) = filter (λ x, x ≠ what) l.
Proof.
  revert ax. induction l as [|x l IH]; intros ax; simpl; [done|].
  destruct (String.eqb_spec x what) as [->|Hne].
  - intros [= <-]. unfold splice. simpl. rewrite drop_0. split; [lia|].
    by rewrite filter_cons_False by (by intros H; apply H).
  - destruct (indexOf what l) as [ax'|] eqn:E; [|done]. intros [= <-].
    destruct (IH ax' eq_refl) as [Hlen Hfilter]. unfold splice in *. simpl.
    split; [lia|]. by rewrite !filter_cons_True, Hfilter by done.
Qed.

Lemma filter_absent what (l : list string) : what ∉ l → filter (λ x, x ≠ what) l = l.
Proof.
  induction l as [|x l IH]; [done|]. intros H. apply not_elem_of_cons in H as [Hne Hl].
  rewrite filter_cons_True by done. by rewrite IH.
Qed.

Lemma removeEvery_filter fuel what l :
  (length l ≤ fuel)%nat → removeEvery fuel what l = Some (filter (λ x, x ≠ what) l).
Proof.
  revert l. induction fuel as [|fuel IH]; intros l Hlen.
  - destruct l; [done|simpl in Hlen; lia].
  - simpl. destruct (indexOf what l) as [ax|] eqn:E.
    + destruct (indexOf_Some what l ax E) as [Hshorter Hfilter].
      rewrite IH by lia. by rewrite Hfilter.
    + by rewrite (filter_absent what l (indexOf_None what l E)).
Qed.

Lemma removeArguments_filter fuel pending : ∀ l,
  (length l ≤ fuel)%nat →
  removeArguments fuel pending l = Some (filter (λ x, x ∉ pending) l).
Proof.
  induction pending as [|what rest IH]; intros l Hlen; simpl.
  { f_equal. induction l as [|x l IHl]; [done|].
    rewrite filter_cons_True by apply not_elem_of_nil. rewrite <- IHl at 1; [done|].
    simpl in Hlen. lia. }
  destruct l as [|x l]; [done|].
  change (length (x :: l) =? 0)%nat with false. cbv iota.
  rewrite removeEvery_filter by done. cbn [mbind option_bind].
  rewrite IH.
  2: { etrans; [apply length_filter|done]. }
  f_equal. rewrite list_filter_filter. apply list_filter_iff.
  intros y. rewrite not_elem_of_cons. tauto.
Qed.

(** X12. [l.remove(a_1, .., a_n)] stops after at most [l.length] splices
    per argument and leaves in [l], in their order, the elements that
    are none of the arguments; with one argument, every occurrence of
    it is removed, not only the first. *)
Theorem remove_every_occurrence fuel a l :
  (length l ≤ fuel)%nat →
  removeAll fuel a l = Some (filter (λ x, x ∉ a) l)
  ∧ ∀ what, removeAll fuel [what] l = Some (remove what l).
Proof.
  intros Hlen. unfold removeAll. split.
  - rewrite removeArguments_filter by done.
    f_equal. apply list_filter_iff. intros y. by rewrite elem_of_reverse.
  - intros what. rewrite removeArguments_filter by done.
    f_equal. unfold remove. apply list_filter_iff. intros y.
    rewrite reverse_singleton, list_elem_of_singleton. done.
Qed.

Lemma remove_every_occurrence_witness :
  removeAll 4 ["a"; "c"] ["a"; "b"; "a"; "c"] = Some ["b"].
Proof.
  destruct (remove_every_occurrence 4 ["a"; "c"] ["a"; "b"; "a"; "c"]) as [H _];
    [simpl; lia|].
  rewrite H. reflexivity.
Defined.

(** *** [Array.from(new Set(l))] *)

Lemma unique_fold (l : list string) : ∀ seen,
  NoDup seen →
  let out := fold_left (λ seen x, if bool_decide (x ∈ seen) then seen else seen ++ [x]) l seen in
  NoDup out ∧ ∀ x, x ∈ out ↔ x ∈ seen ∨ x ∈ l.
Proof.
  induction l as [|y l IH]; intros seen Hseen; simpl.
  { split; [done|]. intros x. rewrite elem_of_nil. tauto. }
  case_bool_decide as Hy.
  - destruct (IH seen Hseen) as [Hnd Helem]. split; [done|].
    intros x. rewrite Helem, elem_of_cons. split; [tauto|].
    intros [H|[->|H]]; auto.
  - destruct (IH (seen ++ [y])) as [Hnd Helem].
    { apply NoDup_app. split; [done|]. split; [|apply NoDup_singleton].
      intros x Hx Hxy. apply list_elem_of_singleton in Hxy as ->. done. }
    split; [done|]. intros x.
    rewrite Helem, elem_of_app, list_elem_of_singleton, elem_of_cons. tauto.
Qed.

Lemma unique_NoDup l : NoDup (unique l).
Proof. apply (unique_fold l []). constructor. Qed.

Lemma unique_elem l x : x ∈ unique l ↔ x ∈ l.
Proof.
  destruct (unique_fold l [] (NoDup_nil_2)) as [_ H]. unfold unique. rewrite H.
  rewrite elem_of_nil. tauto.
Qed.

Section filtering.
Variable matches : string → string → bool.

Lemma prefix_signs elem : String.prefix "-" elem = true → String.prefix "+" elem = false.
Proof.
  destruct elem as [|c elem]; [done|]. simpl.
  repeat case_match; done.
Qed.

Lemma rules_elem file rules : ∀ l y,
  y ∈ fold_left (λ filteredfiles elem,
                   let result := matches elem file in
                   let filteredfiles :=
                     if result && String.prefix "-" elem
                     then remove file filteredfiles else filteredfiles in
                   if result && String.prefix "+" elem
                   then filteredfiles ++ [file] else filteredfiles) rules l
  ↔ (y ≠ file ∧ y ∈ l)
    ∨ (y = file ∧ verdictFrom matches (bool_decide (file ∈ l)) rules file = true).
Proof.
  induction rules as [|elem rules IH]; intros l y; simpl.
  { unfold verdictFrom. simpl. rewrite bool_decide_eq_true.
    destruct (decide (y = file)) as [->|Hne]; tauto. }
  rewrite IH. clear IH. unfold verdictFrom. simpl.
  destruct (matches elem file); simpl; [|done].
  destruct (String.prefix "-" elem) eqn:Eminus.
  - rewrite (prefix_signs elem Eminus). unfold remove.
    rewrite list_elem_of_filter.
    assert (bool_decide (file ∈ filter (λ x, x ≠ file) l) = false) as ->.
    { apply bool_decide_eq_false. rewrite list_elem_of_filter. tauto. }
    tauto.
  - destruct (String.prefix "+" elem); [|done].
    rewrite elem_of_app, list_elem_of_singleton.
    assert (bool_decide (file ∈ l ++ [file]) = true) as ->.
    { apply bool_decide_eq_true. apply elem_of_app. right. by apply list_elem_of_singleton. }
    tauto.
Qed.

Lemma files_elem rules files : ∀ acc y,
  y ∈ fold_left (λ filteredfiles file,
                   fold_left (λ filteredfiles elem,
                                let result := matches elem file in
                                let filteredfiles :=
                                  if result && String.prefix "-" elem
                                  then remove file filteredfiles else filteredfiles in
                                if result && String.prefix "+" elem
                                then filteredfiles ++ [file] else filteredfiles)
                             rules (filteredfiles ++ [file]))
                files acc
  ↔ ((y ∉ files) ∧ y ∈ acc) ∨ (y ∈ files ∧ verdict matches rules y = true).
Proof.
  induction files as [|file files IH]; intros acc y; simpl.
  { split; [intros H; left; split; [intros Hn; by apply elem_of_nil in Hn|done]|].
    intros [[_ H]|[H _]]; [done|by apply elem_of_nil in H]. }
  rewrite IH, rules_elem. clear IH.
  assert (bool_decide (file ∈ acc ++ [file]) = true) as ->.
  { apply bool_decide_eq_true. apply elem_of_app. right. by apply list_elem_of_singleton. }
  fold (verdict matches rules file).
  rewrite elem_of_app, list_elem_of_singleton, not_elem_of_cons, elem_of_cons.
  destruct (decide (y = file)) as [->|Hne]; [|tauto].
  destruct (decide (file ∈ files)); tauto.
Qed.

(** X13. The files that the filter of [build] keeps are the input
    files on which the last rule that matches and starts with [-] or
    [+] starts with [+], together with those on which no such rule
    matches; each of them is kept once. *)
Theorem applyFilter_verdict rules files :
  (∀ file, file ∈ applyFilter matches rules files
           ↔ file ∈ files ∧ verdict matches rules file = true)
  ∧ NoDup (applyFilter matches rules files).
Proof.
  split; [|apply unique_NoDup].
  intros file. unfold applyFilter. rewrite unique_elem, files_elem, elem_of_nil. tauto.
Qed.

End filtering.

Section files.
Variable resolve : string → string.
Variable existsSync : string → bool.
Variable isDirectory : string → bool.
Variable collectFiles : string → list string → list string.

(** X14. When no input is a directory, [setFiles] keeps the resolved
    paths that exist and end in [.js], [.jsx], [.ts], [.tsx] or [.vue],
    each once and in the order of their first occurrence; it warns once
    for every input that does not exist, in their order, and last
    about an empty list when nothing is kept. *)
Theorem setFiles_files inputList :
  (∀ input, input ∈ inputList → isDirectory (resolve input) = false) →
  let r := setFiles resolve existsSync isDirectory collectFiles inputList in
  fr_files r
  = unique (List.filter (λ f, existsSync f && supported f) (resolve <$> inputList))
  ∧ NoDup (fr_files r)
  ∧ fr_events r
    = (missing <$> List.filter (λ f, negb (existsSync f)) (resolve <$> inputList))
      ++ (if fr_files r is [] then [Warn "Input file list is empty!"] else []).
Proof.
  intros Hdir. unfold setFiles.
  set (step := λ '(events, filelist) file, _).
  assert (∀ l acc,
            (∀ input, input ∈ l → isDirectory (resolve input) = false) →
            fold_left step l acc
            = (acc.1 ++ (missing <$> List.filter (λ f, negb (existsSync f)) (resolve <$> l)),
               acc.2 ++ List.filter (λ f, existsSync f && supported f) (resolve <$> l)))
    as Hfold.
  { induction l as [|input l IH]; intros [events filelist] Hl; simpl.
    { by rewrite !app_nil_r. }
    assert (isDirectory (resolve input) = false) as Hinput by (apply Hl; by left).
    rewrite IH by (intros i Hi; apply Hl; by right).
    subst step. simpl. rewrite Hinput. fold (supported (resolve input)).
    destruct (existsSync (resolve input)); simpl.
    - destruct (supported (resolve input)); simpl; [|done]. by rewrite <- app_assoc.
    - unfold missing. by rewrite <- app_assoc. }
  rewrite (Hfold inputList ([], []) Hdir). simpl.
  destruct (unique _) as [|f l] eqn:E; simpl.
  - split; [done|]. split; [constructor|done].
  - split; [done|]. split; [rewrite <- E; apply unique_NoDup|by rewrite app_nil_r].
Qed.

End files.

Lemma setFiles_files_witness :
  fr_files (setFiles (λ f, "/w/" +:+ f) (λ f, negb (String.eqb f "/w/gone.js"))
              (λ _, false) (λ _ l, l) ["a.js"; "gone.js"; "notes.txt"; "a.js"])
  = ["/w/a.js"].
Proof.
  destruct (setFiles_files (λ f, "/w/" +:+ f) (λ f, negb (String.eqb f "/w/gone.js"))
              (λ _, false) (λ _ l, l) ["a.js"; "gone.js"; "notes.txt"; "a.js"])
    as (Hfiles & _ & _); [done|].
  rewrite Hfiles. reflexivity.
Defined.

Lemma static_fold cg : ∀ entries,
  NoDup entries →
  NoDup (fold_left (λ calledFunctions e,
                      match e.2 with
                      | NativeVertex _ => calledFunctions
                      | FuncVertex func => add_entry calledFunctions (staticEdge e.1 func)
                      end) cg entries).
Proof.
  induction cg as [|[call tgt] cg IH]; intros entries Hnd; simpl; [done|].
  apply IH. destruct tgt; simpl; [by apply add_entry_NoDup|done].
Qed.

(** X15. [retrieveAllCalledFunctionsStatic] emits the edges of the
    call graph that end in a function vertex and nothing else: an
    entry is emitted exactly when it has the file and range of the
    target as callee and, as caller, the file of the call-site with the
    range of the function around the callee node ([null] twice at top
    level); no entry is emitted twice. *)
Theorem static_edges cg :
  (∀ e, e ∈ retrieveAllCalledFunctionsStatic cg
        ↔ ∃ call func,
            (call, FuncVertex func) ∈ cg
            ∧ callee e = {| file := nd_enclosingFile func;
                            range := (Some (nd_range func).1, Some (nd_range func).2) |}
            ∧ caller e = {| file := call_enclosingFile call;
                            range := match callee_enclosingFunction call with
                                     | Some f => (Some (nd_range f).1, Some (nd_range f).2)
                                     | None => (None, None)
                                     end |})
  ∧ NoDup (retrieveAllCalledFunctionsStatic cg).
Proof.
  split; [|by apply static_fold, NoDup_nil_2].
  intros e. rewrite static_projection. split.
  - intros (call & func & Hin & ->). by exists call, func.
  - intros (call & func & Hin & Hcallee & Hcaller). exists call, func. split; [done|].
    destruct e as [c d]. simpl in *. subst c d. done.
Qed.

End RunnerFacts.

(** ** From sources to the decorated tree *)

Module BuildFacts.
Import Js Astutil Build AstutilFacts.

(** *** One file, one name *)









Section parser.
Variable trimHashbangPrep : string → string.
Variable parse : string → bool → value + string.
Variable readFileSync : string → option string.
Hypothesis Hparse : ∀ src jsx prog, parse src jsx = inl prog → program prog.






End parser.




End BuildFacts.
